(** * Offset tree: the minimum-depth binary tree and the score propagation

    A shallow embedding of [vowpalwabbit/offset_tree.cc]:
    [min_depth_binary_tree::build_tree], the node counters,
    [offset_tree::predict] with its thread-local buffers, and [learn].

    Integers are modelled in [Z] with the wrap-around of their C++ type
    written out; vectors are lists read and written by index, where an
    index out of range is undefined behaviour; exceptions and undefined
    behaviour are the outcomes of a call next to its normal return.
    [float] is a parameter of [predict]; for the sum of the scores it is
    IEEE 754 binary32. *)

From Stdlib Require Import ZArith Lia Reals Lra.
From Equations Require Import Equations.
From stdpp Require Import base tactics option list numbers.

Local Open Scope Z_scope.

#[local] Set Warnings "-clear-no-such-hyp".

(** ** Machine integers *)

(** Conversion to [uint32_t]. *)
Definition uint32_t (z : Z) : Z := z mod 2 ^ 32.

(** Conversion to [int32_t] (two's complement). *)
Definition int32_t (z : Z) : Z := (z + 2 ^ 31) mod 2 ^ 32 - 2 ^ 31.

(** Conversion to [size_t] (64 bits). *)
Definition size_t (z : Z) : Z := z mod 2 ^ 64.

Definition INT_MAX : Z := 2 ^ 31 - 1.

(** ** Outcomes of a call *)

(** The three messages [THROW] is used with in this file. *)
Inductive vw_exception : Type :=
| ConfigurationConflict (num_nodes current : Z)
    (* "Tree already initialized.  New leaf node count (..) does not equal
       current value. (..)" *)
| OutOfMemory (label_count : Z)
    (* "Unable to allocate memory for offset tree.  Label count:.." *)
| NotImplemented.
    (* "Offset tree learn() - not yet impemented." *)

Inductive exn : Type :=
| vw (e : vw_exception)
| bad_alloc
| length_error.

Inductive outcome (A : Type) : Type :=
| Normal (a : A)
| Throw (e : exn)
| Undefined.
Arguments Normal {A} a.
Arguments Throw {A} e.
Arguments Undefined {A}.

#[global] Instance outcome_bind : MBind outcome := fun A B f o =>
  match o with
  | Normal a => f a
  | Throw e => Throw e
  | Undefined => Undefined
  end.

(** [v[i]] on a vector: undefined when [i] is not an index of [v]. *)
Definition at_index {A : Type} (v : list A) (i : Z) : outcome A :=
  if bool_decide (0 ≤ i < Z.of_nat (length v)) then
    match v !! Z.to_nat i with
    | Some a => Normal a
    | None => Undefined
    end
  else Undefined.

(** [v[i] = a]. *)
Definition set_index {A : Type} (v : list A) (i : Z) (a : A) : outcome (list A) :=
  if bool_decide (0 ≤ i < Z.of_nat (length v)) then Normal (<[Z.to_nat i := a]> v)
  else Undefined.

(** A counted loop: [body] at each index of [range] in turn, left to right. *)
Fixpoint for_each {S : Type} (body : Z → S → outcome S) (range : list Z) (s : S)
  : outcome S :=
  match range with
  | [] => Normal s
  | i :: range => s' ← body i s; for_each body range s'
  end.

(** ** The allocator

    The answers of the allocator to the successive requests of a call:
    [false] is a request that fails with [std::bad_alloc]. Once the list
    is used up every request succeeds, so [[]] is the run in which no
    allocation fails. The requests of [build_tree] are its [reserve]
    calls: on a new tree of up to [2^31] leaves every [emplace_back]
    stays within the capacity reserved before it. For the other states
    of the tree, where an [emplace_back] can ask for memory and a
    [reserve] need not, see [build_tree_mem] below, which keeps the
    capacity of the vectors. *)
Definition heap : Type := list bool.

Definition allocate (mem : heap) : bool * heap :=
  match mem with
  | [] => (true, [])
  | b :: mem => (b, mem)
  end.

(** ** Tree nodes *)

(** Modelled from the spec: [tree_node] and [min_depth_binary_tree] are
    declared in [offset_tree.h], which is not among the sources; the
    fields are those the constructor, [operator==] and [build_tree]
    use, all ids being [uint32_t]. *)
Record tree_node : Type := mk_node {
  id : Z;
  left_id : Z;
  right_id : Z;
  is_leaf : bool
}.

(** [tree_node::tree_node(node_id, left_node_id, right_node_id, is_leaf)]:
    the arguments are converted to [uint32_t]. *)
Definition new_tree_node (node_id left_node_id right_node_id : Z) (leaf : bool)
  : tree_node :=
  mk_node (uint32_t node_id) (uint32_t left_node_id) (uint32_t right_node_id) leaf.

(** [tree_node::operator==]. *)
Definition tree_node_eqb (a b : tree_node) : bool :=
  (id a =? id b) && (left_id a =? left_id b) && (right_id a =? right_id b)
  && Bool.eqb (is_leaf a) (is_leaf b).

Record min_depth_binary_tree : Type := mk_tree {
  nodes : list tree_node;
  root_idx : Z;
  _num_leaf_nodes : Z;
  _initialized : bool
}.

(** Modelled from the spec: the tree before its construction, with the
    values the members have by default: no node, not initialised. *)
Definition new_tree : min_depth_binary_tree := mk_tree [] 0 0 false.

(** ** [min_depth_binary_tree::build_tree] *)

(** The first loop of the [try] block: the leaves, each one a candidate
    of the first round. *)
Definition add_leaves (num_leaf_nodes : Z) (ns : list tree_node)
  : list tree_node * list Z :=
  foldl (fun '(ns, tournaments) i =>
           (ns ++ [new_tree_node i 0 0 true], tournaments ++ [uint32_t i]))
        (ns, []) (seqZ 0 num_leaf_nodes).

(** One iteration of the inner [for]: the state is the node vector, the
    candidates of the next round and the [size_t] counter [id]. *)
Definition play (tournaments : list Z) (j : Z)
    (s : list tree_node * list Z * Z) : outcome (list tree_node * list Z * Z) :=
  let '(ns, new_tournaments, id) := s in
  l ← at_index tournaments (2 * j);
  r ← at_index tournaments (2 * j + 1);
  Normal (ns ++ [new_tree_node id l r false],
          new_tournaments ++ [uint32_t id],
          id + 1).

(** [tournaments.back()]. *)
Definition back (tournaments : list Z) : outcome Z :=
  at_index tournaments (Z.of_nat (length tournaments) - 1).

(** The body of the [while]: one round, after [new_tournaments.reserve]. *)
Definition round (ns : list tree_node) (tournaments : list Z)
  : outcome (list tree_node * list Z) :=
  let num_tournaments := Z.of_nat (length tournaments) in
  let id := Z.of_nat (length ns) in
  '(ns, new_tournaments, _) ←
    for_each (play tournaments) (seqZ 0 (num_tournaments / 2)) (ns, [], id);
  if num_tournaments mod 2 =? 1 then
    last ← back tournaments;
    Normal (ns, new_tournaments ++ [last])
  else Normal (ns, new_tournaments).

(** Each iteration of the inner [for] adds one node and one candidate. *)
Lemma for_each_play_length tournaments range ns new_tournaments id ns' new' id' :
  for_each (play tournaments) range (ns, new_tournaments, id)
    = Normal (ns', new', id') →
  length new' = (length new_tournaments + length range)%nat
  ∧ length ns' = (length ns + length range)%nat
  ∧ id' = id + Z.of_nat (length range).
Proof.
  revert ns new_tournaments id.
  induction range as [|j range IH]; intros ns new_tournaments id; simpl.
  - intros [= <- <- <-]. lia.
  - unfold play at 1.
    destruct (at_index tournaments (2 * j)) as [l| |]; simpl; try done.
    destruct (at_index tournaments (2 * j + 1)) as [r| |]; simpl; try done.
    intros H%IH. rewrite !length_app in H. simpl in H. lia.
Qed.

(** A round of [n] candidates leaves [n / 2 + n mod 2] of them. *)
Lemma round_length ns tournaments ns' new_tournaments :
  round ns tournaments = Normal (ns', new_tournaments) →
  Z.of_nat (length new_tournaments)
    = Z.of_nat (length tournaments) / 2 + Z.of_nat (length tournaments) mod 2
  ∧ Z.of_nat (length ns')
    = Z.of_nat (length ns) + Z.of_nat (length tournaments) / 2.
Proof.
  unfold round.
  destruct (for_each _ _ _) as [[[ns1 new1] id1]| |] eqn:E; simpl; try done.
  apply for_each_play_length in E as (E1 & E2 & _).
  rewrite length_seqZ in E1, E2. simpl in E1.
  assert (0 ≤ Z.of_nat (length tournaments) / 2) by (apply Z.div_pos; lia).
  pose proof (Z.mod_pos_bound (Z.of_nat (length tournaments)) 2 eq_refl).
  destruct (_ mod 2 =? 1) eqn:Hodd.
  - destruct (back tournaments); simpl; try done.
    intros [= <- <-]. rewrite length_app. simpl. lia.
  - intros [= <- <-]. lia.
Qed.

(** The value of an expression together with the equation that names it. *)
Definition inspect {A : Type} (a : A) : {b : A | a = b} := exist _ a eq_refl.

(** The [while] loop, with the [reserve] that opens each round. The node
    vector is a member of the tree: it keeps what was appended when the
    loop is left by an exception. *)
Equations? rounds (mem : heap) (ns : list tree_node) (tournaments : list Z)
  : list tree_node * outcome (list Z) by wf (length tournaments) lt :=
rounds mem ns tournaments with decide (1 < length tournaments)%nat := {
  | right _ => (ns, Normal tournaments);
  | left _ with allocate mem := {
    | (false, _) => (ns, Throw bad_alloc);
    | (true, mem') with inspect (round ns tournaments) := {
      | exist _ (Normal (ns', new_tournaments)) E =>
          rounds mem' ns' new_tournaments;
      | exist _ (Throw e) _ => (ns, Throw e);
      | exist _ Undefined _ => (ns, Undefined) } } }.
Proof.
  apply round_length in E as [E _].
  pose proof (Z.div_mod (Z.of_nat (length tournaments)) 2 ltac:(lia)).
  pose proof (Z.mod_pos_bound (Z.of_nat (length tournaments)) 2 eq_refl).
  lia.
Qed.

(** The [try] block: [nodes.reserve(2 * _num_leaf_nodes - 1)],
    [tournaments.reserve(_num_leaf_nodes)], the leaves, the rounds and
    [root_idx = tournaments[0]]. The allocator is asked by these two
    [reserve] calls and by the one of each round: so the source does on
    a tree without nodes of up to [2^31] leaves, and in every state
    when no request fails. [try_block_mem] below is the block for every
    state of the tree. *)
Definition try_block (mem : heap) (t : min_depth_binary_tree)
  : min_depth_binary_tree * outcome () :=
  match allocate mem with
  | (false, _) => (t, Throw bad_alloc)
  | (true, mem) =>
    match allocate mem with
    | (false, _) => (t, Throw bad_alloc)
    | (true, mem) =>
      let '(ns, tournaments) := add_leaves (_num_leaf_nodes t) (nodes t) in
      let '(ns, o) := rounds mem ns tournaments in
      let t := mk_tree ns (root_idx t) (_num_leaf_nodes t) (_initialized t) in
      match o with
      | Normal tournaments =>
        match at_index tournaments 0 with
        | Normal root =>
            (mk_tree ns root (_num_leaf_nodes t) (_initialized t), Normal ())
        | Throw e => (t, Throw e)
        | Undefined => (t, Undefined)
        end
      | Throw e => (t, Throw e)
      | Undefined => (t, Undefined)
      end
    end
  end.

(** [void min_depth_binary_tree::build_tree(uint32_t num_nodes)]: the tree
    after the call and how the call ended. *)
Definition build_tree (num_nodes : Z) (mem : heap) (t : min_depth_binary_tree)
  : min_depth_binary_tree * outcome () :=
  if _initialized t then
    if bool_decide (num_nodes ≠ _num_leaf_nodes t) then
      (t, Throw (vw (ConfigurationConflict num_nodes (_num_leaf_nodes t))))
    else (t, Normal ())
  else
    let t := mk_tree (nodes t) (root_idx t) num_nodes (_initialized t) in
    if bool_decide (_num_leaf_nodes t = 0) then
      (mk_tree (nodes t) (root_idx t) (_num_leaf_nodes t) true, Normal ())
    else
      let '(t, o) := try_block mem t in
      match o with
      | Normal _ =>
          (mk_tree (nodes t) (root_idx t) (_num_leaf_nodes t) true, Normal ())
      | Throw bad_alloc => (t, Throw (vw (OutOfMemory (_num_leaf_nodes t))))
      | Throw e => (t, Throw e)
      | Undefined => (t, Undefined)
      end.

(** [build(k)] on a new tree when no allocation fails. *)
Definition build (k : Z) : min_depth_binary_tree := (build_tree k [] new_tree).1.

(** [uint32_t internal_node_count() const]: a [size_t] difference
    returned as [uint32_t]. *)
Definition internal_node_count (t : min_depth_binary_tree) : Z :=
  uint32_t (size_t (Z.of_nat (length (nodes t)) - _num_leaf_nodes t)).

(** [uint32_t leaf_node_count() const]. *)
Definition leaf_node_count (t : min_depth_binary_tree) : Z := _num_leaf_nodes t.

(** Modelled from the spec: [offset_tree] is declared in [offset_tree.h];
    the member this file uses is [binary_tree]. *)
Record offset_tree : Type := mk_offset_tree {
  binary_tree : min_depth_binary_tree
}.

(** [void offset_tree::init(uint32_t num_actions)]. *)
Definition init (num_actions : Z) (mem : heap) (ot : offset_tree)
  : offset_tree * outcome () :=
  let '(t, o) := build_tree num_actions mem (binary_tree ot) in
  (mk_offset_tree t, o).

(** [int32_t offset_tree::learner_count() const]. *)
Definition learner_count (ot : offset_tree) : Z :=
  int32_t (internal_node_count (binary_tree ot)).

(** ** [offset_tree::predict] *)

(** [std::vector<T>(n)] for elements of [elt_size] bytes: [n] elements
    with value [x], or [std::length_error] above [max_size()]. *)
Definition vector_n {A : Type} (elt_size : Z) (n : Z) (x : A) : outcome (list A) :=
  if bool_decide (size_t n ≤ (2 ^ 63 - 1) / elt_size) then
    Normal (replicate (Z.to_nat (size_t n)) x)
  else Throw length_error.

(** [v.resize(n)]: the first [n] elements, filled up with [x]. *)
Definition resize {A : Type} (n : Z) (x : A) (v : list A) : list A :=
  take (Z.to_nat n) v ++ replicate (Z.to_nat n - length v) x.

(** [offset_helper<T>::operator[]]: [collection[idx - start_index_offset]],
    the difference taken in [size_t]. *)
Definition offset_helper_get {A : Type} (collection : list A)
    (start_index_offset idx : Z) : outcome A :=
  at_index collection (size_t (idx - start_index_offset)).

Definition offset_helper_set {A : Type} (collection : list A)
    (start_index_offset idx : Z) (a : A) : outcome (list A) :=
  set_index collection (size_t (idx - start_index_offset)) a.

Section predict.
(** [float] with its multiplication, [0.0f] and [1.0f]. Nothing is
    assumed of the arithmetic. *)
Context {float : Type} (fmul : float → float → float) (f0 f1 : float).

(** The base learner and the example, and [base.predict(ec, idx)]
    followed by the reads of [ec.pred.a_s[0].score] and
    [ec.pred.a_s[1].score]: the scorer, which may change both. *)
Context {World : Type} (base_predict : World → Z → World * (float * float)).

(** The two [static thread_local] vectors of [predict]. *)
Record thread_local : Type := mk_thread_local {
  prediction_buffer : list (float * float);
  scores : list float
}.

(** The state of a call. [calls] and [writes] are traces and are never
    read: the indices the scorer was invoked with, and the indices of
    [scores] that were assigned, both in order of time. *)
Record run : Type := mk_run {
  statics : thread_local;
  world : World;
  calls : list Z;
  writes : list Z
}.

Definition set_buffer (b : list (float * float)) (s : run) : run :=
  mk_run (mk_thread_local b (scores (statics s))) (world s) (calls s) (writes s).

(** [scores[i] = x]. *)
Definition assign_score (i : Z) (x : float) (s : run) : outcome run :=
  sc ← set_index (scores (statics s)) i x;
  Normal (mk_run (mk_thread_local (prediction_buffer (statics s)) sc)
                 (world s) (calls s) (writes s ++ [i])).

(** The initialisation of the statics, the first time a thread runs
    [predict]: [prediction_buffer(learner_count())] and
    [scores(binary_tree.leaf_node_count())]. *)
Definition init_statics (ot : offset_tree) (tls : option thread_local)
  : outcome thread_local :=
  match tls with
  | Some tl => Normal tl
  | None =>
    b ← vector_n 8 (learner_count ot) (f0, f0);
    sc ← vector_n 4 (leaf_node_count (binary_tree ot)) f0;
    Normal (mk_thread_local b sc)
  end.

(** The body of the first loop. *)
Definition score_node (idx : Z) (s : run) : run :=
  let '(w, p) := base_predict (world s) idx in
  mk_run (mk_thread_local (prediction_buffer (statics s) ++ [p]) (scores (statics s)))
         w (calls s ++ [idx]) (writes s).

(** [for (auto idx = 0; idx < t.internal_node_count(); ++idx)]: [idx]
    is an [int] compared as unsigned, so the body runs
    [internal_node_count()] times, for [idx = 0, 1, ...]; each run is
    followed by [++idx], which is undefined at [INT_MAX]. *)
Fixpoint score_nodes (count : nat) (idx : Z) (s : run) : outcome run :=
  match count with
  | O => Normal s
  | S count =>
    let s := score_node idx s in
    if bool_decide (idx + 1 ≤ INT_MAX) then score_nodes count (idx + 1) s
    else Undefined
  end.

(** The update for one child of the node at hand: [p] is the share of
    the node that goes to this child. A leaf gets it as its score; the
    pair of an internal child is multiplied by it, first then second. *)
Definition push_down (t : min_depth_binary_tree) (child : Z) (p : float)
    (s : run) : outcome run :=
  c ← at_index (nodes t) child;
  if is_leaf c then assign_score child p s
  else
    let off := leaf_node_count t in
    child_p ← offset_helper_get (prediction_buffer (statics s)) off child;
    b ← offset_helper_set (prediction_buffer (statics s)) off child
          (fmul child_p.1 p, child_p.2);
    child_p ← offset_helper_get b off child;
    b ← offset_helper_set b off child (child_p.1, fmul child_p.2 p);
    Normal (set_buffer b s).

(** The body of the second loop, for an internal node [n]. *)
Definition visit (t : min_depth_binary_tree) (n : tree_node) (s : run)
  : outcome run :=
  let off := leaf_node_count t in
  left_p ← offset_helper_get (prediction_buffer (statics s)) off (id n);
  s ← push_down t (left_id n) left_p.1 s;
  right_p ← offset_helper_get (prediction_buffer (statics s)) off (id n);
  push_down t (right_id n) right_p.2 s.

(** The second loop, over [t.nodes] from [rbegin()] to [rend()]: it
    stops at the first leaf. *)
Fixpoint propagate (t : min_depth_binary_tree) (rnodes : list tree_node)
    (s : run) : outcome run :=
  match rnodes with
  | [] => Normal s
  | n :: rnodes =>
    if is_leaf n then Normal s
    else s ← visit t n s; propagate t rnodes s
  end.

(** [const std::vector<float>& offset_tree::predict(base, ec)]: [tls] is
    [None] when the calling thread has not run [predict] before, and
    holds the statics as the previous call left them otherwise. The
    vector that is returned is [scores] of the final statics. *)
Definition predict (ot : offset_tree) (tls : option thread_local) (w : World)
  : outcome run :=
  tl ← init_statics ot tls;
  let t := binary_tree ot in
  let s := mk_run (mk_thread_local [] (resize (leaf_node_count t) f0 (scores tl)))
                  w [] [] in
  if bool_decide (leaf_node_count t = 0) then Normal s
  else if bool_decide (leaf_node_count t = 1) then assign_score 0 f1 s
  else
    s ← score_nodes (Z.to_nat (internal_node_count t)) 0 s;
    propagate t (reverse (nodes t)) s.

(** [void learn(offset_tree& tree, single_learner& base, example& ec)]:
    the tree, the statics and the world after the call, and how it
    ended. *)
Definition learn (tree : offset_tree) (tls : option thread_local) (w : World)
  : (offset_tree * option thread_local * World) * outcome () :=
  ((tree, tls, w), Throw (vw NotImplemented)).

End predict.


(** * Properties *)

(** [operator==] is equality of the four fields. *)
Lemma tree_node_eqb_eq a b : tree_node_eqb a b = true ↔ a = b.
Proof.
  destruct a as [i l r f], b as [i' l' r' f']. unfold tree_node_eqb. simpl.
  rewrite !andb_true_iff, !Z.eqb_eq, Bool.eqb_true_iff.
  split; [by intros [[[-> ->] ->] ->]|by intros [= -> -> -> ->]].
Qed.

(** ** The rounds of the tournament *)

(** The [while] loop, unfolded once. *)
Lemma rounds_step mem ns tournaments :
  rounds mem ns tournaments =
    if decide (1 < length tournaments)%nat then
      match allocate mem with
      | (false, _) => (ns, Throw bad_alloc)
      | (true, mem') =>
        match round ns tournaments with
        | Normal (ns', new_tournaments) => rounds mem' ns' new_tournaments
        | Throw e => (ns, Throw e)
        | Undefined => (ns, Undefined)
        end
      end
    else (ns, Normal tournaments).
Proof.
  rewrite rounds_equation_1. unfold rounds_unfold_clause_1.
  destruct (decide _); [|done]. simpl.
  unfold rounds_unfold_clause_1_clause_2.
  destruct (allocate mem) as [[] mem']; simpl; [|done].
  unfold rounds_unfold_clause_1_clause_2_clause_2.
  generalize (@eq_refl _ (round ns tournaments)).
  generalize (round ns tournaments) at 2 3 10 as o.
  by intros [[ns' new]| |] E.
Qed.

(** Induction on a list two elements at a time. *)
Lemma list_pair_ind {A : Type} (P : list A → Prop) :
  P [] → (∀ a, P [a]) → (∀ a b l, P l → P (a :: b :: l)) → ∀ l, P l.
Proof.
  intros H0 H1 H2.
  assert (∀ l, P l ∧ ∀ a, P (a :: l)) as H.
  { induction l as [|b l [IH1 IH2]]; split; auto. }
  intros l. apply H.
Qed.

(** The nodes a round creates from the candidates [tournaments], [i]
    being the identifier of the first one. *)
Fixpoint pair_up (i : Z) (tournaments : list Z) : list tree_node :=
  match tournaments with
  | a :: b :: rest => new_tree_node i a b false :: pair_up (i + 1) rest
  | _ => []
  end.

(** The candidate a round leaves unpaired, if there is one. *)
Fixpoint carry (tournaments : list Z) : list Z :=
  match tournaments with
  | a :: b :: rest => carry rest
  | _ => tournaments
  end.

Lemma at_index_app_r {A : Type} (pre l : list A) (i : Z) a :
  i = Z.of_nat (length pre) → l !! 0%nat = Some a →
  at_index (pre ++ l) i = Normal a.
Proof.
  intros -> Hl. unfold at_index.
  destruct l as [|a' l]; simplify_eq/=.
  rewrite bool_decide_eq_true_2; [|rewrite length_app; simpl; lia].
  rewrite Nat2Z.id, lookup_app_r, Nat.sub_diag; [done|lia].
Qed.

Lemma pair_up_length i tournaments :
  Z.of_nat (length (pair_up i tournaments)) = Z.of_nat (length tournaments) / 2.
Proof.
  revert i. induction tournaments as [|a|a b l IH] using list_pair_ind;
    intros i; try done.
  cbn [pair_up length]. rewrite Nat2Z.inj_succ, IH.
  replace (Z.of_nat (S (S (length l)))) with (Z.of_nat (length l) + 1 * 2) by lia.
  rewrite Z.div_add by done. lia.
Qed.

Lemma carry_length tournaments :
  Z.of_nat (length (carry tournaments)) = Z.of_nat (length tournaments) mod 2.
Proof.
  induction tournaments as [|a|a b l IH] using list_pair_ind; try done.
  cbn [carry length]. rewrite IH.
  replace (Z.of_nat (S (S (length l)))) with (Z.of_nat (length l) + 1 * 2) by lia.
  by rewrite Z.mod_add.
Qed.

Lemma play_pair pre a b rest j ns new_tournaments i :
  Z.of_nat (length pre) = 2 * j →
  play (pre ++ a :: b :: rest) j (ns, new_tournaments, i)
  = Normal (ns ++ [new_tree_node i a b false], new_tournaments ++ [uint32_t i], i + 1).
Proof.
  intros Hpre. unfold play.
  rewrite (at_index_app_r pre _ (2 * j) a) by (done || lia).
  replace (pre ++ a :: b :: rest) with ((pre ++ [a]) ++ b :: rest)
    by by rewrite <-app_assoc.
  rewrite (at_index_app_r _ _ (2 * j + 1) b); [done| |done].
  rewrite length_app. cbn [length]. lia.
Qed.

Lemma for_each_play rest : ∀ pre j ns new_tournaments i,
  Z.of_nat (length pre) = 2 * j →
  for_each (play (pre ++ rest)) (seqZ j (Z.of_nat (length rest) / 2))
           (ns, new_tournaments, i)
  = Normal (ns ++ pair_up i rest,
            new_tournaments ++ (id <$> pair_up i rest),
            i + Z.of_nat (length rest) / 2).
Proof.
  induction rest as [|a|a b rest IH] using list_pair_ind;
    intros pre j ns new i Hpre.
  - simpl. by rewrite !app_nil_r, Z.add_0_r.
  - simpl. by rewrite !app_nil_r, Z.add_0_r.
  - replace (Z.of_nat (length (a :: b :: rest)))
      with (Z.of_nat (length rest) + 1 * 2) by (simpl; lia).
    rewrite Z.div_add by done.
    assert (0 ≤ Z.of_nat (length rest) / 2) by (apply Z.div_pos; lia).
    rewrite seqZ_cons by lia.
    cbn [for_each]. rewrite play_pair by done.
    cbn [mbind outcome_bind].
    replace (pre ++ a :: b :: rest) with ((pre ++ [a; b]) ++ rest)
      by by rewrite <-app_assoc.
    replace (Z.succ j) with (j + 1) by lia.
    replace (Z.pred (Z.of_nat (length rest) / 2 + 1))
      with (Z.of_nat (length rest) / 2) by lia.
    rewrite IH by (rewrite length_app; cbn [length]; lia).
    cbn [pair_up fmap list_fmap id new_tree_node].
    rewrite <-!app_assoc. cbn [app]. do 2 f_equal. lia.
Qed.

Lemma back_cons a tournaments :
  tournaments ≠ [] → back (a :: tournaments) = back tournaments.
Proof.
  intros Hl. unfold back, at_index. destruct tournaments as [|c l]; [done|].
  rewrite !bool_decide_eq_true_2 by (cbn [length]; lia).
  by replace (Z.to_nat (Z.of_nat (length (a :: c :: l)) - 1))
    with (S (Z.to_nat (Z.of_nat (length (c :: l)) - 1))) by (cbn [length]; lia).
Qed.

Lemma back_carry tournaments :
  Z.of_nat (length tournaments) mod 2 = 1 →
  ∃ x, back tournaments = Normal x ∧ carry tournaments = [x].
Proof.
  induction tournaments as [|a|a b l IH] using list_pair_ind; try done.
  - intros _. by exists a.
  - cbn [carry length].
    replace (Z.of_nat (S (S (length l)))) with (Z.of_nat (length l) + 1 * 2) by lia.
    rewrite Z.mod_add by done. intros Hodd.
    destruct (IH Hodd) as (x & Hx & ->). exists x. split; [|done].
    destruct l as [|c l]; [done|].
    by rewrite !back_cons by done.
Qed.

(** A round always completes: it appends the nodes [pair_up] lists and
    leaves their identifiers, then the unpaired candidate. *)
Lemma round_spec ns tournaments :
  round ns tournaments =
    Normal (ns ++ pair_up (Z.of_nat (length ns)) tournaments,
            (id <$> pair_up (Z.of_nat (length ns)) tournaments) ++ carry tournaments).
Proof.
  unfold round.
  rewrite (for_each_play tournaments [] 0) by done.
  cbn [mbind outcome_bind app].
  destruct (Z.eqb_spec (Z.of_nat (length tournaments) mod 2) 1) as [Hodd|Heven].
  - destruct (back_carry _ Hodd) as (x & -> & ->). done.
  - pose proof (carry_length tournaments) as Hc.
    pose proof (Z.mod_pos_bound (Z.of_nat (length tournaments)) 2 eq_refl).
    destruct (carry tournaments); [by rewrite app_nil_r|simpl in Hc; lia].
Qed.

(** Induction along the rounds: the loop exits, or the [reserve] fails,
    or a round is played and the loop goes on from its result. *)
Lemma rounds_induction
    (P : heap → list tree_node → list Z → list tree_node * outcome (list Z) → Prop) :
  (∀ mem ns ts, (length ts ≤ 1)%nat → P mem ns ts (ns, Normal ts)) →
  (∀ mem mem' ns ts,
     (1 < length ts)%nat → allocate mem = (false, mem') →
     P mem ns ts (ns, Throw bad_alloc)) →
  (∀ mem mem' ns ts,
     (1 < length ts)%nat → allocate mem = (true, mem') →
     let ns' := ns ++ pair_up (Z.of_nat (length ns)) ts in
     let ts' := (id <$> pair_up (Z.of_nat (length ns)) ts) ++ carry ts in
     P mem' ns' ts' (rounds mem' ns' ts') → P mem ns ts (rounds mem' ns' ts')) →
  ∀ mem ns ts, P mem ns ts (rounds mem ns ts).
Proof.
  intros Hexit Hfail Hround mem ns ts.
  remember (length ts) as n eqn:Hn.
  revert mem ns ts Hn.
  induction n as [n IH] using lt_wf_ind; intros mem ns ts ->.
  rewrite rounds_step.
  destruct (decide _) as [Hlen|Hlen]; [|apply Hexit; lia].
  destruct (allocate mem) as [[] mem'] eqn:Hmem; [|by eapply Hfail].
  rewrite round_spec.
  eapply Hround; [done..|].
  eapply IH; [|done].
  pose proof (pair_up_length (Z.of_nat (length ns)) ts) as H1.
  pose proof (carry_length ts) as H2.
  rewrite length_app, length_fmap.
  pose proof (Z.div_mod (Z.of_nat (length ts)) 2 ltac:(lia)).
  pose proof (Z.mod_pos_bound (Z.of_nat (length ts)) 2 eq_refl).
  lia.
Qed.

(** The loop never runs into undefined behaviour and throws nothing but
    [std::bad_alloc]; it only appends to the node vector; left normally,
    it has appended one node for each candidate but one, and a single
    candidate remains. *)
Lemma rounds_outcome mem ns ts :
  ns `prefix_of` (rounds mem ns ts).1
  ∧ match (rounds mem ns ts).2 with
    | Normal ts' =>
        (ts ≠ [] → length ts' = 1%nat
                   ∧ length (rounds mem ns ts).1 = (length ns + length ts - 1)%nat)
    | Throw e => e = bad_alloc
    | Undefined => False
    end.
Proof.
  apply (rounds_induction (λ mem ns ts r,
    ns `prefix_of` r.1
    ∧ match r.2 with
      | Normal ts' =>
          (ts ≠ [] → length ts' = 1%nat
                     ∧ length r.1 = (length ns + length ts - 1)%nat)
      | Throw e => e = bad_alloc
      | Undefined => False
      end)); clear.
  - intros _ ns ts Hlen. split; [done|]. simpl. intros Hne.
    destruct ts; simpl in *; [done|lia].
  - intros _ _ ns ts _ _. done.
  - intros _ mem' ns ts Hlen _ ns' ts' [IH1 IH2]. split.
    + etrans; [|exact IH1]. by apply prefix_app_r.
    + destruct (rounds mem' ns' ts').2 as [ts''| |]; [|done..].
      intros _.
      pose proof (pair_up_length (Z.of_nat (length ns)) ts) as H1.
      pose proof (carry_length ts) as H2.
      pose proof (Z.div_mod (Z.of_nat (length ts)) 2 ltac:(lia)).
      pose proof (Z.mod_pos_bound (Z.of_nat (length ts)) 2 eq_refl).
      assert (ts' ≠ []) as Hne.
      { intros Hnil%(f_equal length). subst ts'.
        rewrite length_app, length_fmap in Hnil. simpl in Hnil. lia. }
      destruct (IH2 Hne) as [-> ->]. split; [done|].
      subst ns' ts'. rewrite !length_app, length_fmap. lia.
Qed.

(** ** The leaves *)

Definition leaf_nodes (k : Z) : list tree_node :=
  (λ i, new_tree_node i 0 0 true) <$> seqZ 0 k.

Lemma add_leaves_spec k ns :
  add_leaves k ns = (ns ++ leaf_nodes k, uint32_t <$> seqZ 0 k).
Proof.
  unfold add_leaves, leaf_nodes.
  assert (∀ l ns ts,
    foldl (λ '(ns, tournaments) i,
             (ns ++ [new_tree_node i 0 0 true], tournaments ++ [uint32_t i]))
          (ns, ts) l
    = (ns ++ ((λ i, new_tree_node i 0 0 true) <$> l), ts ++ (uint32_t <$> l))) as H.
  { induction l as [|i l IH]; intros ns' ts; simpl.
    - by rewrite !app_nil_r.
    - by rewrite IH, <-!app_assoc. }
  apply H.
Qed.

Lemma at_index_0 {A : Type} (a : A) (l : list A) : at_index (a :: l) 0 = Normal a.
Proof. unfold at_index. by rewrite bool_decide_eq_true_2 by (simpl; lia). Qed.

(** The candidates of the first round are there. *)
Lemma seqZ_uint32_nonempty k : 0 < k → uint32_t <$> seqZ 0 k ≠ [].
Proof.
  intros Hk Hnil%(f_equal length).
  rewrite length_fmap, length_seqZ in Hnil. simpl in Hnil. lia.
Qed.

(** ** How [build_tree] can end *)

(** The [try] block ends normally or with [std::bad_alloc]; it leaves
    the flag, the leaf count and, unless it ends normally, the root
    alone, and only appends to the node vector. *)
Lemma try_block_outcome mem t :
  0 < _num_leaf_nodes t →
  let r := try_block mem t in
  nodes t `prefix_of` nodes r.1
  ∧ _num_leaf_nodes r.1 = _num_leaf_nodes t
  ∧ _initialized r.1 = _initialized t
  ∧ match r.2 with
    | Normal _ =>
        length (nodes r.1)
        = (length (nodes t) + 2 * Z.to_nat (_num_leaf_nodes t) - 1)%nat
    | Throw e => e = bad_alloc ∧ root_idx r.1 = root_idx t
    | Undefined => False
    end.
Proof.
  intros Hk. unfold try_block.
  destruct (allocate mem) as [[] mem1]; [|done].
  destruct (allocate mem1) as [[] mem2]; [|done].
  rewrite add_leaves_spec.
  pose proof (rounds_outcome mem2 (nodes t ++ leaf_nodes (_num_leaf_nodes t))
                (uint32_t <$> seqZ 0 (_num_leaf_nodes t))) as [Hpre Hout].
  destruct (rounds _ _ _) as [ns o]. simpl in Hpre, Hout.
  assert (nodes t `prefix_of` ns) as Hpre'.
  { etrans; [|exact Hpre]. by apply prefix_app_r. }
  destruct o as [ts'|e|]; [|done..].
  destruct Hout as [Hlen Hns].
  { intros Hnil%(f_equal length).
    rewrite length_fmap, length_seqZ in Hnil. simpl in Hnil. lia. }
  destruct ts' as [|root [|]]; try done.
  rewrite at_index_0. simpl. repeat split; [done|].
  rewrite Hns. unfold leaf_nodes.
  rewrite length_app, !length_fmap, length_seqZ. lia.
Qed.

(** [build_tree] ends normally, with the tree initialised for [k]
    leaves; or with the conflict error, the tree untouched; or with the
    memory error, in which case the tree is still not initialised but
    holds the new leaf count and the nodes appended so far. *)
Lemma build_tree_outcome k mem t :
  0 ≤ k →
  let r := build_tree k mem t in
  match r.2 with
  | Normal _ =>
      _initialized r.1 = true ∧ _num_leaf_nodes r.1 = k
      ∧ (_initialized t = true → r.1 = t)
  | Throw (vw (ConfigurationConflict a b)) =>
      _initialized t = true ∧ k ≠ _num_leaf_nodes t
      ∧ a = k ∧ b = _num_leaf_nodes t ∧ r.1 = t
  | Throw (vw (OutOfMemory n)) =>
      _initialized t = false ∧ k ≠ 0 ∧ n = k
      ∧ _initialized r.1 = false ∧ _num_leaf_nodes r.1 = k
      ∧ root_idx r.1 = root_idx t ∧ nodes t `prefix_of` nodes r.1
  | _ => False
  end.
Proof.
  intros Hk. unfold build_tree.
  destruct (_initialized t) eqn:Hinit.
  { case_bool_decide as Hne; simpl; done. }
  cbn [_num_leaf_nodes nodes root_idx _initialized].
  case_bool_decide as Hz; [done|].
  pose proof (try_block_outcome mem (mk_tree (nodes t) (root_idx t) k false))
    as H.
  cbn [_num_leaf_nodes nodes root_idx _initialized] in H.
  destruct H as (Hpre & Hnum & Hflag & Hout); [lia|].
  destruct (try_block _ _) as [t' o]. simpl in *.
  destruct o as [[]|e|]; simpl; [done| |done].
  destruct Hout as [-> Hroot]. done.
Qed.

(** When no allocation fails the loop is left normally. *)
Lemma rounds_no_failure ns ts : ∃ ts', (rounds [] ns ts).2 = Normal ts'.
Proof.
  apply (rounds_induction (λ mem ns ts r, mem = [] → ∃ ts', r.2 = Normal ts'));
    [..|done]; clear.
  - intros _ ns ts _ _. by eexists.
  - by intros _ mem' ns ts _ Hmem ->.
  - intros _ mem' ns ts _ Hmem ns' ts' IH ->. apply IH. by simplify_eq/=.
Qed.

Lemma try_block_no_failure t :
  0 < _num_leaf_nodes t → (try_block [] t).2 = Normal ().
Proof.
  intros Hk. unfold try_block. simpl. rewrite add_leaves_spec.
  destruct (rounds_no_failure (nodes t ++ leaf_nodes (_num_leaf_nodes t))
              (uint32_t <$> seqZ 0 (_num_leaf_nodes t))) as [ts' Hts'].
  pose proof (rounds_outcome [] (nodes t ++ leaf_nodes (_num_leaf_nodes t))
                (uint32_t <$> seqZ 0 (_num_leaf_nodes t))) as [_ Hout].
  destruct (rounds _ _ _) as [ns o]. simpl in Hts', Hout. subst o.
  destruct Hout as [Hlen _].
  { intros Hnil%(f_equal length).
    rewrite length_fmap, length_seqZ in Hnil. simpl in Hnil. lia. }
  destruct ts' as [|root [|]]; try done.
Qed.

(** On a new tree, when no allocation fails, [build_tree] returns. *)
Lemma build_returns k :
  0 ≤ k → (build_tree k [] new_tree).2 = Normal ().
Proof.
  intros Hk. unfold build_tree, new_tree. simpl.
  case_bool_decide as Hz; [done|].
  pose proof (try_block_no_failure (mk_tree [] 0 k false)) as Hout.
  simpl in Hout.
  destruct (try_block _ _) as [t' o]; simpl in *. by rewrite Hout by lia.
Qed.

(** ** Building twice *)

(** C6. For every leaf count [k], [build_tree k] returns on a new tree,
    and wherever a call [build_tree k] has returned, a second call with
    the same [k] returns too and leaves the tree as the first call left
    it, whatever the allocator does. *)
Theorem build_tree_idempotent k mem t mem' :
  0 ≤ k < 2 ^ 32 →
  (build_tree k mem t).2 = Normal () →
  (build_tree k [] new_tree).2 = Normal ()
  ∧ build_tree k mem' (build_tree k mem t).1 = ((build_tree k mem t).1, Normal ()).
Proof.
  intros [Hk _] Hret. split; [by apply build_returns|].
  pose proof (build_tree_outcome k mem t Hk) as H. simpl in H.
  rewrite Hret in H. destruct H as (Hinit & Hnum & _).
  unfold build_tree at 1. rewrite Hinit, Hnum.
  by rewrite bool_decide_eq_false_2 by (by intros []).
Qed.

Lemma build_tree_idempotent_witness :
  (build_tree 3 [] new_tree).2 = Normal ()
  ∧ build_tree 3 [false] (build_tree 3 [] new_tree).1
    = ((build_tree 3 [] new_tree).1, Normal ()).
Proof. apply (build_tree_idempotent 3 [] new_tree [false]); [lia|reflexivity]. Defined.

(** C7. Wherever a call [build_tree k] has returned, a call with another
    leaf count [k2] throws the conflict error (and leaves the tree as it
    was). *)
Theorem build_tree_conflict k k2 mem t mem' :
  0 ≤ k < 2 ^ 32 → 0 ≤ k2 < 2 ^ 32 → k2 ≠ k →
  (build_tree k mem t).2 = Normal () →
  build_tree k2 mem' (build_tree k mem t).1
  = ((build_tree k mem t).1, Throw (vw (ConfigurationConflict k2 k))).
Proof.
  intros [Hk _] _ Hne Hret.
  pose proof (build_tree_outcome k mem t Hk) as H. simpl in H.
  rewrite Hret in H. destruct H as (Hinit & Hnum & _).
  unfold build_tree at 1. rewrite Hinit, Hnum.
  by rewrite bool_decide_eq_true_2.
Qed.

Lemma build_tree_conflict_witness :
  build_tree 4 [] (build_tree 3 [] new_tree).1
  = ((build_tree 3 [] new_tree).1, Throw (vw (ConfigurationConflict 4 3))).
Proof.
  apply (build_tree_conflict 3 4 [] new_tree []); [lia|lia|lia|reflexivity].
Defined.

(** ** A build that fails *)


(** What a failing build does leave as it was is stated below, on the
    model that keeps the capacity of the vectors: it holds whatever the
    tree and its vector hold when the call starts. *)

(** ** Learning *)

(** C9. [learn] throws the not-implemented error whatever it is given,
    and the tree, the statics and the world are after the call what they
    were before it. *)
Theorem learn_not_implemented {float World : Type} (tree : offset_tree)
    (tls : option (@thread_local float)) (w : World) :
  learn tree tls w = ((tree, tls, w), Throw (vw NotImplemented)).
Proof. reflexivity. Qed.

(** ** The tree as a term

    The node vector stores a binary tree by identifiers. For the proofs
    the same tree is read as a term: a candidate of a round is the root
    of one, and a round pairs the terms as it pairs the candidates. *)

Inductive btree : Type :=
| Leaf (i : Z)
| Node (n : Z) (l r : btree).

Definition root_of (T : btree) : Z :=
  match T with Leaf i => i | Node n _ _ => n end.

(** The record the vector holds for the root of [T]. *)
Definition node_of (T : btree) : tree_node :=
  match T with
  | Leaf i => mk_node i 0 0 true
  | Node n l r => mk_node n (root_of l) (root_of r) false
  end.

Fixpoint ids (T : btree) : list Z :=
  match T with
  | Leaf i => [i]
  | Node n l r => n :: ids l ++ ids r
  end.

Fixpoint height (T : btree) : Z :=
  match T with
  | Leaf _ => 0
  | Node _ l r => 1 + height l `max` height r
  end.

(** [ns] holds the record of every node of [T] at the node's identifier. *)
Fixpoint stored (ns : list tree_node) (T : btree) : Prop :=
  0 ≤ root_of T ∧ ns !! Z.to_nat (root_of T) = Some (node_of T)
  ∧ match T with
    | Leaf _ => True
    | Node _ l r => stored ns l ∧ stored ns r
    end.

(** The leaves of [T] lie below [k], its internal nodes do not, and a
    node lies above its children. *)
Fixpoint ordered (k : Z) (T : btree) : Prop :=
  match T with
  | Leaf i => 0 ≤ i < k
  | Node n l r =>
      k ≤ n ∧ root_of l < n ∧ root_of r < n ∧ ordered k l ∧ ordered k r
  end.

(** A round on terms. *)
Fixpoint pair_trees (i : Z) (F : list btree) : list btree :=
  match F with
  | a :: b :: rest => Node i a b :: pair_trees (i + 1) rest
  | _ => F
  end.

Lemma uint32_t_small z : 0 ≤ z < 2 ^ 32 → uint32_t z = z.
Proof. intros. unfold uint32_t. by apply Z.mod_small. Qed.

Lemma stored_mono ns ns' T : ns `prefix_of` ns' → stored ns T → stored ns' T.
Proof.
  intros Hpre. induction T as [i|n l IHl r IHr]; simpl.
  - intros (? & Hi & _). repeat split; [done|]. by eapply prefix_lookup_Some.
  - intros (? & Hn & Hl & Hr). repeat split; auto. by eapply prefix_lookup_Some.
Qed.

Lemma ordered_root k T : ordered k T → 0 ≤ k → 0 ≤ root_of T.
Proof. destruct T; simpl; lia. Qed.

Lemma pair_trees_roots F : ∀ i,
  0 ≤ i → i + Z.of_nat (length F) / 2 ≤ 2 ^ 32 →
  (id <$> pair_up i (root_of <$> F)) ++ carry (root_of <$> F)
  = root_of <$> pair_trees i F.
Proof.
  induction F as [|a|a b F IH] using list_pair_ind; intros i Hi Hlen; try done.
  revert Hlen. cbn [length].
  replace (Z.of_nat (S (S (length F)))) with (Z.of_nat (length F) + 1 * 2) by lia.
  rewrite Z.div_add by done. intros Hlen.
  assert (0 ≤ Z.of_nat (length F) / 2) by (apply Z.div_pos; lia).
  cbn [fmap list_fmap pair_up carry pair_trees app root_of id new_tree_node].
  rewrite uint32_t_small by lia. f_equal. apply IH; lia.
Qed.

Lemma pair_trees_stored ns F : ∀ i pre,
  i = Z.of_nat (length (ns ++ pre)) →
  i + Z.of_nat (length F) / 2 ≤ 2 ^ 32 →
  Forall (stored ns) F →
  Forall (λ T, 0 ≤ root_of T < 2 ^ 32) F →
  Forall (stored (ns ++ pre ++ pair_up i (root_of <$> F))) (pair_trees i F).
Proof.
  induction F as [|a|a b F IH] using list_pair_ind;
    intros i pre Hi Hlen Hst Hroots.
  - done.
  - apply Forall_singleton. apply Forall_inv in Hst.
    apply (stored_mono ns); [by apply prefix_app_r|done].
  - revert Hlen. cbn [length].
    replace (Z.of_nat (S (S (length F)))) with (Z.of_nat (length F) + 1 * 2) by lia.
    rewrite Z.div_add by done. intros Hlen.
    assert (0 ≤ Z.of_nat (length F) / 2) by (apply Z.div_pos; lia).
    apply Forall_cons_1 in Hst as [Ha Hst]. apply Forall_cons_1 in Hst as [Hb Hst].
    apply Forall_cons_1 in Hroots as [Hra Hroots].
    apply Forall_cons_1 in Hroots as [Hrb Hroots].
    cbn [fmap list_fmap pair_up pair_trees].
    constructor.
    + cbn [stored root_of node_of]. split; [lia|]. split; [|split].
      * rewrite app_assoc, lookup_app_r by lia.
        replace (Z.to_nat i - length (ns ++ pre))%nat with 0%nat by lia.
        simpl. unfold new_tree_node. by rewrite !uint32_t_small by lia.
      * apply (stored_mono ns); [by apply prefix_app_r|done].
      * apply (stored_mono ns); [by apply prefix_app_r|done].
    + specialize (IH (i + 1) (pre ++ [new_tree_node i (root_of a) (root_of b) false])).
      rewrite <-app_assoc in IH. apply IH; [|lia|done..].
      rewrite !length_app in *. simpl. lia.
Qed.

Lemma pair_trees_ordered k F : ∀ i,
  k ≤ i →
  Forall (ordered k) F →
  Forall (λ T, root_of T < i) F →
  Forall (ordered k) (pair_trees i F).
Proof.
  induction F as [|a|a b F IH] using list_pair_ind; intros i Hi Hord Hroots;
    try done.
  apply Forall_cons_1 in Hord as [Ha Hord]. apply Forall_cons_1 in Hord as [Hb Hord].
  apply Forall_cons_1 in Hroots as [Hra Hroots].
  apply Forall_cons_1 in Hroots as [Hrb Hroots].
  cbn [pair_trees]. constructor; [by cbn [ordered]|].
  apply IH; [lia|done|]. eapply Forall_impl; [|exact Hroots]. simpl. intros. lia.
Qed.

Lemma pair_trees_ids F : ∀ i,
  pair_trees i F ≫= ids ≡ₚ (F ≫= ids) ++ seqZ i (Z.of_nat (length F) / 2).
Proof.
  induction F as [|a|a b F IH] using list_pair_ind; intros i.
  - done.
  - simpl. by rewrite !app_nil_r.
  - cbn [length].
    replace (Z.of_nat (S (S (length F)))) with (Z.of_nat (length F) + 1 * 2) by lia.
    rewrite Z.div_add by done.
    assert (0 ≤ Z.of_nat (length F) / 2) by (apply Z.div_pos; lia).
    rewrite seqZ_cons by lia.
    replace (Z.succ i) with (i + 1) by lia.
    replace (Z.pred (Z.of_nat (length F) / 2 + 1))
      with (Z.of_nat (length F) / 2) by lia.
    cbn [pair_trees mbind list_bind ids]. rewrite IH.
    rewrite <-!app_assoc. cbn [app].
    rewrite <-!Permutation_middle. by rewrite <-!app_assoc.
Qed.

Lemma pair_trees_length F i :
  Z.of_nat (length (pair_trees i F))
  = Z.of_nat (length F) / 2 + Z.of_nat (length F) mod 2.
Proof.
  revert i. induction F as [|a|a b F IH] using list_pair_ind; intros i; try done.
  cbn [pair_trees length]. rewrite Nat2Z.inj_succ, IH.
  replace (Z.of_nat (S (S (length F)))) with (Z.of_nat (length F) + 1 * 2) by lia.
  rewrite Z.div_add, Z.mod_add by done. lia.
Qed.

Lemma pair_trees_height F : ∀ i h,
  (1 < length F)%nat →
  Forall (λ T, height T ≤ h) F →
  (∀ T, head F = Some T → height T = h) →
  Forall (λ T, height T ≤ h + 1) (pair_trees i F)
  ∧ (∀ T, head (pair_trees i F) = Some T → height T = h + 1).
Proof.
  assert (∀ F i h, Forall (λ T, height T ≤ h) F →
            Forall (λ T, height T ≤ h + 1) (pair_trees i F)) as Hall.
  { clear F. intros F.
    induction F as [|a|a b F IH] using list_pair_ind; intros i h HF.
    - constructor.
    - apply Forall_inv in HF. apply Forall_singleton. lia.
    - apply Forall_cons_1 in HF as [Ha HF]. apply Forall_cons_1 in HF as [Hb HF].
      cbn [pair_trees]. constructor; [cbn [height]; lia|]. by apply IH. }
  intros i h Hlen HF Hhead. split; [by apply Hall|].
  destruct F as [|a [|b F]]; simpl in Hlen; try lia.
  apply Forall_cons_1 in HF as [Ha HF]. apply Forall_cons_1 in HF as [Hb HF].
  specialize (Hhead a eq_refl).
  cbn [pair_trees head]. intros T [= <-]. cbn [height]. lia.
Qed.

Lemma log2_up_half n : 2 ≤ n → Z.log2_up (n / 2 + n mod 2) + 1 = Z.log2_up n.
Proof.
  intros Hn.
  pose proof (Z.div_mod n 2 ltac:(lia)) as Hdm.
  pose proof (Z.mod_pos_bound n 2 eq_refl) as Hm.
  rewrite (Z.log2_up_eqn n) by lia.
  destruct (Z.eq_dec (n / 2 + n mod 2) 1) as [He|Hc].
  - rewrite He. by assert (n = 2) as -> by lia.
  - rewrite Z.log2_up_eqn by lia.
    assert (n mod 2 = 0 ∨ n mod 2 = 1) as [H0|H1] by lia.
    + replace (Z.pred n) with (2 * (n / 2 - 1) + 1) by lia.
      rewrite Z.log2_succ_double by lia.
      replace (Z.pred (n / 2 + n mod 2)) with (n / 2 - 1) by lia. lia.
    + replace (Z.pred n) with (2 * (n / 2)) by lia.
      rewrite Z.log2_double by lia.
      replace (Z.pred (n / 2 + n mod 2)) with (n / 2) by lia. lia.
Qed.

Lemma root_in_ids T : root_of T ∈ ids T.
Proof. destruct T; simpl; constructor. Qed.

(** A loop-invariant rule for the rounds. *)
Lemma rounds_invariant (Inv : list tree_node → list Z → Prop) mem ns ts ts' :
  Inv ns ts →
  (∀ ns ts, (1 < length ts)%nat → Inv ns ts →
     Inv (ns ++ pair_up (Z.of_nat (length ns)) ts)
         ((id <$> pair_up (Z.of_nat (length ns)) ts) ++ carry ts)) →
  (rounds mem ns ts).2 = Normal ts' →
  Inv (rounds mem ns ts).1 ts' ∧ (length ts' ≤ 1)%nat.
Proof.
  intros HInv Hstep. revert ts' HInv.
  apply (rounds_induction (λ mem ns ts r, ∀ ts',
    Inv ns ts → r.2 = Normal ts' → Inv r.1 ts' ∧ (length ts' ≤ 1)%nat)); clear mem ns ts.
  - intros _ ns ts Hlen ts' HInv [= <-]. done.
  - done.
  - intros _ mem' ns ts Hlen _ ns' ts' IH ts'' HInv Hret.
    apply IH; [|done]. by apply Hstep.
Qed.

(** The invariant of the rounds while identifiers do not wrap: the
    candidates are the roots of a forest [F] that the node vector
    stores, whose nodes are the identifiers in use; [r] rounds have been
    played. *)
Record forest (k : Z) (r : Z) (F : list btree)
    (ns : list tree_node) (ts : list Z) : Prop := {
  forest_roots : ts = root_of <$> F;
  forest_stored : Forall (stored ns) F;
  forest_ordered : Forall (ordered k) F;
  forest_ids : F ≫= ids ≡ₚ seqZ 0 (Z.of_nat (length ns));
  forest_leaves : k ≤ Z.of_nat (length ns);
  forest_size : Z.of_nat (length ns) + Z.of_nat (length F) = 2 * k;
  forest_height : Forall (λ T, height T ≤ r) F;
  forest_head : ∀ T, head F = Some T → height T = r;
  forest_rounds : r + Z.log2_up (Z.of_nat (length F)) = Z.log2_up k
}.

Lemma forest_root_bound k r F ns ts T :
  forest k r F ns ts → T ∈ F → 0 ≤ root_of T < Z.of_nat (length ns).
Proof.
  intros HF HT.
  assert (root_of T ∈ seqZ 0 (Z.of_nat (length ns))) as Hin.
  { rewrite <-(forest_ids _ _ _ _ _ HF). apply list_elem_of_bind.
    exists T. split; [apply root_in_ids|done]. }
  apply elem_of_seqZ in Hin. lia.
Qed.

Lemma forest_round k r F ns ts :
  1 ≤ k ≤ 2 ^ 31 →
  (1 < length ts)%nat →
  forest k r F ns ts →
  forest k (r + 1) (pair_trees (Z.of_nat (length ns)) F)
         (ns ++ pair_up (Z.of_nat (length ns)) ts)
         ((id <$> pair_up (Z.of_nat (length ns)) ts) ++ carry ts).
Proof.
  intros Hk Hlen HF.
  pose proof (forest_roots _ _ _ _ _ HF) as ->.
  rewrite length_fmap in Hlen.
  pose proof (forest_size _ _ _ _ _ HF) as Hsize.
  pose proof (pair_up_length (Z.of_nat (length ns)) (root_of <$> F)) as Hpl.
  rewrite length_fmap in Hpl.
  pose proof (Z.div_mod (Z.of_nat (length F)) 2 ltac:(lia)) as Hdm.
  pose proof (Z.mod_pos_bound (Z.of_nat (length F)) 2 eq_refl) as Hm.
  assert (Forall (λ T, 0 ≤ root_of T < Z.of_nat (length ns)) F) as Hroots.
  { apply list.Forall_forall. intros T HT.
    by apply (forest_root_bound _ _ _ _ _ _ HF). }
  pose proof (pair_trees_height F (Z.of_nat (length ns)) r Hlen
                (forest_height _ _ _ _ _ HF) (forest_head _ _ _ _ _ HF))
    as [Hh1 Hh2].
  split.
  - apply pair_trees_roots; lia.
  - pose proof (pair_trees_stored ns F (Z.of_nat (length ns)) []) as Hst.
    rewrite app_nil_r in Hst. apply Hst; [done|lia|apply HF|].
    eapply Forall_impl; [|exact Hroots]. simpl. intros. lia.
  - apply pair_trees_ordered; [apply HF..|].
    eapply Forall_impl; [|exact Hroots]. simpl. intros. lia.
  - rewrite pair_trees_ids, (forest_ids _ _ _ _ _ HF).
    rewrite length_app, Nat2Z.inj_add, Hpl.
    rewrite (seqZ_app 0 (Z.of_nat (length ns))); [done|lia|lia].
  - rewrite length_app. pose proof (forest_leaves _ _ _ _ _ HF). lia.
  - rewrite length_app, Nat2Z.inj_add, Hpl, pair_trees_length. lia.
  - done.
  - done.
  - rewrite pair_trees_length.
    pose proof (log2_up_half (Z.of_nat (length F)) ltac:(lia)).
    pose proof (forest_rounds _ _ _ _ _ HF). lia.
Qed.

Lemma leaf_nodes_lookup k (i : nat) :
  Z.of_nat i < k → leaf_nodes k !! i = Some (new_tree_node (Z.of_nat i) 0 0 true).
Proof.
  intros Hi. unfold leaf_nodes.
  by rewrite list_lookup_fmap, lookup_seqZ_lt by lia.
Qed.

Lemma leaf_nodes_length k : 0 ≤ k → Z.of_nat (length (leaf_nodes k)) = k.
Proof. intros. unfold leaf_nodes. rewrite length_fmap, length_seqZ. lia. Qed.

(** Before the first round the forest is the row of leaves. *)
Lemma leaves_forest k :
  1 ≤ k ≤ 2 ^ 31 →
  forest k 0 (Leaf <$> seqZ 0 k) (leaf_nodes k) (uint32_t <$> seqZ 0 k).
Proof.
  intros Hk.
  pose proof (leaf_nodes_length k ltac:(lia)) as Hlen.
  split.
  - rewrite <-list_fmap_compose. apply list_fmap_ext.
    intros j i [-> Hj]%lookup_seqZ. simpl. apply uint32_t_small. lia.
  - apply list.Forall_forall. intros T (i & -> & Hi%elem_of_seqZ)%list_elem_of_fmap.
    simpl. split; [lia|]. split; [|done].
    replace i with (Z.of_nat (Z.to_nat i)) at 2 by lia.
    rewrite leaf_nodes_lookup by lia. unfold new_tree_node.
    rewrite Z2Nat.id, uint32_t_small by lia. done.
  - apply list.Forall_forall. intros T (i & -> & Hi%elem_of_seqZ)%list_elem_of_fmap.
    simpl. lia.
  - rewrite Hlen.
    assert (∀ l, (Leaf <$> l) ≫= ids = l) as ->; [|done].
    induction l as [|i l IH]; simpl; [done|]. by f_equal.
  - lia.
  - rewrite length_fmap, length_seqZ. lia.
  - apply list.Forall_forall. by intros T (i & -> & _)%list_elem_of_fmap.
  - intros T HT%head_Some_elem_of. by apply list_elem_of_fmap in HT as (i & -> & _).
  - rewrite length_fmap, length_seqZ, Z2Nat.id by lia. lia.
Qed.

(** What [build_tree] leaves on a new tree of [k] leaves: the node vector
    stores a term [T] whose nodes are the identifiers [0 .. 2k-2], leaves
    below [k], every node above its children. *)
Record shape (k : Z) (t : min_depth_binary_tree) (T : btree) : Prop := {
  shape_leaf_count : _num_leaf_nodes t = k;
  shape_initialized : _initialized t = true;
  shape_root : root_idx t = root_of T;
  shape_stored : stored (nodes t) T;
  shape_ordered : ordered k T;
  shape_ids : ids T ≡ₚ seqZ 0 (2 * k - 1);
  shape_length : Z.of_nat (length (nodes t)) = 2 * k - 1;
  shape_height : height T = Z.log2_up k
}.

Lemma build_shape k : 1 ≤ k ≤ 2 ^ 31 → ∃ T, shape k (build k) T.
Proof.
  intros Hk. unfold build, build_tree, new_tree. simpl.
  rewrite bool_decide_eq_false_2 by lia.
  unfold try_block. simpl. rewrite add_leaves_spec. simpl.
  destruct (rounds_no_failure (leaf_nodes k) (uint32_t <$> seqZ 0 k)) as [ts' Hret].
  pose proof (rounds_outcome [] (leaf_nodes k) (uint32_t <$> seqZ 0 k)) as [_ Hout].
  rewrite Hret in Hout. destruct Hout as [Hlen _].
  { intros Hnil%(f_equal length).
    rewrite length_fmap, length_seqZ in Hnil. simpl in Hnil. lia. }
  pose proof (rounds_invariant (λ ns ts, ∃ F r, forest k r F ns ts) []
                (leaf_nodes k) (uint32_t <$> seqZ 0 k) ts') as [(F & r & HF) _];
    [by eexists _, _; apply leaves_forest
    |by intros ns ts ? (F & r & HF); eexists _, _; apply forest_round
    |done|].
  destruct (rounds _ _ _) as [ns o]. simpl in *. subst o.
  destruct ts' as [|root [|]]; try done. rewrite at_index_0. simpl.
  pose proof (forest_roots _ _ _ _ _ HF) as Hroots.
  destruct F as [|T [|]]; try done. simplify_eq/=.
  pose proof (forest_size _ _ _ _ _ HF) as Hsize. simpl in Hsize.
  exists T. split; simpl; try done.
  - by apply (Forall_inv (forest_stored _ _ _ _ _ HF)).
  - by apply (Forall_inv (forest_ordered _ _ _ _ _ HF)).
  - pose proof (forest_ids _ _ _ _ _ HF) as Hids. simpl in Hids.
    rewrite app_nil_r in Hids. rewrite Hids. f_equiv. lia.
  - lia.
  - pose proof (forest_head _ _ _ _ _ HF T eq_refl).
    pose proof (forest_rounds _ _ _ _ _ HF) as Hr. cbn [length] in Hr.
    change (Z.of_nat 1) with 1 in Hr. rewrite Z.log2_up_1 in Hr. lia.
Qed.

(** ** Paths *)

Inductive side : Type := to_left | to_right.

#[global] Instance side_eq_dec : EqDecision side.
Proof. solve_decision. Defined.

(** The child of a node on a side, and the share of a pair on it. *)
Definition child (n : tree_node) (s : side) : Z :=
  match s with to_left => left_id n | to_right => right_id n end.

Definition share {A : Type} (p : A * A) (s : side) : A :=
  match s with to_left => p.1 | to_right => p.2 end.

(** [path ns a bs c]: in the node vector [ns], going down from node [a],
    at each internal node to the child on the side listed, along the
    branches [bs] (each one the node left and the side taken), ends at
    node [c]. *)
Inductive path (ns : list tree_node) : Z → list (Z * side) → Z → Prop :=
| path_nil a : path ns a [] a
| path_cons a n s bs c :
    at_index ns a = Normal n → is_leaf n = false →
    path ns (child n s) bs c →
    path ns a ((a, s) :: bs) c.

(** [c] is a leaf of the node vector. *)
Definition leaf_at (ns : list tree_node) (c : Z) : Prop :=
  ∃ n, at_index ns c = Normal n ∧ is_leaf n = true.

Definition pick (s : side) (l r : btree) : btree :=
  match s with to_left => l | to_right => r end.

(** The subterm of [T] that the branches [bs] lead to. *)
Fixpoint subtree_at (T : btree) (bs : list (Z * side)) {struct bs}
  : option btree :=
  match bs with
  | [] => Some T
  | (a, s) :: bs =>
    match T with
    | Node n l r => if decide (a = n) then subtree_at (pick s l r) bs else None
    | Leaf _ => None
    end
  end.

Lemma at_index_Normal {A : Type} (v : list A) (i : Z) (a : A) :
  at_index v i = Normal a ↔ 0 ≤ i ∧ v !! Z.to_nat i = Some a.
Proof.
  unfold at_index. case_bool_decide as Hi.
  - destruct (v !! Z.to_nat i) eqn:E.
    + split; [intros [= <-]; split; [lia|done]|by intros [_ [= <-]]].
    + split; [done|by intros [_ ?]].
  - split; [done|]. intros [? Hl]. apply lookup_lt_Some in Hl. lia.
Qed.

Lemma stored_root ns T :
  stored ns T → at_index ns (root_of T) = Normal (node_of T).
Proof. intros HT. apply at_index_Normal. destruct T; naive_solver. Qed.

Lemma stored_pick ns n l r s :
  stored ns (Node n l r) → stored ns (pick s l r).
Proof. destruct s; simpl; naive_solver. Qed.

Lemma ordered_pick k n l r s :
  ordered k (Node n l r) → ordered k (pick s l r) ∧ root_of (pick s l r) < n.
Proof. destruct s; simpl; naive_solver. Qed.

Lemma child_node_of n l r s :
  child (node_of (Node n l r)) s = root_of (pick s l r).
Proof. by destruct s. Qed.

Lemma subtree_at_stored ns T bs S :
  stored ns T → subtree_at T bs = Some S → stored ns S.
Proof.
  revert T. induction bs as [|[a s] bs IH]; intros T HT; simpl.
  - by intros [= <-].
  - destruct T as [i|n l r]; [done|]. case_decide; [|done].
    apply IH. by eapply stored_pick.
Qed.

Lemma subtree_at_ordered k T bs S :
  ordered k T → subtree_at T bs = Some S → ordered k S.
Proof.
  revert T. induction bs as [|[a s] bs IH]; intros T HT; simpl.
  - by intros [= <-].
  - destruct T as [i|n l r]; [done|]. case_decide; [|done].
    apply IH. by eapply ordered_pick.
Qed.

Lemma subtree_at_ids T bs S :
  subtree_at T bs = Some S → ids S ⊆ ids T.
Proof.
  revert T. induction bs as [|[a s] bs IH]; intros T; simpl.
  - by intros [= <-].
  - destruct T as [i|n l r]; [done|]. case_decide; [|done].
    intros HS%IH x Hx%HS. simpl.
    apply elem_of_cons. right. apply elem_of_app. destruct s; auto.
Qed.

Lemma subtree_at_snoc T bs a s S :
  subtree_at T (bs ++ [(a, s)]) = Some S ↔
  ∃ l r, subtree_at T bs = Some (Node a l r) ∧ S = pick s l r.
Proof.
  revert T. induction bs as [|[a' s'] bs IH]; intros T; simpl.
  - destruct T as [i|n l r]; [naive_solver|].
    case_decide; naive_solver.
  - destruct T as [i|n l r]; [naive_solver|].
    case_decide; [|naive_solver]. apply IH.
Qed.

(** Every node of [T] is where some branches lead. *)
Lemma subtree_at_cover T c :
  c ∈ ids T → ∃ bs S, subtree_at T bs = Some S ∧ root_of S = c.
Proof.
  induction T as [i|n l IHl r IHr]; simpl.
  - intros ->%list_elem_of_singleton. by exists [], (Leaf i).
  - intros [->|[Hc|Hc]%elem_of_app]%elem_of_cons.
    + by exists [], (Node n l r).
    + destruct (IHl Hc) as (bs & S & HS & <-).
      exists ((n, to_left) :: bs), S. simpl. by rewrite decide_True.
    + destruct (IHr Hc) as (bs & S & HS & <-).
      exists ((n, to_right) :: bs), S. simpl. by rewrite decide_True.
Qed.

(** When no identifier occurs twice in [T], a node is where exactly one
    list of branches leads. *)
Lemma subtree_at_unique T bs bs' S S' :
  NoDup (ids T) →
  subtree_at T bs = Some S → subtree_at T bs' = Some S' →
  root_of S = root_of S' → bs = bs'.
Proof.
  revert bs bs'. induction T as [i|n l IHl r IHr]; intros bs bs' Hnd HS HS' Hroot.
  - by destruct bs as [|[a s] bs], bs' as [|[a' s'] bs'].
  - simpl in Hnd. apply list.NoDup_cons in Hnd as [Hn Hnd].
    apply list.NoDup_app in Hnd as (Hl & Hlr & Hr).
    assert (∀ s bs S, subtree_at (pick s l r) bs = Some S → root_of S ≠ n) as Hne.
    { intros s bs0 S0 H0%subtree_at_ids <-. apply Hn, elem_of_app.
      pose proof (H0 _ (root_in_ids S0)). destruct s; auto. }
    destruct bs as [|[a s] bs], bs' as [|[a' s'] bs']; simpl in *.
    + done.
    + case_decide; [|done]. simplify_eq/=. by apply Hne in HS'.
    + case_decide; [|done]. simplify_eq/=. by apply Hne in HS.
    + repeat case_decide; try done. subst a a'.
      destruct s, s'; simpl in *.
      * f_equal. by eapply IHl.
      * apply subtree_at_ids in HS, HS'. exfalso.
        apply (Hlr (root_of S)); [apply HS, root_in_ids|].
        rewrite Hroot. apply HS', root_in_ids.
      * apply subtree_at_ids in HS, HS'. exfalso.
        apply (Hlr (root_of S')); [apply HS', root_in_ids|].
        rewrite <-Hroot. apply HS, root_in_ids.
      * f_equal. by eapply IHr.
Qed.

(** Paths in the node vector are the branches of the term it stores. *)
Lemma path_subtree ns T bs c :
  stored ns T →
  path ns (root_of T) bs c ↔ ∃ S, subtree_at T bs = Some S ∧ root_of S = c.
Proof.
  revert T. induction bs as [|[a s] bs IH]; intros T HT.
  - split.
    + inversion 1. by exists T.
    + intros (S & [= <-] & <-). constructor.
  - split.
    + inversion 1 as [|? n ? ? ? Hn Hleaf Hpath]; subst.
      rewrite (stored_root _ _ HT) in Hn. simplify_eq.
      destruct T as [i|n l r]; [done|]. simpl.
      rewrite decide_True by done.
      rewrite child_node_of in Hpath. apply IH in Hpath; [done|].
      by eapply stored_pick.
    + intros (S & HS & <-). simpl in HS.
      destruct T as [i|n l r]; [done|]. case_decide; [|done]. subst a.
      econstructor; [by apply (stored_root _ _ HT)|done|].
      rewrite child_node_of. apply IH; [by eapply stored_pick|]. by exists S.
Qed.

(** ** The nodes of a built tree *)

(** Every identifier in use names a node of the term, and the node
    vector holds the node's record there. *)
Lemma shape_node k t T i :
  shape k t T → 0 ≤ i < 2 * k - 1 →
  ∃ bs S, subtree_at T bs = Some S ∧ root_of S = i
          ∧ nodes t !! Z.to_nat i = Some (node_of S) ∧ ordered k S.
Proof.
  intros Hsh Hi.
  assert (i ∈ ids T) as Hin.
  { rewrite (shape_ids _ _ _ Hsh). apply elem_of_seqZ. lia. }
  destruct (subtree_at_cover _ _ Hin) as (bs & S & HS & <-).
  exists bs, S. repeat split; [done|..].
  - pose proof (subtree_at_stored _ _ _ _ (shape_stored _ _ _ Hsh) HS) as Hst.
    destruct S; naive_solver.
  - by apply (subtree_at_ordered _ _ _ _ (shape_ordered _ _ _ Hsh) HS).
Qed.

Lemma shape_NoDup k t T : shape k t T → NoDup (ids T).
Proof. intros Hsh. rewrite (shape_ids _ _ _ Hsh). apply NoDup_seqZ. Qed.

(** The nodes of a tree of 1 to [2^31] leaves: their number, the node
    at each position, and the children of the internal ones. *)
Lemma build_nodes_spec k :
  1 ≤ k ≤ 2 ^ 31 →
  Z.of_nat (length (nodes (build k))) = 2 * k - 1
  ∧ (∀ (i : nat) n, nodes (build k) !! i = Some n →
       id n = Z.of_nat i ∧ is_leaf n = bool_decide (Z.of_nat i < k))
  ∧ (∀ n, n ∈ nodes (build k) → is_leaf n = false →
       0 ≤ left_id n < id n ∧ 0 ≤ right_id n < id n).
Proof.
  intros Hk. destruct (build_shape k Hk) as [T Hsh].
  set (t := build k) in *.
  pose proof (shape_length _ _ _ Hsh) as Hlen.
  assert (∀ (i : nat) n, nodes t !! i = Some n →
    ∃ S, n = node_of S ∧ root_of S = Z.of_nat i ∧ ordered k S) as Hnode.
  { intros i n Hn. pose proof (lookup_lt_Some _ _ _ Hn) as Hi.
    destruct (shape_node k t T (Z.of_nat i) Hsh) as (bs & S & _ & Hroot & HS & Hord);
      [lia|].
    rewrite Nat2Z.id in HS. exists S. by simplify_eq. }
  split; [done|]. split.
  - intros i n (S & -> & Hroot & Hord)%Hnode.
    destruct S as [j|m l r]; simpl in *; subst.
    + by rewrite bool_decide_eq_true_2 by lia.
    + by rewrite bool_decide_eq_false_2 by lia.
  - intros n (i & (S & -> & Hroot & Hord)%Hnode)%list_elem_of_lookup Hleaf.
    destruct S as [j|m l r]; [done|]. simpl in *.
    destruct Hord as (_ & Hl & Hr & Hol & Hor).
    pose proof (ordered_root _ _ Hol). pose proof (ordered_root _ _ Hor). lia.
Qed.

(** C2, amended. For every leaf count [k] from 1 to [2^31], the tree
    that [build_tree k] leaves on a new tree has [2k - 1] nodes; the node
    at each position has that position as its identifier, the nodes
    [0 .. k-1] are the leaves and the nodes [k .. 2k-2] the internal
    ones; and the identifier of an internal node lies above those of
    both its children. *)
Theorem build_tree_nodes k :
  1 ≤ k ≤ 2 ^ 31 →
  let t := build k in
  Z.of_nat (length (nodes t)) = 2 * k - 1
  ∧ (∀ (i : nat) n, nodes t !! i = Some n →
       id n = Z.of_nat i ∧ is_leaf n = bool_decide (Z.of_nat i < k))
  ∧ (∀ n, n ∈ nodes t → is_leaf n = false →
       0 ≤ left_id n < id n ∧ 0 ≤ right_id n < id n).
Proof. intros Hk t. by apply build_nodes_spec. Qed.

Lemma build_tree_nodes_witness :
  let t := build 3 in
  Z.of_nat (length (nodes t)) = 2 * 3 - 1
  ∧ (∀ (i : nat) n, nodes t !! i = Some n →
       id n = Z.of_nat i ∧ is_leaf n = bool_decide (Z.of_nat i < 3))
  ∧ (∀ n, n ∈ nodes t → is_leaf n = false →
       0 ≤ left_id n < id n ∧ 0 ≤ right_id n < id n).
Proof. apply (build_tree_nodes 3). lia. Defined.

(** *** Beyond [2^31] leaves

    The identifier of a node is its position converted to [uint32_t],
    whatever the leaf count; the tree has [2k - 1] nodes, so above
    [2^31] leaves the last positions do not fit. *)

(** The node at each position of [ns] carries the position as a
    [uint32_t], is a leaf exactly below [k], and has [uint32_t]
    children. *)
Definition numbered (k : Z) (ns : list tree_node) : Prop :=
  ∀ (i : nat) n, ns !! i = Some n →
    id n = uint32_t (Z.of_nat i) ∧ is_leaf n = bool_decide (Z.of_nat i < k)
    ∧ 0 ≤ left_id n.

Lemma pair_up_lookup ts : ∀ i (j : nat) n,
  pair_up i ts !! j = Some n →
  id n = uint32_t (i + Z.of_nat j) ∧ is_leaf n = false ∧ 0 ≤ left_id n.
Proof.
  induction ts as [|a|a b ts IH] using list_pair_ind; intros i j n; try done.
  cbn [pair_up]. destruct j as [|j]; cbn [lookup list_lookup].
  - intros [= <-]. simpl. rewrite Z.add_0_r. repeat split.
    apply Z.mod_pos_bound. done.
  - intros Hn%IH.
    by replace (i + Z.of_nat (S j)) with (i + 1 + Z.of_nat j) by lia.
Qed.

Lemma numbered_round k ns ts :
  k ≤ Z.of_nat (length ns) → numbered k ns →
  numbered k (ns ++ pair_up (Z.of_nat (length ns)) ts).
Proof.
  intros Hk Hns i n [Hn|[Hi Hn]]%lookup_app_Some; [by apply Hns|].
  apply pair_up_lookup in Hn as (-> & -> & ?).
  rewrite bool_decide_eq_false_2 by lia. repeat split; [|done]. f_equal. lia.
Qed.

Lemma numbered_leaves k : numbered k (leaf_nodes k).
Proof.
  intros i n Hn. pose proof (lookup_lt_Some _ _ _ Hn) as Hi.
  unfold leaf_nodes in Hi. rewrite length_fmap, length_seqZ in Hi.
  rewrite leaf_nodes_lookup in Hn by lia. simplify_eq. simpl.
  by rewrite bool_decide_eq_true_2 by lia.
Qed.

(** Whatever the leaf count, [build_tree] leaves [2k - 1] numbered nodes
    and the leaf count [k]. *)
Lemma build_numbered k :
  1 ≤ k →
  Z.of_nat (length (nodes (build k))) = 2 * k - 1
  ∧ numbered k (nodes (build k))
  ∧ _num_leaf_nodes (build k) = k.
Proof.
  intros Hk. unfold build, build_tree, new_tree. simpl.
  rewrite bool_decide_eq_false_2 by lia.
  unfold try_block. simpl. rewrite add_leaves_spec. simpl.
  destruct (rounds_no_failure (leaf_nodes k) (uint32_t <$> seqZ 0 k)) as [ts' Hret].
  pose proof (rounds_outcome [] (leaf_nodes k) (uint32_t <$> seqZ 0 k)) as [_ Hout].
  rewrite Hret in Hout. destruct Hout as [Hlen Hns].
  { intros Hnil%(f_equal length).
    rewrite length_fmap, length_seqZ in Hnil. simpl in Hnil. lia. }
  pose proof (leaf_nodes_length k ltac:(lia)) as Hleaves.
  pose proof (rounds_invariant
                (λ ns ts, k ≤ Z.of_nat (length ns) ∧ numbered k ns) []
                (leaf_nodes k) (uint32_t <$> seqZ 0 k) ts') as [[_ Hnum] _];
    [split; [lia|apply numbered_leaves]
    |intros ns ts _ [? ?]; split; [rewrite length_app; lia|by apply numbered_round]
    |done|].
  rewrite length_fmap, length_seqZ in Hns.
  destruct (rounds _ _ _) as [ns o]. simpl in *. subst o.
  destruct ts' as [|root [|]]; try done. rewrite at_index_0. simpl.
  split; [lia|done].
Qed.

Lemma build_ids_wrap k :
  2 ^ 31 < k < 2 ^ 32 →
  ∃ n, n ∈ nodes (build k) ∧ is_leaf n = false ∧ id n = 0
       ∧ ¬ left_id n < id n.
Proof.
  intros Hk. destruct (build_numbered k ltac:(lia)) as (Hlen & Hnum & _).
  set (m := Z.to_nat (2 ^ 32)).
  assert (Z.of_nat m = 2 ^ 32) as Hm by (apply Z2Nat.id; lia).
  clearbody m.
  destruct (lookup_lt_is_Some_2 (nodes (build k)) m) as [n Hn]; [lia|].
  exists n. destruct (Hnum m n Hn) as (Hid & Hleaf & Hleft).
  rewrite Hm in Hid, Hleaf.
  rewrite bool_decide_eq_false_2 in Hleaf by lia.
  change (uint32_t (2 ^ 32)) with 0 in Hid.
  repeat split; [by eapply list_elem_of_lookup_2|done|done|lia].
Qed.

(** C2, as the claim states it, fails at [k = 2^31 + 1]: the last of the
    [2^32 + 1] nodes is an internal node whose identifier has wrapped to
    0, which is neither among [k .. 2k-2] nor above the identifier of
    its left child. *)
Lemma build_tree_nodes_wrap :
  ∃ n, n ∈ nodes (build (2 ^ 31 + 1)) ∧ is_leaf n = false ∧ id n = 0
       ∧ ¬ left_id n < id n.
Proof. apply build_ids_wrap. lia. Qed.

(** ** The scores of a prediction *)

Section scores.
Context {float : Type} (fmul : float → float → float) (f0 f1 : float).
Context {World : Type} (base_predict : World → Z → World * (float * float)).

#[local] Abbreviation run := (@run float World).

(** The world before the scorer is invoked for the [n]-th time in a
    call of [predict] that started in the world [w], and the pair it
    returns when it is invoked with [idx] (for the node [k + idx]). *)
Fixpoint world_before (n : nat) (w : World) : World :=
  match n with
  | O => w
  | S n => (base_predict (world_before n w) (Z.of_nat n)).1
  end.

Definition answer (w : World) (idx : Z) : float * float :=
  (base_predict (world_before (Z.to_nat idx) w) idx).2.

(** The product of the shares of the pairs [prob] gives to the branches
    [bs], taken from the root down: each further branch multiplies its
    share, on the left, with the product so far. The empty product is
    [1.0f]. *)
Definition product_from (prob : Z → float * float) (m : float)
    (bs : list (Z * side)) : float :=
  foldl (λ m b, fmul (share (prob b.1) b.2) m) m bs.

Definition path_product (prob : Z → float * float) (bs : list (Z * side)) : float :=
  match bs with
  | [] => f1
  | b :: bs => product_from prob (share (prob b.1) b.2) bs
  end.

Lemma path_product_snoc prob bs c s :
  path_product prob (bs ++ [(c, s)]) =
    match bs with
    | [] => share (prob c) s
    | _ => fmul (share (prob c) s) (path_product prob bs)
    end.
Proof.
  destruct bs as [|b bs]; [done|]. simpl. unfold product_from.
  by rewrite foldl_app.
Qed.

(** *** The first loop *)

Lemma score_nodes_spec (n : nat) : ∀ (j : nat) (s : run) w0,
  Z.of_nat j + Z.of_nat n ≤ INT_MAX →
  world s = world_before j w0 →
  score_nodes base_predict n (Z.of_nat j) s =
    Normal (mk_run
      (mk_thread_local
         (prediction_buffer (statics s) ++ (answer w0 <$> seqZ (Z.of_nat j) (Z.of_nat n)))
         (scores (statics s)))
      (world_before (j + n) w0)
      (calls s ++ seqZ (Z.of_nat j) (Z.of_nat n))
      (writes s)).
Proof.
  induction n as [|n IH]; intros j s w0 Hj Hw; cbn [score_nodes].
  - change (Z.of_nat 0) with 0. cbn [seqZ fmap list_fmap].
    rewrite !app_nil_r, Nat.add_0_r, <-Hw. by destruct s as [[]].
  - unfold score_node.
    destruct (base_predict (world s) (Z.of_nat j)) as [w' p] eqn:Hcall.
    rewrite bool_decide_eq_true_2 by lia.
    replace (Z.of_nat j + 1) with (Z.of_nat (S j)) by lia.
    rewrite (IH _ _ w0); [|lia|cbn [world world_before]; by rewrite <-Hw, Hcall].
    cbn [statics prediction_buffer scores world calls writes].
    rewrite (seqZ_cons (Z.of_nat j) (Z.of_nat (S n))) by lia.
    replace (Z.succ (Z.of_nat j)) with (Z.of_nat (S j)) by lia.
    replace (Z.pred (Z.of_nat (S n))) with (Z.of_nat n) by lia.
    rewrite <-!app_assoc. cbn [fmap list_fmap app].
    replace (S j + n)%nat with (j + S n)%nat by lia.
    do 3 f_equal. unfold answer. by rewrite Nat2Z.id, <-Hw, Hcall.
Qed.

End scores.

(** *** The second loop *)

Section propagation.
Context {float : Type} (fmul : float → float → float) (f1 : float).
Context {World : Type}.
Context (k : Z) (t : min_depth_binary_tree) (T : btree).
Context (Hk : 2 ≤ k ≤ 2 ^ 31) (Hsh : shape k t T).
Context (prob : Z → float * float).

#[local] Abbreviation run := (@run float World).
#[local] Abbreviation buffer := (λ s : run, prediction_buffer (statics s)).
#[local] Abbreviation scores_of := (λ s : run, scores (statics s)).

(** The slot of the pair of the internal node [c]. *)
Definition slot (c : Z) : nat := Z.to_nat (c - k).

Definition scale (p : float) (pr : float * float) : float * float :=
  (fmul pr.1 p, fmul pr.2 p).

(** What [push_down] does for the child that is the root of [S]. *)
Definition receive (S : btree) (p : float) (s : run) : run :=
  match S with
  | Leaf c =>
      mk_run (mk_thread_local (buffer s) (<[Z.to_nat c := p]> (scores_of s)))
             (world s) (calls s) (writes s ++ [c])
  | Node c _ _ =>
      mk_run (mk_thread_local (alter (scale p) (slot c) (buffer s)) (scores_of s))
             (world s) (calls s) (writes s)
  end.

Lemma offset_helper_get_slot (b : list (float * float)) c pr :
  k ≤ c < 2 * k - 1 → b !! slot c = Some pr →
  offset_helper_get b (leaf_node_count t) c = Normal pr.
Proof.
  intros Hc Hb. unfold slot in *.
  unfold offset_helper_get, leaf_node_count. rewrite (shape_leaf_count _ _ _ Hsh).
  unfold size_t. rewrite Z.mod_small by lia.
  apply at_index_Normal. split; [lia|done].
Qed.

Lemma offset_helper_set_slot (b : list (float * float)) c pr :
  k ≤ c < 2 * k - 1 → (slot c < length b)%nat →
  offset_helper_set b (leaf_node_count t) c pr = Normal (<[slot c := pr]> b).
Proof.
  intros Hc Hlt. unfold slot in *.
  unfold offset_helper_set, leaf_node_count. rewrite (shape_leaf_count _ _ _ Hsh).
  unfold size_t. rewrite Z.mod_small by lia.
  unfold set_index. by rewrite bool_decide_eq_true_2 by lia.
Qed.

Lemma push_down_receive S p (s : run) :
  stored (nodes t) S → ordered k S → root_of S < 2 * k - 1 →
  length (scores_of s) = Z.to_nat k →
  (∀ c l r, S = Node c l r → is_Some (buffer s !! slot c)) →
  push_down fmul t (root_of S) p s = Normal (receive S p s).
Proof.
  intros Hst Hord Hroot Hlen Hbuf. unfold push_down.
  rewrite (stored_root _ _ Hst). cbn [mbind outcome_bind].
  destruct S as [c|c l r]; cbn [node_of is_leaf root_of receive] in *.
  - unfold assign_score, set_index. simpl in Hord.
    by rewrite bool_decide_eq_true_2 by lia.
  - destruct (Hbuf c l r eq_refl) as [pr Hpr]. simpl in Hord.
    pose proof (lookup_lt_Some _ _ _ Hpr) as Hlt.
    rewrite (offset_helper_get_slot _ _ pr) by (done || lia).
    cbn [mbind outcome_bind].
    rewrite offset_helper_set_slot by (done || lia).
    cbn [mbind outcome_bind].
    rewrite (offset_helper_get_slot _ _ (fmul pr.1 p, pr.2));
      [|lia|by apply list_lookup_insert_eq].
    cbn [mbind outcome_bind].
    rewrite offset_helper_set_slot by (rewrite ?length_insert; done || lia).
    cbn [mbind outcome_bind]. unfold set_buffer. do 3 f_equal.
    rewrite list_insert_insert_eq. simpl.
    apply list_eq. intros i. destruct (decide (i = slot c)) as [->|Hi].
    + by rewrite list_lookup_insert_eq, list_lookup_alter_eq, Hpr.
    + by rewrite list_lookup_insert_ne, list_lookup_alter_ne.
Qed.

(** The node the last branch of [bs] leaves. *)
Definition parent_of (bs : list (Z * side)) : option Z := fst <$> list.last bs.

(** When the loop has visited the nodes above [j]: the branches [bs]
    lead to a child of a visited node. *)
Definition reached (j : Z) (bs : list (Z * side)) : Prop :=
  ∃ a, parent_of bs = Some a ∧ j < a.

(** The pair of the internal node [c] that the branches [bs] lead to,
    once its parent has been visited. *)
Definition final (bs : list (Z * side)) (c : Z) : float * float :=
  (path_product fmul f1 prob (bs ++ [(c, to_left)]),
   path_product fmul f1 prob (bs ++ [(c, to_right)])).

(** The invariant of the second loop, [R] being the branches that lead
    to the children of the nodes visited so far. *)
Record inv (R : list (Z * side) → Prop) (s : run) : Prop := {
  inv_buffer : length (buffer s) = Z.to_nat (k - 1);
  inv_scores : length (scores_of s) = Z.to_nat k;
  inv_ready : ∀ bs c l r,
    subtree_at T bs = Some (Node c l r) → bs = [] ∨ R bs →
    buffer s !! slot c = Some (final bs c);
  inv_raw : ∀ bs c l r,
    subtree_at T bs = Some (Node c l r) → bs ≠ [] → ¬ R bs →
    buffer s !! slot c = Some (prob c);
  inv_leaf : ∀ bs c,
    subtree_at T bs = Some (Leaf c) → R bs →
    scores_of s !! Z.to_nat c = Some (path_product fmul f1 prob bs);
  inv_writes_NoDup : NoDup (writes s);
  inv_writes : ∀ c,
    c ∈ writes s ↔ ∃ bs, subtree_at T bs = Some (Leaf c) ∧ R bs
}.

Lemma parent_of_snoc bs a s : parent_of (bs ++ [(a, s)]) = Some a.
Proof. unfold parent_of. by rewrite last_snoc. Qed.

Lemma parent_of_Some bs a :
  parent_of bs = Some a → ∃ bs' s, bs = bs' ++ [(a, s)].
Proof.
  unfold parent_of. destruct bs as [|b bs _] using rev_ind; [done|].
  rewrite last_snoc. destruct b as [a' s]. intros [= <-]. by exists bs, s.
Qed.

Lemma subtree_bounds bs S :
  subtree_at T bs = Some S →
  stored (nodes t) S ∧ ordered k S ∧ 0 ≤ root_of S < 2 * k - 1.
Proof using Hsh.
  clear Hk.
  intros HS. split; [|split].
  - by apply (subtree_at_stored _ _ _ _ (shape_stored _ _ _ Hsh) HS).
  - by apply (subtree_at_ordered _ _ _ _ (shape_ordered _ _ _ Hsh) HS).
  - pose proof (subtree_at_ids _ _ _ HS _ (root_in_ids S)) as Hin.
    rewrite (shape_ids _ _ _ Hsh) in Hin. apply elem_of_seqZ in Hin. lia.
Qed.

Lemma subtree_same bs bs' S S' :
  subtree_at T bs = Some S → subtree_at T bs' = Some S' →
  root_of S = root_of S' → bs = bs' ∧ S = S'.
Proof using Hsh.
  clear Hk.
  intros HS HS' Hroot.
  pose proof (subtree_at_unique _ _ _ _ _ (shape_NoDup _ _ _ Hsh) HS HS' Hroot).
  subst bs'. split; [done|]. congruence.
Qed.

(** A node lies below its parent. *)
Lemma parent_above bs S a :
  subtree_at T bs = Some S → parent_of bs = Some a → root_of S < a.
Proof.
  intros HS (bs' & s & ->)%parent_of_Some.
  apply subtree_at_snoc in HS as (l & r & HN & ->).
  apply subtree_bounds in HN as (_ & Hord & _).
  by apply (ordered_pick k a l r s).
Qed.

(** Where a node of the term stands with respect to the internal node
    [j]: it is its left child, or its right child, or neither. *)
Lemma child_cases bs_j j l r bs S :
  subtree_at T bs_j = Some (Node j l r) →
  subtree_at T bs = Some S →
  (bs = bs_j ++ [(j, to_left)] ∧ S = l)
  ∨ (bs = bs_j ++ [(j, to_right)] ∧ S = r)
  ∨ (parent_of bs ≠ Some j ∧ root_of S ≠ root_of l ∧ root_of S ≠ root_of r).
Proof.
  intros Hj HS.
  assert (subtree_at T (bs_j ++ [(j, to_left)]) = Some l) as Hl.
  { apply subtree_at_snoc. by exists l, r. }
  assert (subtree_at T (bs_j ++ [(j, to_right)]) = Some r) as Hr.
  { apply subtree_at_snoc. by exists l, r. }
  destruct (decide (root_of S = root_of l)) as [Hrl|Hrl].
  { left. by apply (subtree_same _ _ _ _ HS Hl). }
  destruct (decide (root_of S = root_of r)) as [Hrr|Hrr].
  { right. left. by apply (subtree_same _ _ _ _ HS Hr). }
  right. right. split; [|done].
  intros (bs' & s & ->)%parent_of_Some.
  apply subtree_at_snoc in HS as (l' & r' & HN & ->).
  destruct (subtree_same _ _ _ _ HN Hj eq_refl) as [-> [= -> ->]].
  by destruct s.
Qed.

Lemma reached_step j bs :
  parent_of bs ≠ Some j → reached (j - 1) bs ↔ reached j bs.
Proof.
  intros Hne. unfold reached. split; intros (a & Ha & Hlt); exists a; split;
    try done; [|lia].
  destruct (decide (a = j)) as [->|]; [done|lia].
Qed.

Lemma reached_child j bs s : reached (j - 1) (bs ++ [(j, s)]).
Proof. exists j. split; [apply parent_of_snoc|lia]. Qed.

Lemma not_reached_child j bs s : ¬ reached j (bs ++ [(j, s)]).
Proof. intros (a & Ha & Hlt). rewrite parent_of_snoc in Ha. simplify_eq. lia. Qed.

Lemma inv_equiv (R R' : list (Z * side) → Prop) s :
  (∀ bs S, subtree_at T bs = Some S → R bs ↔ R' bs) →
  inv R s → inv R' s.
Proof.
  intros HR [H1 H2 H3 H4 H5 H6 H7]. split; try done.
  - intros bs c l r HS [->|Hbs]; eapply H3; eauto.
    right. by eapply HR.
  - intros bs c l r HS Hne Hbs. eapply H4; eauto.
    intros ?. apply Hbs. by eapply HR.
  - intros bs c HS Hbs. eapply H5; eauto. by eapply HR.
  - intros c. rewrite H7. split; intros (bs & HS & Hbs); exists bs; split;
      try done; by eapply HR.
Qed.

Lemma slot_inj c c' : k ≤ c → k ≤ c' → slot c = slot c' → c = c'.
Proof. unfold slot. lia. Qed.

(** Handing its share to the child that the branches [bs] lead to adds
    [bs] to the branches dealt with. *)
Lemma receive_inv (R : list (Z * side) → Prop) s bs S :
  inv R s → subtree_at T bs = Some S → bs ≠ [] → ¬ R bs →
  inv (λ bs', R bs' ∨ bs' = bs) (receive S (path_product fmul f1 prob bs) s).
Proof.
  intros [H1 H2 H3 H4 H5 H6 H7] HS Hne HR.
  pose proof (subtree_bounds _ _ HS) as (_ & Hord & Hroot).
  destruct S as [c|c l r]; simpl in Hord, Hroot; cbn [receive].
  - split; cbn [statics prediction_buffer scores writes]; try done.
    + by rewrite length_insert.
    + intros bs' c' l' r' HS' [->|[Hbs'| ->]]; [eapply H3; eauto..|congruence].
    + intros bs' c' l' r' HS' Hne' Hbs'. eapply H4; eauto.
    + intros bs' c' HS' [Hbs'| ->].
      * rewrite list_lookup_insert_ne; [by eapply H5|].
        intros Hcc.
        pose proof (subtree_bounds _ _ HS') as (_ & _ & Hroot'). simpl in Hroot'.
        assert (c = c') as <- by lia.
        destruct (subtree_same _ _ _ _ HS HS' eq_refl) as [<- _]. done.
      * assert (c' = c) as -> by congruence.
        apply list_lookup_insert_eq. lia.
    + apply list.NoDup_app. split; [done|]. split; [|apply NoDup_singleton].
      intros c' (bs' & HS' & Hbs')%H7 ->%list_elem_of_singleton.
      destruct (subtree_same _ _ _ _ HS HS' eq_refl) as [<- _]. done.
    + intros c'. rewrite elem_of_app, H7, list_elem_of_singleton. split.
      * intros [(bs' & HS' & Hbs')| ->]; [exists bs'|exists bs]; auto.
      * intros (bs' & HS' & [Hbs'| ->]); [left; by exists bs'|right; congruence].
  - assert (∀ bs' c' l' r', subtree_at T bs' = Some (Node c' l' r') →
              bs' ≠ bs → slot c ≠ slot c') as Hslot.
    { intros bs' c' l' r' HS' Hbs' Heq.
      pose proof (subtree_bounds _ _ HS') as (_ & Hord' & _). simpl in Hord'.
      apply slot_inj in Heq; [|lia..]. subst c'.
      by destruct (subtree_same _ _ _ _ HS HS' eq_refl). }
    split; cbn [statics prediction_buffer scores writes]; try done.
    + by rewrite length_alter.
    + intros bs' c' l' r' HS' Hbs'.
      destruct (decide (bs' = bs)) as [->|Hne'].
      * assert (c' = c) as -> by congruence.
        rewrite list_lookup_alter_eq, (H4 _ _ _ _ HS Hne HR). simpl.
        unfold final, scale. rewrite !path_product_snoc.
        by destruct bs.
      * rewrite list_lookup_alter_ne by by eapply Hslot.
        eapply H3; eauto. naive_solver.
    + intros bs' c' l' r' HS' Hne' Hbs'.
      rewrite list_lookup_alter_ne by (eapply Hslot; eauto).
      eapply H4; eauto.
    + intros bs' c' HS' [Hbs'| ->]; [by eapply H5|congruence].
    + intros c'. rewrite H7. split.
      * intros (bs' & HS' & Hbs'). exists bs'. auto.
      * intros (bs' & HS' & [Hbs'| ->]); [by exists bs'|congruence].
Qed.

(** The answers of the scorer are in the buffer, and nothing has been
    handed down yet. *)
Lemma inv_start (s : run) :
  length (buffer s) = Z.to_nat (k - 1) →
  length (scores_of s) = Z.to_nat k →
  (∀ c, k ≤ c < 2 * k - 1 → buffer s !! slot c = Some (prob c)) →
  writes s = [] →
  inv (reached (2 * k - 2)) s.
Proof.
  intros Hb Hs Hraw Hw.
  assert (∀ bs S, subtree_at T bs = Some S → ¬ reached (2 * k - 2) bs) as Hnone.
  { intros bs S HS (a & (bs' & sd & ->)%parent_of_Some & Hlt).
    apply subtree_at_snoc in HS as (l & r & HN & _).
    apply subtree_bounds in HN as (_ & _ & Hroot). simpl in Hroot. lia. }
  split; try done.
  - intros bs c l r HS [->|Hbs]; [|by apply Hnone in HS].
    pose proof (subtree_bounds _ _ HS) as (_ & Hord & Hroot). simpl in *.
    rewrite Hraw by lia. unfold final. simpl. by destruct (prob c).
  - intros bs c l r HS _ _.
    pose proof (subtree_bounds _ _ HS) as (_ & Hord & Hroot). simpl in *.
    apply Hraw. lia.
  - intros bs c HS Hbs. by apply Hnone in HS.
  - rewrite Hw. constructor.
  - intros c. rewrite Hw. split; [by intros ?%elem_of_nil|].
    intros (bs & HS & Hbs). by apply Hnone in HS.
Qed.

Lemma receive_world S p (s : run) :
  world (receive S p s) = world s ∧ calls (receive S p s) = calls s.
Proof. by destruct S. Qed.

(** One iteration of the second loop, at the internal node [j]. *)
Lemma visit_step j (s : run) :
  k ≤ j < 2 * k - 1 → inv (reached j) s →
  ∃ n s', nodes t !! Z.to_nat j = Some n ∧ is_leaf n = false
          ∧ visit fmul t n s = Normal s' ∧ inv (reached (j - 1)) s'
          ∧ world s' = world s ∧ calls s' = calls s.
Proof.
  intros Hj Hinv.
  destruct (shape_node k t T j Hsh) as (bs & S & HS & Hroot & Hn & Hord); [lia|].
  destruct S as [c|c l r]; simpl in Hroot, Hord; [lia|]. subst c.
  exists (node_of (Node j l r)). simpl in Hn.
  assert (subtree_at T (bs ++ [(j, to_left)]) = Some l) as Hl.
  { apply subtree_at_snoc. by exists l, r. }
  assert (subtree_at T (bs ++ [(j, to_right)]) = Some r) as Hr.
  { apply subtree_at_snoc. by exists l, r. }
  assert (buffer s !! slot j = Some (final bs j)) as HG.
  { eapply (inv_ready _ _ Hinv); [done|].
    destruct (parent_of bs) as [a|] eqn:Ha.
    - right. exists a. split; [done|]. by apply (parent_above _ _ _ HS).
    - left. unfold parent_of in Ha. destruct bs using rev_ind; [done|].
      by rewrite last_snoc in Ha. }
  assert (∀ sd, bs ++ [(j, sd)] ≠ []) as Hne by (intros sd; by destruct bs).
  pose proof (receive_inv _ s _ _ Hinv Hl (Hne _) (not_reached_child _ _ _)) as Hs1.
  set (s1 := receive l (path_product fmul f1 prob (bs ++ [(j, to_left)])) s) in *.
  assert (¬ (reached j (bs ++ [(j, to_right)])
             ∨ bs ++ [(j, to_right)] = bs ++ [(j, to_left)])) as Hnot.
  { intros [?%not_reached_child|Heq]; [done|]. by apply app_inj_tail in Heq as [_ ?]. }
  pose proof (receive_inv _ s1 _ _ Hs1 Hr (Hne _) Hnot) as Hs2.
  set (s2 := receive r (path_product fmul f1 prob (bs ++ [(j, to_right)])) s1) in *.
  exists s2. split; [done|]. split; [done|]. split; [|split].
  - unfold visit. cbn [node_of id left_id right_id].
    pose proof (subtree_bounds _ _ Hl) as (Hstl & Hordl & Hrootl).
    pose proof (subtree_bounds _ _ Hr) as (Hstr & Hordr & Hrootr).
    rewrite (offset_helper_get_slot _ _ _ Hj HG). cbn [mbind outcome_bind].
    rewrite push_down_receive; [|done|done|lia|apply Hinv|].
    2:{ intros c l' r' ->. rewrite (inv_raw _ _ Hinv _ _ _ _ Hl); [done|apply Hne|].
        apply not_reached_child. }
    cbn [mbind outcome_bind final fst snd]. fold s1.
    assert (buffer s1 !! slot j = Some (final bs j)) as HG1.
    { eapply (inv_ready _ _ Hs1); [done|].
      destruct (parent_of bs) as [a|] eqn:Ha.
      - right. left. exists a. split; [done|]. by apply (parent_above _ _ _ HS).
      - left. unfold parent_of in Ha. destruct bs using rev_ind; [done|].
        by rewrite last_snoc in Ha. }
    rewrite (offset_helper_get_slot _ _ _ Hj HG1). cbn [mbind outcome_bind].
    rewrite push_down_receive; [done|done|done|lia|apply Hs1|].
    intros c l' r' ->. by rewrite (inv_raw _ _ Hs1 _ _ _ _ Hr).
  - eapply inv_equiv; [|exact Hs2]. intros bs' S' HS'. simpl.
    destruct (child_cases _ _ _ _ _ _ HS HS') as [[-> _]|[[-> _]|(Hpar & _ & _)]].
    + split; [intros _; apply reached_child|auto].
    + split; [intros _; apply reached_child|auto].
    + rewrite reached_step by done. split; [|auto].
      intros [[?| ->]| ->]; [done|by rewrite parent_of_snoc in Hpar..].
  - unfold s2, s1.
    destruct (receive_world r (path_product fmul f1 prob (bs ++ [(j, to_right)]))
                (receive l (path_product fmul f1 prob (bs ++ [(j, to_left)])) s))
      as [-> ->].
    apply receive_world.
Qed.

(** The second loop over the first [k + m] nodes, last to first, once
    the nodes after them have been visited. *)
Lemma propagate_spec (m : nat) : ∀ (s : run),
  k - 1 + Z.of_nat m < 2 * k - 1 →
  inv (reached (k - 1 + Z.of_nat m)) s →
  ∃ s', propagate fmul t (reverse (take (Z.to_nat k + m) (nodes t))) s = Normal s'
        ∧ inv (reached (k - 1)) s' ∧ world s' = world s ∧ calls s' = calls s.
Proof.
  induction m as [|m IH]; intros s Hm Hinv.
  - exists s. split; [|split; [|done]].
    + destruct (shape_node k t T (k - 1) Hsh) as (bs & S & HS & Hroot & Hn & Hord);
        [lia|].
      destruct S as [c|c l r]; simpl in Hroot, Hord; [|lia].
      rewrite Nat.add_0_r.
      replace (Z.to_nat k) with (S (Z.to_nat (k - 1))) by lia.
      erewrite take_S_r by done. by rewrite reverse_snoc.
    + by rewrite Z.add_0_r in Hinv.
  - destruct (visit_step (k + Z.of_nat m) s) as (n & s' & Hn & Hleaf & Hvisit & Hinv' & Hw & Hc);
      [lia|by replace (k + Z.of_nat m) with (k - 1 + Z.of_nat (S m)) by lia|].
    replace (Z.to_nat k + S m)%nat with (S (Z.to_nat (k + Z.of_nat m))) by lia.
    erewrite take_S_r by done. rewrite reverse_snoc. cbn [propagate].
    rewrite Hleaf, Hvisit. cbn [mbind outcome_bind].
    replace (Z.to_nat (k + Z.of_nat m)) with (Z.to_nat k + m)%nat by lia.
    destruct (IH s') as (s'' & Hprop & Hinv'' & Hw' & Hc');
      [lia|by replace (k - 1 + Z.of_nat m) with (k + Z.of_nat m - 1) by lia|].
    exists s''. split; [done|]. split; [done|]. split; congruence.
Qed.

(** Every leaf is the child of an internal node. *)
Lemma leaf_reached bs c :
  subtree_at T bs = Some (Leaf c) → reached (k - 1) bs.
Proof.
  intros HS. destruct (parent_of bs) as [a|] eqn:Ha.
  - exists a. split; [done|].
    apply parent_of_Some in Ha as (bs' & sd & ->).
    apply subtree_at_snoc in HS as (l & r & HN & _).
    apply subtree_bounds in HN as (_ & Hord & _). simpl in Hord. lia.
  - unfold parent_of in Ha. destruct bs using rev_ind; [|by rewrite last_snoc in Ha].
    simpl in HS. injection HS as HT.
    pose proof (shape_ordered _ _ _ Hsh) as Hord. rewrite HT in Hord. simpl in Hord.
    destruct (shape_node k t T (2 * k - 2) Hsh) as (bs & S & HS & Hroot & _);
      [lia|].
    rewrite HT in HS.
    destruct bs as [|[]]; simpl in HS; [|done]. simplify_eq/=. lia.
Qed.

(** After the second loop every leaf holds the product along the
    branches that lead to it, and has been assigned once. *)
Lemma inv_end (s : run) bs c :
  inv (reached (k - 1)) s →
  subtree_at T bs = Some (Leaf c) →
  scores_of s !! Z.to_nat c = Some (path_product fmul f1 prob bs).
Proof.
  intros Hinv HS. eapply inv_leaf; [done..|]. by eapply leaf_reached.
Qed.

Lemma inv_end_writes (s : run) :
  inv (reached (k - 1)) s → writes s ≡ₚ seqZ 0 k.
Proof.
  intros Hinv. apply list.NoDup_Permutation.
  - apply Hinv.
  - apply NoDup_seqZ.
  - intros c. rewrite (inv_writes _ _ Hinv), elem_of_seqZ. split.
    + intros (bs & HS & _). apply subtree_bounds in HS as (_ & Hord & _).
      simpl in Hord. lia.
    + intros Hc.
      destruct (shape_node k t T c Hsh) as (bs & S & HS & Hroot & _ & Hord); [lia|].
      destruct S as [c'|c' l r]; simpl in Hroot, Hord; [|lia]. subst c'.
      exists bs. split; [done|]. by eapply leaf_reached.
Qed.

(** The leaf [c] is at the end of exactly one path from the root. *)
Lemma leaf_path c :
  0 ≤ c < k →
  ∃ bs, subtree_at T bs = Some (Leaf c)
        ∧ leaf_at (nodes t) c
        ∧ path (nodes t) (root_idx t) bs c
        ∧ ∀ bs', path (nodes t) (root_idx t) bs' c → bs' = bs.
Proof using Hsh.
  clear Hk.
  intros Hc.
  destruct (shape_node k t T c Hsh) as (bs & S & HS & Hroot & Hn & Hord); [lia|].
  destruct S as [c'|c' l r]; simpl in Hroot, Hord; [|lia]. subst c'.
  exists bs. split; [done|]. split; [|split].
  - exists (node_of (Leaf c)). split; [|done]. apply at_index_Normal. split; [lia|done].
  - rewrite (shape_root _ _ _ Hsh).
    apply (path_subtree _ _ _ _ (shape_stored _ _ _ Hsh)). by exists (Leaf c).
  - intros bs'. rewrite (shape_root _ _ _ Hsh).
    intros (S' & HS' & Hroot')%(path_subtree _ _ _ _ (shape_stored _ _ _ Hsh)).
    by destruct (subtree_same _ _ _ _ HS' HS Hroot').
Qed.

End propagation.

(** *** The whole call *)

Lemma resize_length {A : Type} n (x : A) v :
  0 ≤ n → length (resize n x v) = Z.to_nat n.
Proof.
  intros Hn. unfold resize. rewrite length_app, length_take, length_replicate. lia.
Qed.

Lemma shape_internal_node_count k t T :
  1 ≤ k ≤ 2 ^ 31 → shape k t T → internal_node_count t = k - 1.
Proof.
  intros Hk Hsh. unfold internal_node_count.
  rewrite (shape_length _ _ _ Hsh), (shape_leaf_count _ _ _ Hsh).
  unfold size_t, uint32_t.
  rewrite (Z.mod_small (2 * k - 1 - k)) by lia. rewrite Z.mod_small; lia.
Qed.

Section prediction.
Context {float : Type} (fmul : float → float → float) (f0 f1 : float).
Context {World : Type} (base_predict : World → Z → World * (float * float)).

(** The pair the scorer returns for the internal node [c] of a tree of
    [k] leaves, in a call that started in the world [w]. *)
Definition node_answer (k : Z) (w : World) (c : Z) : float * float :=
  answer base_predict w (c - k).

(** The statics are there after their declaration, whether this call
    initialises them or not. *)
Lemma init_statics_returns k T (tls : option (@thread_local float)) :
  1 ≤ k ≤ 2 ^ 31 → shape k (build k) T →
  ∃ tl, init_statics f0 (mk_offset_tree (build k)) tls = Normal tl.
Proof.
  intros Hk Hsh. destruct tls as [tl|]; [by exists tl|].
  unfold init_statics, learner_count, leaf_node_count. cbn [binary_tree].
  rewrite (shape_internal_node_count _ _ _ Hk Hsh), (shape_leaf_count _ _ _ Hsh).
  unfold vector_n, int32_t, size_t.
  replace ((k - 1 + 2 ^ 31) mod 2 ^ 32 - 2 ^ 31) with (k - 1)
    by (rewrite Z.mod_small; lia).
  rewrite !Z.mod_small by lia.
  change ((2 ^ 63 - 1) `div` 8) with 1152921504606846975.
  change ((2 ^ 63 - 1) `div` 4) with 2305843009213693951.
  rewrite !bool_decide_eq_true_2 by lia. by eexists.
Qed.

(** A call of [predict] on a tree of [k] leaves, from 2 to [2^31]. *)
Lemma predict_spec k T tls w :
  2 ≤ k ≤ 2 ^ 31 → shape k (build k) T →
  ∃ s, predict fmul f0 f1 base_predict (mk_offset_tree (build k)) tls w = Normal s
       ∧ inv fmul f1 k T (node_answer k w) (reached (k - 1)) s
       ∧ calls s = seqZ 0 (k - 1)
       ∧ world s = world_before base_predict (Z.to_nat (k - 1)) w.
Proof.
  intros Hk Hsh. unfold predict. cbn [binary_tree].
  destruct (init_statics_returns k T tls ltac:(lia) Hsh) as [tl ->].
  cbn [mbind outcome_bind]. unfold leaf_node_count.
  rewrite (shape_internal_node_count k _ T ltac:(lia) Hsh), (shape_leaf_count _ _ _ Hsh).
  rewrite !bool_decide_eq_false_2 by lia.
  pose proof (score_nodes_spec base_predict (Z.to_nat (k - 1)) 0
                (mk_run (mk_thread_local [] (resize k f0 (scores tl))) w [] []) w)
    as Hscore.
  change (Z.of_nat 0) with 0 in Hscore. rewrite Hscore; [|unfold INT_MAX; lia|done].
  clear Hscore. cbn [mbind outcome_bind statics prediction_buffer scores world calls
                     writes app].
  rewrite Z2Nat.id by lia.
  set (s1 := mk_run _ _ _ _).
  assert (inv fmul f1 k T (node_answer k w) (reached (2 * k - 2)) s1) as Hinv.
  { apply (inv_start fmul f1 k (build k) T Hsh); subst s1; simpl.
    - rewrite length_fmap, length_seqZ. lia.
    - apply resize_length. lia.
    - intros c Hc. unfold slot, node_answer.
      rewrite list_lookup_fmap, lookup_seqZ_lt by lia. simpl.
      by rewrite Z2Nat.id by lia.
    - done. }
  destruct (propagate_spec fmul f1 k (build k) T Hk Hsh (node_answer k w)
              (Z.to_nat (k - 1)) s1) as (s' & Hprop & Hinv' & Hw & Hc).
  { lia. }
  { by replace (k - 1 + Z.of_nat (Z.to_nat (k - 1))) with (2 * k - 2) by lia. }
  rewrite take_ge in Hprop by (pose proof (shape_length _ _ _ Hsh); lia).
  exists s'. split; [done|]. split; [done|]. by rewrite Hw, Hc.
Qed.

Lemma predict_zero tls w :
  ∃ s, predict fmul f0 f1 base_predict (mk_offset_tree (build 0)) tls w = Normal s
       ∧ scores (statics s) = [] ∧ calls s = [] ∧ writes s = [].
Proof.
  destruct tls as [tl|]; eexists; (split; [reflexivity|]); simpl; done.
Qed.

Lemma predict_one tls w :
  ∃ s, predict fmul f0 f1 base_predict (mk_offset_tree (build 1)) tls w = Normal s
       ∧ scores (statics s) = [f1] ∧ calls s = [] ∧ writes s = [0].
Proof.
  destruct tls as [[b [|x v]]|]; eexists; (split; [reflexivity|]); simpl; done.
Qed.

(** The scores of two states that satisfy the final invariant agree. *)
Lemma predict_scores_lookup k T w (s : @run float World) i :
  2 ≤ k ≤ 2 ^ 31 → shape k (build k) T →
  inv fmul f1 k T (node_answer k w) (reached (k - 1)) s →
  0 ≤ i < k →
  leaf_at (nodes (build k)) i
  ∧ ∃ bs, path (nodes (build k)) (root_idx (build k)) bs i
          ∧ (∀ bs', path (nodes (build k)) (root_idx (build k)) bs' i → bs' = bs)
          ∧ scores (statics s) !! Z.to_nat i
            = Some (path_product fmul f1 (node_answer k w) bs).
Proof.
  intros Hk Hsh Hinv Hi.
  destruct (leaf_path k (build k) T Hsh i Hi) as (bs & HS & Hleaf & Hpath & Huniq).
  split; [done|]. exists bs. split; [done|]. split; [done|].
  by apply (inv_end fmul f1 k (build k) T Hk Hsh (node_answer k w) s bs i).
Qed.

(** C1, amended. For every leaf count [k] up to [2^31], whatever the
    scorer and whatever the statics hold, [predict] returns a vector of
    [k] scores; entry [i] is the product, taken from the root down, of
    the shares the scorer's pairs give to the branches of the one path
    from the root to leaf [i]: the first component at a node left for
    its [left_id], the second for its [right_id]. For no leaf the
    vector is empty, and for one leaf it is [1.0f]. *)
Theorem predict_scores k tls w :
  0 ≤ k ≤ 2 ^ 31 →
  ∃ s, predict fmul f0 f1 base_predict (mk_offset_tree (build k)) tls w = Normal s
    ∧ Z.of_nat (length (scores (statics s))) = k
    ∧ (k = 0 → scores (statics s) = [])
    ∧ (k = 1 → scores (statics s) = [f1])
    ∧ ∀ i, 0 ≤ i < k →
        leaf_at (nodes (build k)) i
        ∧ ∃ bs, path (nodes (build k)) (root_idx (build k)) bs i
            ∧ (∀ bs', path (nodes (build k)) (root_idx (build k)) bs' i → bs' = bs)
            ∧ scores (statics s) !! Z.to_nat i
              = Some (path_product fmul f1 (node_answer k w) bs).
Proof.
  intros Hk.
  destruct (decide (k = 0)) as [->|Hk0]; [|destruct (decide (k = 1)) as [->|Hk1]].
  - destruct (predict_zero tls w) as (s & -> & Hs & _). exists s. rewrite Hs.
    repeat split; try done; lia.
  - destruct (predict_one tls w) as (s & -> & Hs & _). exists s. rewrite Hs.
    do 4 (split; [done|]). intros i Hi. assert (i = 0) as -> by lia.
    replace (build 1) with (mk_tree [mk_node 0 0 0 true] 0 1 true)
      by by vm_compute.
    cbn [nodes root_idx].
    split; [by eexists|]. exists []. split; [apply path_nil|]. split; [|done].
    intros bs'. inversion 1 as [|? n ? ? ? Hn Hleaf]; [done|].
    rewrite at_index_0 in Hn. by simplify_eq.
  - destruct (build_shape k ltac:(lia)) as [T Hsh].
    destruct (predict_spec k T tls w ltac:(lia) Hsh) as (s & -> & Hinv & _).
    exists s. split; [done|]. split; [|split; [done|split; [done|]]].
    + rewrite (inv_scores _ _ _ _ _ _ _ Hinv). lia.
    + intros i Hi. by apply (predict_scores_lookup k T w s i ltac:(lia) Hsh).
Qed.

(** The identifiers of the internal nodes of a numbered vector, in the
    order of the vector. *)
Lemma internal_ids k (ns : list tree_node) :
  0 ≤ k →
  (∀ (i : nat) n, ns !! i = Some n →
     id n = Z.of_nat i ∧ is_leaf n = bool_decide (Z.of_nat i < k)) →
  id <$> filter (λ n, is_leaf n = false) ns = seqZ k (Z.of_nat (length ns) - k).
Proof.
  intros Hk. induction ns as [|n ns IH] using rev_ind; intros Hns.
  - by rewrite seqZ_nil by (simpl; lia).
  - rewrite list.filter_app, fmap_app, IH, length_app.
    2:{ intros i n' Hn'. apply Hns. by apply lookup_app_l_Some. }
    destruct (Hns (length ns) n) as [Hid Hleaf].
    { by rewrite lookup_app_r, Nat.sub_diag by lia. }
    rewrite filter_cons, filter_nil. cbn [length].
    destruct (decide (Z.of_nat (length ns) < k)) as [Hlt|Hge].
    + rewrite bool_decide_eq_true_2 in Hleaf by done.
      rewrite decide_False by congruence. rewrite app_nil_r.
      by rewrite !seqZ_nil by lia.
    + rewrite bool_decide_eq_false_2 in Hleaf by done.
      rewrite decide_True by done. cbn [fmap list_fmap]. rewrite Hid.
      replace (Z.of_nat (length ns + 1)%nat - k)
        with ((Z.of_nat (length ns) - k) + 1) by lia.
      rewrite seqZ_app by lia. f_equal.
      replace (k + (Z.of_nat (length ns) - k)) with (Z.of_nat (length ns)) by lia.
      done.
Qed.

(** C4, amended. For every leaf count [k] up to [2^31], one call of
    [predict] invokes the scorer [internal_node_count()] times: never
    when [k <= 1] and [k - 1] times otherwise, with the indices
    [0, 1, ...] in this order, which are those of the internal nodes in
    the order of their identifiers, each one once. *)
Theorem predict_calls k tls w :
  0 ≤ k ≤ 2 ^ 31 →
  ∃ s, predict fmul f0 f1 base_predict (mk_offset_tree (build k)) tls w = Normal s
    ∧ calls s = seqZ 0 (internal_node_count (build k))
    ∧ internal_node_count (build k) = (if bool_decide (k ≤ 1) then 0 else k - 1)
    ∧ Z.add k <$> calls s
      = id <$> filter (λ n, is_leaf n = false) (nodes (build k)).
Proof.
  intros Hk.
  destruct (decide (k = 0)) as [->|Hk0]; [|destruct (decide (k = 1)) as [->|Hk1]].
  - destruct (predict_zero tls w) as (s & -> & _ & Hs & _). exists s. by rewrite Hs.
  - destruct (predict_one tls w) as (s & -> & _ & Hs & _). exists s. by rewrite Hs.
  - destruct (build_shape k ltac:(lia)) as [T Hsh].
    destruct (predict_spec k T tls w ltac:(lia) Hsh) as (s & -> & _ & Hcalls & _).
    exists s. rewrite (shape_internal_node_count k _ T ltac:(lia) Hsh), Hcalls.
    rewrite bool_decide_eq_false_2 by lia. repeat split.
    destruct (build_nodes_spec k ltac:(lia)) as (Hlen & Hnum & _).
    rewrite (internal_ids k) by (done || lia). rewrite Hlen.
    replace (2 * k - 1 - k) with (k - 1) by lia.
    by rewrite fmap_add_seqZ, Z.add_0_r.
Qed.

(** C10, amended. For every leaf count [k] from 2 to [2^31], the second
    loop of [predict] assigns every entry of [scores] once, so the
    vector returned does not depend on what the statics held before
    the call. *)
Theorem predict_writes k tls tls' w :
  2 ≤ k ≤ 2 ^ 31 →
  ∃ s s',
    predict fmul f0 f1 base_predict (mk_offset_tree (build k)) tls w = Normal s
    ∧ predict fmul f0 f1 base_predict (mk_offset_tree (build k)) tls' w = Normal s'
    ∧ writes s ≡ₚ seqZ 0 k
    ∧ scores (statics s) = scores (statics s').
Proof.
  intros Hk. destruct (build_shape k ltac:(lia)) as [T Hsh].
  destruct (predict_spec k T tls w Hk Hsh) as (s & -> & Hinv & _).
  destruct (predict_spec k T tls' w Hk Hsh) as (s' & -> & Hinv' & _).
  exists s, s'. split; [done|]. split; [done|]. split.
  - by apply (inv_end_writes fmul f1 k (build k) T Hk Hsh (node_answer k w)).
  - apply list_eq. intros i.
    destruct (decide (i < Z.to_nat k)%nat) as [Hi|Hi].
    + destruct (predict_scores_lookup k T w s (Z.of_nat i) Hk Hsh Hinv ltac:(lia))
        as (_ & bs & _ & Huniq & Hs).
      destruct (predict_scores_lookup k T w s' (Z.of_nat i) Hk Hsh Hinv' ltac:(lia))
        as (_ & bs' & Hpath' & _ & Hs').
      rewrite Nat2Z.id in Hs, Hs'. rewrite Hs, Hs'. by rewrite (Huniq _ Hpath').
    + rewrite !lookup_ge_None_2; [done|..].
      * rewrite (inv_scores _ _ _ _ _ _ _ Hinv'). lia.
      * rewrite (inv_scores _ _ _ _ _ _ _ Hinv). lia.
Qed.

End prediction.

(** *** The leaves of a term and their paths *)

(** The leaves of a term, left to right, each with the branches that
    lead to it, [bs] being those that lead to the term. *)
Fixpoint leaf_paths (S : btree) (bs : list (Z * side))
  : list (Z * list (Z * side)) :=
  match S with
  | Leaf c => [(c, bs)]
  | Node n l r =>
      leaf_paths l (bs ++ [(n, to_left)]) ++ leaf_paths r (bs ++ [(n, to_right)])
  end.

Lemma leaf_paths_subtree T S : ∀ bs c p,
  subtree_at T bs = Some S → (c, p) ∈ leaf_paths S bs →
  subtree_at T p = Some (Leaf c).
Proof.
  induction S as [i|n l IHl r IHr]; intros bs c p HS; simpl.
  - by intros [= -> ->]%list_elem_of_singleton.
  - intros [Hin|Hin]%elem_of_app.
    + eapply IHl; [|done]. apply subtree_at_snoc. by exists l, r.
    + eapply IHr; [|done]. apply subtree_at_snoc. by exists l, r.
Qed.

Lemma leaf_paths_ids S bs : (leaf_paths S bs).*1 `sublist_of` ids S.
Proof.
  revert bs. induction S as [i|n l IHl r IHr]; intros bs; simpl; [done|].
  rewrite fmap_app. apply sublist_cons. by apply sublist_app.
Qed.

Lemma leaf_paths_cover T bs c :
  subtree_at T bs = Some (Leaf c) → (c, bs) ∈ leaf_paths T [].
Proof.
  assert (∀ S pre bs, subtree_at S bs = Some (Leaf c) →
            (c, pre ++ bs) ∈ leaf_paths S pre) as H.
  { induction S as [i|n l IHl r IHr]; intros pre bs'; simpl.
    - destruct bs' as [|[]]; [|done]. intros [= ->]. rewrite app_nil_r.
      by apply list_elem_of_singleton.
    - destruct bs' as [|[a sd] bs']; simpl; [done|]. case_decide; [|done].
      subst a. intros HS. apply elem_of_app.
      rewrite (cons_middle _ pre), app_assoc.
      destruct sd; [left; by apply IHl|right; by apply IHr]. }
  intros HS. by apply (H T [] bs).
Qed.

Lemma vector_as_map {A : Type} (f0 : A) (v : list A) :
  v = (λ c, default f0 (v !! Z.to_nat c)) <$> seqZ 0 (Z.of_nat (length v)).
Proof.
  apply list_eq. intros i. rewrite list_lookup_fmap.
  destruct (decide (i < length v)%nat) as [Hi|Hi].
  - rewrite lookup_seqZ_lt by lia. rewrite Z.add_0_l.
    cbn [fmap option_fmap option_map]. rewrite Nat2Z.id.
    by destruct (lookup_lt_is_Some_2 v i Hi) as [x ->].
  - rewrite lookup_seqZ_ge by lia. by rewrite lookup_ge_None_2 by lia.
Qed.

(** ** Beyond [2^31] leaves: the first call of [predict] on a thread *)

Lemma internal_node_count_build k :
  1 ≤ k < 2 ^ 32 → internal_node_count (build k) = k - 1.
Proof.
  intros Hk. destruct (build_numbered k ltac:(lia)) as (Hlen & _ & Hnum).
  unfold internal_node_count. rewrite Hlen, Hnum. unfold size_t, uint32_t.
  rewrite (Z.mod_small (2 * k - 1 - k)) by lia. rewrite Z.mod_small; lia.
Qed.

Lemma predict_overflow {float World : Type} (fmul : float → float → float)
    (f0 f1 : float) (base_predict : World → Z → World * (float * float)) k w :
  2 ^ 31 < k < 2 ^ 32 →
  predict fmul f0 f1 base_predict (mk_offset_tree (build k)) None w
  = Throw length_error.
Proof.
  intros Hk. destruct (build_numbered k ltac:(lia)) as (Hlen & _ & Hnum).
  pose proof (internal_node_count_build k ltac:(lia)) as Hcount.
  assert (int32_t (k - 1) = k - 1 - 2 ^ 32) as Hint.
  { unfold int32_t.
    rewrite <-(Z.mod_unique_pos (k - 1 + 2 ^ 31) (2 ^ 32) 1 (k - 1 - 2 ^ 31)); lia. }
  assert (size_t (k - 1 - 2 ^ 32) = k - 1 - 2 ^ 32 + 2 ^ 64) as Hsize.
  { unfold size_t. symmetry.
    apply (Z.mod_unique_pos _ _ (-1)); lia. }
  unfold predict, init_statics, learner_count. cbn [binary_tree].
  rewrite Hcount, Hint. unfold vector_n. rewrite Hsize.
  change ((2 ^ 63 - 1) `div` 8) with 1152921504606846975.
  by rewrite (bool_decide_eq_false_2 (k - 1 - 2 ^ 32 + 2 ^ 64 ≤ _)) by lia.
Qed.

(** A scorer for the examples: scores are integers, the world is empty,
    and the pair for the index [idx] is [(idx + 1, - idx)]. *)
Definition example_scorer (w : unit) (idx : Z) : unit * (Z * Z) :=
  (w, (idx + 1, - idx)).

(** C1, as the claim states it, fails at [k = 2^31 + 1]: [learner_count()]
    is negative there, and the first call of [predict] on a thread throws
    [std::length_error] when it initialises [prediction_buffer], before
    any score is computed. *)
Lemma predict_scores_beyond :
  predict Z.mul 0 1 example_scorer (mk_offset_tree (build (2 ^ 31 + 1))) None tt
  = Throw length_error.
Proof. apply predict_overflow. lia. Qed.

(** C4, as the claim states it, fails at [k = 2^31 + 1]: the tree has
    [2^31] internal nodes, and the first call of [predict] on a thread
    throws before it invokes the scorer. *)
Lemma predict_calls_beyond :
  internal_node_count (build (2 ^ 31 + 1)) = 2 ^ 31
  ∧ ¬ ∃ s, predict Z.mul 0 1 example_scorer
             (mk_offset_tree (build (2 ^ 31 + 1))) None tt = Normal s
           ∧ calls s = seqZ 0 (2 ^ 31).
Proof.
  split.
  - rewrite internal_node_count_build; lia.
  - intros (s & Hs & _). by rewrite predict_overflow in Hs by lia.
Qed.

(** C10, as the claim states it, fails at [k = 2^31 + 1]: the first call
    of [predict] on a thread throws before it assigns any score. *)
Lemma predict_writes_beyond :
  ¬ ∃ s, predict Z.mul 0 1 example_scorer
           (mk_offset_tree (build (2 ^ 31 + 1))) None tt = Normal s
         ∧ writes s ≡ₚ seqZ 0 (2 ^ 31 + 1).
Proof.
  intros (s & Hs & _). by rewrite predict_overflow in Hs by lia.
Qed.

Lemma predict_scores_witness :
  ∃ s, predict Z.mul 0 1 example_scorer (mk_offset_tree (build 3)) None tt = Normal s
    ∧ Z.of_nat (length (scores (statics s))) = 3
    ∧ (3 = 0 → scores (statics s) = [])
    ∧ (3 = 1 → scores (statics s) = [1])
    ∧ ∀ i, 0 ≤ i < 3 →
        leaf_at (nodes (build 3)) i
        ∧ ∃ bs, path (nodes (build 3)) (root_idx (build 3)) bs i
            ∧ (∀ bs', path (nodes (build 3)) (root_idx (build 3)) bs' i → bs' = bs)
            ∧ scores (statics s) !! Z.to_nat i
              = Some (path_product Z.mul 1 (node_answer example_scorer 3 tt) bs).
Proof. apply (predict_scores Z.mul 0 1 example_scorer 3 None tt). lia. Defined.

Lemma predict_calls_witness :
  ∃ s, predict Z.mul 0 1 example_scorer (mk_offset_tree (build 3)) None tt = Normal s
    ∧ calls s = seqZ 0 (internal_node_count (build 3))
    ∧ internal_node_count (build 3) = (if bool_decide (3 ≤ 1) then 0 else 3 - 1)
    ∧ Z.add 3 <$> calls s
      = id <$> filter (λ n, is_leaf n = false) (nodes (build 3)).
Proof. apply (predict_calls Z.mul 0 1 example_scorer 3 None tt). lia. Defined.

Lemma predict_writes_witness :
  ∃ s s',
    predict Z.mul 0 1 example_scorer (mk_offset_tree (build 3)) None tt = Normal s
    ∧ predict Z.mul 0 1 example_scorer (mk_offset_tree (build 3))
        (Some (mk_thread_local [(7, 7)] [5; 5; 5; 5])) tt = Normal s'
    ∧ writes s ≡ₚ seqZ 0 3
    ∧ scores (statics s) = scores (statics s').
Proof.
  apply (predict_writes Z.mul 0 1 example_scorer 3 None
           (Some (mk_thread_local [(7, 7)] [5; 5; 5; 5])) tt).
  lia.
Defined.

(** The scenario of four leaves: the scorer answers [(0.6, 0.4)] for
    node 4, [(0.3, 0.7)] for node 5 and [(0.9, 0.1)] for the root 6,
    here in tenths, and the scores are 0.54, 0.36, 0.03 and 0.07, in
    hundredths. *)
Definition tenths_scorer (w : unit) (idx : Z) : unit * (Z * Z) :=
  (w, if idx =? 0 then (6, 4) else if idx =? 1 then (3, 7) else (9, 1)).

Example build_4 :
  build 4 = mk_tree [mk_node 0 0 0 true; mk_node 1 0 0 true; mk_node 2 0 0 true;
                     mk_node 3 0 0 true; mk_node 4 0 1 false; mk_node 5 2 3 false;
                     mk_node 6 4 5 false] 6 4 true.
Proof. reflexivity. Qed.

Example predict_4 :
  ∃ s, predict Z.mul 0 1 tenths_scorer (mk_offset_tree (build 4)) None tt = Normal s
       ∧ scores (statics s) = [54; 36; 3; 7] ∧ calls s = [0; 1; 2].
Proof. by eexists. Qed.

(** What the examples compute: the tree of three leaves, and its scores
    for [example_scorer], whose pairs are [(1, 0)] at node 3 and
    [(2, -1)] at the root 4. *)
Example build_3 :
  build 3 = mk_tree [mk_node 0 0 0 true; mk_node 1 0 0 true; mk_node 2 0 0 true;
                     mk_node 3 0 1 false; mk_node 4 3 2 false] 4 3 true.
Proof. reflexivity. Qed.

Example predict_3 :
  predict Z.mul 0 1 example_scorer (mk_offset_tree (build 3)) None tt
  = Normal (mk_run (mk_thread_local [(2, 0); (2, -1)] [2; 0; -1]) tt [0; 1] [2; 0; 1]).
Proof. reflexivity. Qed.

(** ** Depth *)

(** The number of leaves of a term. *)
Fixpoint leaves (T : btree) : Z :=
  match T with
  | Leaf _ => 1
  | Node _ l r => leaves l + leaves r
  end.

Lemma height_nonneg T : 0 ≤ height T.
Proof. induction T; simpl; lia. Qed.

Lemma subtree_at_height T bs S :
  subtree_at T bs = Some S → Z.of_nat (length bs) + height S ≤ height T.
Proof.
  revert T. induction bs as [|[a sd] bs IH]; intros T; simpl.
  - intros [= <-]. lia.
  - destruct T as [i|n l r]; [done|]. case_decide; [|done].
    intros HS%IH. cbn [height]. destruct sd; simpl in HS; lia.
Qed.

Lemma deepest_leaf T :
  ∃ bs c, subtree_at T bs = Some (Leaf c) ∧ Z.of_nat (length bs) = height T.
Proof.
  induction T as [i|n l (bl & cl & Hl & Hhl) r (br & cr & Hr & Hhr)].
  - by exists [], i.
  - destruct (Z.le_ge_cases (height l) (height r)).
    + exists ((n, to_right) :: br), cr. simpl. rewrite decide_True by done.
      split; [done|]. lia.
    + exists ((n, to_left) :: bl), cl. simpl. rewrite decide_True by done.
      split; [done|]. lia.
Qed.

(** A binary tree of height [h] has at most [2^h] leaves. *)
Lemma leaves_height T : leaves T ≤ 2 ^ height T.
Proof.
  induction T as [i|n l IHl r IHr]; simpl; [done|].
  pose proof (height_nonneg l). pose proof (height_nonneg r).
  rewrite Z.pow_add_r, Z.pow_1_r by lia.
  assert (2 ^ height l ≤ 2 ^ (height l `max` height r))
    by (apply Z.pow_le_mono_r; lia).
  assert (2 ^ height r ≤ 2 ^ (height l `max` height r))
    by (apply Z.pow_le_mono_r; lia).
  lia.
Qed.

(** C5, as the claim states it, fails at [k = 5]: the fifth leaf is
    carried through two rounds and ends up a child of the root, two
    levels above the other four. *)
Lemma build_5_depths :
  ¬ ∀ i j bs bs',
      leaf_at (nodes (build 5)) i → leaf_at (nodes (build 5)) j →
      path (nodes (build 5)) (root_idx (build 5)) bs i →
      path (nodes (build 5)) (root_idx (build 5)) bs' j →
      Z.abs (Z.of_nat (length bs) - Z.of_nat (length bs')) ≤ 1.
Proof.
  intros H.
  specialize (H 0 4 [(8, to_left); (7, to_left); (5, to_left)] [(8, to_right)]).
  replace (build 5) with
    (mk_tree [mk_node 0 0 0 true; mk_node 1 0 0 true; mk_node 2 0 0 true;
              mk_node 3 0 0 true; mk_node 4 0 0 true; mk_node 5 0 1 false;
              mk_node 6 2 3 false; mk_node 7 5 6 false; mk_node 8 7 4 false]
             8 5 true) in H by by vm_compute.
  cbn [nodes root_idx] in H.
  assert (Z.abs (Z.of_nat 3 - Z.of_nat 1) ≤ 1) as Habs; [|simpl in Habs; lia].
  apply H.
  - by eexists.
  - by eexists.
  - repeat (econstructor; [reflexivity|reflexivity|]; cbn [child left_id right_id]).
    constructor.
  - repeat (econstructor; [reflexivity|reflexivity|]; cbn [child left_id right_id]).
    constructor.
Qed.

(** C5, amended. For every leaf count [k] from 1 to [2^31], the largest
    number of edges from the root of the built tree to a leaf is
    [ceil(log2 k)] (which is [log2 k] for a power of two), and no binary
    tree with [k] leaves has a smaller one. *)
Theorem build_depth k :
  1 ≤ k ≤ 2 ^ 31 →
  let t := build k in
  (∀ i bs, leaf_at (nodes t) i → path (nodes t) (root_idx t) bs i →
           Z.of_nat (length bs) ≤ Z.log2_up k)
  ∧ (∃ i bs, leaf_at (nodes t) i ∧ path (nodes t) (root_idx t) bs i
             ∧ Z.of_nat (length bs) = Z.log2_up k)
  ∧ (∀ T, leaves T = k → Z.log2_up k ≤ height T).
Proof.
  intros Hk t. destruct (build_shape k Hk) as [T Hsh]. fold t in Hsh.
  pose proof (shape_stored _ _ _ Hsh) as Hst.
  split; [|split].
  - intros i bs _ Hpath. rewrite (shape_root _ _ _ Hsh) in Hpath.
    apply (path_subtree _ _ _ _ Hst) in Hpath as (S & HS%subtree_at_height & _).
    pose proof (height_nonneg S). rewrite <-(shape_height _ _ _ Hsh). lia.
  - destruct (deepest_leaf T) as (bs & c & HS & Hlen).
    exists c, bs. split; [|split].
    + exists (node_of (Leaf c)). split; [|done].
      by apply (stored_root _ (Leaf c)), (subtree_at_stored _ _ _ _ Hst HS).
    + rewrite (shape_root _ _ _ Hsh). apply (path_subtree _ _ _ _ Hst).
      by exists (Leaf c).
    + by rewrite Hlen, (shape_height _ _ _ Hsh).
  - intros T' <-. apply Z.log2_up_le_pow2.
    + clear. induction T'; simpl; lia.
    + apply leaves_height.
Qed.

Lemma build_depth_witness :
  let t := build 5 in
  (∀ i bs, leaf_at (nodes t) i → path (nodes t) (root_idx t) bs i →
           Z.of_nat (length bs) ≤ Z.log2_up 5)
  ∧ (∃ i bs, leaf_at (nodes t) i ∧ path (nodes t) (root_idx t) bs i
             ∧ Z.of_nat (length bs) = Z.log2_up 5)
  ∧ (∀ T, leaves T = 5 → Z.log2_up 5 ≤ height T).
Proof. apply (build_depth 5). lia. Defined.

(** * The sum of the scores in [float]

    [float] is IEEE 754 binary32 with the default rounding, to nearest,
    ties to even. A finite value that is not zero is written
    [(-1)^sign * m * 2^e], where either [2^23 <= m < 2^24] and
    [-149 <= e <= 104] (normal) or [0 < m < 2^23] and [e = -149]
    (subnormal); the payload and the sign of a NaN are left out, since no
    operation of the source observes them. A product is rounded to
    [float] when it is computed, as it is where [FLT_EVAL_METHOD] is 0. *)
Inductive binary32 : Type :=
| B32_nan
| B32_infinity (sign : bool)
| B32_zero (sign : bool)
| B32_finite (sign : bool) (m e : Z).

#[global] Instance binary32_eq_dec : EqDecision binary32.
Proof. solve_decision. Defined.

(** The mantissa and the exponent of [x] are those of a value of
    [float]. *)
Definition b32_wf (x : binary32) : bool :=
  match x with
  | B32_finite _ m e =>
      ((2 ^ 23 <=? m) && (m <? 2 ^ 24) && (-149 <=? e) && (e <=? 104))
      || ((0 <? m) && (m <? 2 ^ 23) && (e =? -149))
  | _ => true
  end.

(** [n * 2^c] for [0 < n], rounded to a mantissa and an exponent: the
    exponent is the one that leaves 24 bits, or [-149] if that is
    larger, and the mantissa is rounded to nearest, ties to even. *)
Definition b32_round_mantissa (n c : Z) : Z * Z :=
  let q := Z.max (c + Z.log2 n - 23) (-149) in
  if q <=? c then (n * 2 ^ (c - q), q)
  else
    let d := q - c in
    let m := n / 2 ^ d in
    let r := n mod 2 ^ d in
    let half := 2 ^ (d - 1) in
    (if (half <? r) || ((r =? half) && Z.odd m) then m + 1 else m, q).

(** The value of [float] nearest to [(-1)^sign * n * 2^c], for [0 <= n]. *)
Definition b32_round (sign : bool) (n c : Z) : binary32 :=
  if n =? 0 then B32_zero sign
  else
    let '(m, q) := b32_round_mantissa n c in
    if m =? 0 then B32_zero sign
    else
      let '(m, q) := if m =? 2 ^ 24 then (2 ^ 23, q + 1) else (m, q) in
      if 104 <? q then B32_infinity sign else B32_finite sign m q.

(** [x * y] in [float]. *)
Definition b32_mul (x y : binary32) : binary32 :=
  match x, y with
  | B32_nan, _ | _, B32_nan => B32_nan
  | B32_infinity _, B32_zero _ | B32_zero _, B32_infinity _ => B32_nan
  | B32_infinity s, B32_infinity s'
  | B32_infinity s, B32_finite s' _ _
  | B32_finite s _ _, B32_infinity s' => B32_infinity (xorb s s')
  | B32_zero s, B32_zero s'
  | B32_zero s, B32_finite s' _ _
  | B32_finite s _ _, B32_zero s' => B32_zero (xorb s s')
  | B32_finite s m e, B32_finite s' m' e' => b32_round (xorb s s') (m * m') (e + e')
  end.

(** [(-1)^sign * n]. *)
Definition signed (sign : bool) (n : Z) : Z := if sign then - n else n.

(** [x + y] in [float]. *)
Definition b32_add (x y : binary32) : binary32 :=
  match x, y with
  | B32_nan, _ | _, B32_nan => B32_nan
  | B32_infinity s, B32_infinity s' => if Bool.eqb s s' then B32_infinity s else B32_nan
  | B32_infinity s, _ | _, B32_infinity s => B32_infinity s
  | B32_zero s, B32_zero s' => B32_zero (s && s')
  | B32_zero _, _ => y
  | _, B32_zero _ => x
  | B32_finite s m e, B32_finite s' m' e' =>
      let c := e `min` e' in
      let n := signed s (m * 2 ^ (e - c)) + signed s' (m' * 2 ^ (e' - c)) in
      if n =? 0 then B32_zero false else b32_round (n <? 0) (Z.abs n) c
  end.

(** [x == y] in [float]. *)
Definition b32_eqb (x y : binary32) : bool :=
  match x, y with
  | B32_zero _, B32_zero _ => true
  | B32_infinity s, B32_infinity s' => Bool.eqb s s'
  | B32_finite s m e, B32_finite s' m' e' => Bool.eqb s s' && (m =? m') && (e =? e')
  | _, _ => false
  end.

(** [0.0f] and [1.0f]. *)
Definition b32_zero : binary32 := B32_zero false.
Definition b32_one : binary32 := B32_finite false (2 ^ 23) (-23).

(** The value of a finite [x] in units of [2^-149], the least positive
    value of [float]. *)
Definition b32_units (x : binary32) : Z :=
  match x with
  | B32_finite s m e => signed s (m * 2 ^ (e + 149))
  | _ => 0
  end.

(** [x] is a value of [float] between 0 and 1. *)
Definition b32_probability (x : binary32) : bool :=
  match x with
  | B32_zero _ => true
  | B32_finite false _ _ => b32_wf x && (b32_units x <=? 2 ^ 149)
  | _ => false
  end.

(** The contract of the scorer on a pair: two probabilities whose sum in
    [float] compares equal to [1.0f]. *)
Definition b32_distribution (p : binary32 * binary32) : bool :=
  b32_probability p.1 && b32_probability p.2 && b32_eqb (b32_add p.1 p.2) b32_one.

(** The sum of the values of a vector of finite scores, in units of
    [2^-149]. It is exact: nothing is rounded. *)
Definition sum_units (v : list binary32) : Z := foldr (λ x s, b32_units x + s) 0 v.

(** [0.9f] is [0x3F666666] and [0.1f] is [0x3DCCCCCD]. *)
Definition f_0_9 : binary32 := B32_finite false 15099494 (-24).
Definition f_0_1 : binary32 := B32_finite false 13421773 (-27).

(** The scorer that answers [(0.9f, 0.1f)] at every node. *)
Definition biased_scorer (w : unit) (idx : Z) : unit * (binary32 * binary32) :=
  (w, (f_0_9, f_0_1)).

(** [16777216.0f], which is [2^24], and [-16777215.0f]. *)
Definition f_2_24 : binary32 := B32_finite false (2 ^ 23) 1.
Definition f_1_minus_2_24 : binary32 := B32_finite true (2 ^ 24 - 1) 0.

(** The scorer that answers [(16777216.0f, -16777215.0f)] at every node. *)
Definition unbounded_scorer (w : unit) (idx : Z) : unit * (binary32 * binary32) :=
  (w, (f_2_24, f_1_minus_2_24)).

(** ** Rounding *)

Lemma pow2_split a b : 0 ≤ a → 0 ≤ b → 2 ^ (a + b) = 2 ^ a * 2 ^ b.
Proof. intros. by rewrite Z.pow_add_r. Qed.

Lemma pow2_pos a : 0 ≤ a → 0 < 2 ^ a.
Proof. intros. by apply Z.pow_pos_nonneg. Qed.

Lemma b32_round_mantissa_spec n c :
  0 < n → -298 ≤ c →
  let m := (b32_round_mantissa n c).1 in
  let q := (b32_round_mantissa n c).2 in
  -149 ≤ q ∧ c + Z.log2 n - 23 ≤ q
  ∧ 0 ≤ m ≤ 2 ^ 24
  ∧ (m < 2 ^ 23 → q = -149)
  ∧ 2 * Z.abs (m * 2 ^ (q + 298) - n * 2 ^ (c + 298)) ≤ 2 ^ (q + 298)
  ∧ 2 ^ 23 * 2 ^ (q + 298) ≤ n * 2 ^ (c + 298) + 2 ^ 172.
Proof.
  intros Hn Hc. unfold b32_round_mantissa.
  pose proof (Z.log2_spec n Hn) as HL. pose proof (Z.log2_nonneg n) as HL0.
  set (L := Z.log2 n) in *. rewrite Z.pow_succ_r in HL by done.
  set (q := Z.max (c + L - 23) (-149)).
  pose proof (pow2_pos L HL0) as HpL.
  pose proof (pow2_pos (c + 298) ltac:(lia)) as Hpc.
  assert (2 ^ 23 * 2 ^ (q + 298) ≤ n * 2 ^ (c + 298) + 2 ^ 172) as Hquantum.
  { destruct (Z.max_spec (c + L - 23) (-149)) as [[_ Hq]|[_ Hq]]; fold q in Hq.
    - rewrite Hq. change (2 ^ 23 * 2 ^ (-149 + 298)) with (2 ^ 172). nia.
    - rewrite <-pow2_split by lia. replace (23 + (q + 298)) with (L + (c + 298)) by lia.
      rewrite pow2_split by lia. nia. }
  destruct (Z.leb_spec q c) as [Hqc|Hqc]; cbn [fst snd].
  - assert (n * 2 ^ (c - q) * 2 ^ (q + 298) = n * 2 ^ (c + 298)) as Hexact.
    { rewrite <-Z.mul_assoc, <-pow2_split by lia. do 2 f_equal. lia. }
    rewrite Hexact, Z.sub_diag. cbn [Z.abs].
    pose proof (pow2_pos (c - q) ltac:(lia)) as Hp.
    pose proof (pow2_pos (q + 298) ltac:(lia)) as Hpq.
    split; [lia|]. split; [lia|]. split; [|split; [|split; [lia|done]]].
    + destruct (Z.max_spec (c + L - 23) (-149)) as [[Hlt Hq]|[Hlt Hq]]; fold q in Hq.
      * assert (2 ^ (L + 1 + (c - q)) ≤ 2 ^ 23) as Hle
          by (apply Z.pow_le_mono_r; lia).
        rewrite pow2_split, pow2_split in Hle by lia. change (2 ^ 1) with 2 in Hle. nia.
      * assert (2 ^ L * 2 ^ (c - q) = 2 ^ 23) as Heq.
        { rewrite <-pow2_split by lia. f_equal. lia. }
        nia.
    + intros Hm. destruct (Z.max_spec (c + L - 23) (-149)) as [[Hlt Hq]|[Hlt Hq]];
        fold q in Hq; [done|].
      assert (2 ^ L * 2 ^ (c - q) = 2 ^ 23) as Heq.
      { rewrite <-pow2_split by lia. f_equal. lia. }
      nia.
  - set (d := q - c). assert (0 < d) as Hd by (unfold d; lia).
    pose proof (pow2_pos (d - 1) ltac:(lia)) as Hhalf.
    assert (2 ^ d = 2 * 2 ^ (d - 1)) as Hdd.
    { rewrite <-Z.pow_succ_r by lia. f_equal. lia. }
    pose proof (Z.div_mod n (2 ^ d) ltac:(lia)) as Hdiv.
    pose proof (Z.mod_pos_bound n (2 ^ d) ltac:(lia)) as Hmod.
    set (m0 := n / 2 ^ d) in *. set (r := n mod 2 ^ d) in *.
    set (half := 2 ^ (d - 1)) in *.
    match goal with
    | |- context [if ?b then m0 + 1 else m0] => set (m := if b then m0 + 1 else m0)
    end.
    assert (m0 ≤ m ≤ m0 + 1 ∧ 2 * Z.abs (m * 2 ^ d - n) ≤ 2 ^ d) as [Hm Herr].
    { subst m. destruct (Z.ltb_spec half r), (Z.eqb_spec r half), (Z.odd m0);
        cbn [orb andb]; lia. }
    assert (2 ^ (q + 298) = 2 ^ d * 2 ^ (c + 298)) as Hq.
    { rewrite <-pow2_split by lia. f_equal. unfold d. lia. }
    pose proof (Z.div_pos n (2 ^ d) ltac:(lia) ltac:(lia)) as Hm0. fold m0 in Hm0.
    split; [lia|]. split; [lia|]. split; [|split; [|split; [|done]]].
    + destruct (Z.max_spec (c + L - 23) (-149)) as [[Hlt Hq']|[Hlt Hq']]; fold q in Hq'.
      * assert (2 ^ (L + 1) ≤ 2 ^ (23 + d)) as Hle
          by (apply Z.pow_le_mono_r; unfold d; lia).
        rewrite !pow2_split in Hle by lia. change (2 ^ 1) with 2 in Hle. nia.
      * assert (2 ^ L = 2 ^ 23 * 2 ^ d) as Heq.
        { rewrite <-pow2_split by lia. f_equal. unfold d. lia. }
        nia.
    + intros Hm23. destruct (Z.max_spec (c + L - 23) (-149)) as [[Hlt Hq']|[Hlt Hq']];
        fold q in Hq'; [done|].
      assert (2 ^ L = 2 ^ 23 * 2 ^ d) as Heq.
      { rewrite <-pow2_split by lia. f_equal. unfold d. lia. }
      nia.
    + rewrite Hq. nia.
Qed.

Lemma b32_round_mantissa_exponent n c :
  (b32_round_mantissa n c).2 = Z.max (c + Z.log2 n - 23) (-149).
Proof. unfold b32_round_mantissa. by destruct (_ <=? c). Qed.

Lemma b32_wf_finite s m e :
  b32_wf (B32_finite s m e) = true
  ↔ (2 ^ 23 ≤ m < 2 ^ 24 ∧ -149 ≤ e ≤ 104) ∨ (0 < m < 2 ^ 23 ∧ e = -149).
Proof.
  unfold b32_wf.
  rewrite orb_true_iff, !andb_true_iff, !Z.leb_le, !Z.ltb_lt, Z.eqb_eq. lia.
Qed.

Lemma b32_probability_finite s m e :
  b32_probability (B32_finite s m e) = true
  ↔ s = false ∧ b32_wf (B32_finite s m e) = true ∧ m * 2 ^ (e + 149) ≤ 2 ^ 149.
Proof.
  destruct s; cbn [b32_probability b32_units signed]; [naive_solver|].
  rewrite andb_true_iff, Z.leb_le. naive_solver.
Qed.

(** Rounding gives a value of [float], whose distance to the exact value
    is at most half of the last place. *)
Lemma b32_round_units n c :
  0 < n → -298 ≤ c →
  let r := b32_round false n c in
  let m := (b32_round_mantissa n c).1 in
  let q := (b32_round_mantissa n c).2 in
  r = B32_infinity false ∧ 104 ≤ q
  ∨ b32_wf r = true ∧ b32_units r = m * 2 ^ (q + 149)
    ∧ (r = B32_zero false ∨ ∃ m' q', r = B32_finite false m' q').
Proof.
  intros Hn Hc. pose proof (b32_round_mantissa_spec n c Hn Hc) as Hspec.
  unfold b32_round. rewrite (proj2 (Z.eqb_neq n 0)) by lia.
  destruct (b32_round_mantissa n c) as [m q]. cbn [fst snd] in *.
  destruct Hspec as (Hq & _ & Hm & Hsub & _).
  destruct (Z.eqb_spec m 0) as [->|Hm0]; [right; by eauto|].
  destruct (Z.eqb_spec m (2 ^ 24)) as [->|Hm24].
  - destruct (Z.ltb_spec 104 (q + 1)); [left; split; [done|lia]|right].
    split; [apply b32_wf_finite; lia|]. split; [|by eauto].
    cbn [b32_units signed]. replace (q + 1 + 149) with (1 + (q + 149)) by lia.
    rewrite pow2_split by lia. change (2 ^ 1) with 2. lia.
  - destruct (Z.ltb_spec 104 q); [left; split; [done|lia]|right].
    split; [apply b32_wf_finite; lia|]. split; [done|by eauto].
Qed.

Lemma b32_round_small n c :
  0 < n → -298 ≤ c → n * 2 ^ (c + 298) ≤ 2 ^ 298 →
  let r := b32_round false n c in
  b32_probability r = true
  ∧ 2 ^ 24 * Z.abs (b32_units r * 2 ^ 149 - n * 2 ^ (c + 298))
    ≤ n * 2 ^ (c + 298) + 2 ^ 172.
Proof.
  intros Hn Hc Hle r.
  pose proof (b32_round_mantissa_spec n c Hn Hc) as (Hq & _ & Hm & _ & Herr & Hquantum).
  pose proof (b32_round_mantissa_exponent n c) as Hexp.
  pose proof (Z.log2_spec n Hn) as [HL _]. pose proof (Z.log2_nonneg n) as HL0.
  assert (c + Z.log2 n ≤ 0) as Hsmall.
  { assert (2 ^ (Z.log2 n + (c + 298)) ≤ 2 ^ 298) as Hpow.
    { rewrite pow2_split by lia. pose proof (pow2_pos (c + 298) ltac:(lia)). nia. }
    apply Z.pow_le_mono_r_iff in Hpow; lia. }
  destruct (b32_round_units n c Hn Hc) as [[_ ?]|(Hwf & Hunits & Hr)]; [lia|].
  fold r in Hwf, Hunits, Hr.
  set (m := (b32_round_mantissa n c).1) in *. set (q := (b32_round_mantissa n c).2) in *.
  pose proof (pow2_pos (q + 298) ltac:(lia)) as Hpq.
  assert (b32_units r * 2 ^ 149 = m * 2 ^ (q + 298)) as HY.
  { rewrite Hunits, <-Z.mul_assoc. change (2 ^ 149) with (2 ^ (0 + 149)) at 1.
    rewrite <-(pow2_split (q + 149)) by lia. do 2 f_equal. lia. }
  assert (2 ^ 298 = 2 ^ (- q) * 2 ^ (q + 298)) as HK.
  { rewrite <-pow2_split by lia. f_equal. lia. }
  pose proof (pow2_pos (- q) ltac:(lia)) as HpK.
  assert (m ≤ 2 ^ (- q)) as HmK by nia.
  split; [|rewrite HY; lia].
  destruct Hr as [->|(m' & q' & Hr)]; [done|]. rewrite Hr.
  apply b32_probability_finite. split; [done|]. split; [by rewrite <-Hr|].
  rewrite Hr in HY. cbn [b32_units signed] in HY.
  change (2 ^ 298) with (2 ^ 149 * 2 ^ 149) in HK. nia.
Qed.

Lemma b32_eqb_one x : b32_eqb x b32_one = true → x = b32_one.
Proof.
  destruct x as [| | |s m e]; try done. cbn [b32_eqb b32_one].
  rewrite !andb_true_iff, !Z.eqb_eq. intros [[Hs ->] ->].
  by destruct s.
Qed.

Lemma b32_round_one n c :
  0 < n → -298 ≤ c → b32_round false n c = b32_one →
  2 ^ 24 * Z.abs (2 ^ 298 - n * 2 ^ (c + 298)) ≤ n * 2 ^ (c + 298) + 2 ^ 172.
Proof.
  intros Hn Hc Hone.
  pose proof (b32_round_mantissa_spec n c Hn Hc) as (Hq & _ & Hm & _ & Herr & Hquantum).
  destruct (b32_round_units n c Hn Hc) as [[Hinf _]|(_ & Hunits & _)];
    [by rewrite Hone in Hinf|].
  rewrite Hone in Hunits.
  set (m := (b32_round_mantissa n c).1) in *. set (q := (b32_round_mantissa n c).2) in *.
  assert (2 ^ 298 = m * 2 ^ (q + 298)) as ->; [|lia].
  change (2 ^ 298) with (b32_units b32_one * 2 ^ 149).
  rewrite Hunits, <-Z.mul_assoc. change (2 ^ 149) with (2 ^ (0 + 149)) at 1.
  rewrite <-(pow2_split (q + 149)) by lia. do 2 f_equal. lia.
Qed.

(** The product of two probabilities in [float] is a probability, and
    it differs from the exact product by at most [2^-24] of it plus
    [2^-150]. *)
Lemma b32_mul_probability x y :
  b32_probability x = true → b32_probability y = true →
  b32_probability (b32_mul x y) = true
  ∧ 2 ^ 24 * Z.abs (b32_units (b32_mul x y) * 2 ^ 149 - b32_units x * b32_units y)
    ≤ b32_units x * b32_units y + 2 ^ 172.
Proof.
  destruct x as [| |sx|sx mx ex], y as [| |sy|sy my ey]; try done;
    try (intros _ _; cbn [b32_mul b32_units b32_probability]; split; [done|lia]).
  intros (-> & [Hx|Hx]%b32_wf_finite & Hxle)%b32_probability_finite
         (-> & [Hy|Hy]%b32_wf_finite & Hyle)%b32_probability_finite;
    cbn [b32_mul b32_units signed xorb];
      (replace (mx * 2 ^ (ex + 149) * (my * 2 ^ (ey + 149)))
         with (mx * my * 2 ^ (ex + ey + 298));
       [apply b32_round_small; [nia|lia|]
       |replace (ex + ey + 298) with ((ex + 149) + (ey + 149)) by lia;
        rewrite pow2_split by lia; lia]);
      (replace (ex + ey + 298) with ((ex + 149) + (ey + 149)) by lia;
       rewrite pow2_split by lia;
       pose proof (pow2_pos (ex + 149) ltac:(lia));
       pose proof (pow2_pos (ey + 149) ltac:(lia));
       change (2 ^ 298) with (2 ^ 149 * 2 ^ 149); nia).
Qed.

(** A pair that satisfies the contract consists of two probabilities
    whose exact sum is 1 up to the rounding of the sum. *)
Lemma b32_distribution_units p :
  b32_distribution p = true →
  b32_probability p.1 = true ∧ b32_probability p.2 = true
  ∧ 2 ^ 24 * Z.abs (2 ^ 298 - (b32_units p.1 + b32_units p.2) * 2 ^ 149)
    ≤ (b32_units p.1 + b32_units p.2) * 2 ^ 149 + 2 ^ 172.
Proof.
  destruct p as [x y]. unfold b32_distribution. cbn [fst snd].
  rewrite !andb_true_iff. intros [[Hx Hy] Hsum%b32_eqb_one].
  split; [done|]. split; [done|].
  destruct x as [| |sx|sx mx ex], y as [| |sy|sy my ey]; try done.
  - cbn [b32_add] in Hsum. rewrite Hsum. cbn [b32_units b32_one signed].
    change (2 ^ 23 * 2 ^ (-23 + 149)) with (2 ^ 149). lia.
  - cbn [b32_add] in Hsum. rewrite Hsum. cbn [b32_units b32_one signed].
    change (2 ^ 23 * 2 ^ (-23 + 149)) with (2 ^ 149). lia.
  - apply b32_probability_finite in Hx as (-> & Hx%b32_wf_finite & _).
    apply b32_probability_finite in Hy as (-> & Hy%b32_wf_finite & _).
    cbn [b32_add signed] in Hsum. cbn [b32_units signed].
    set (c := ex `min` ey) in *.
    pose proof (pow2_pos (ex - c) ltac:(lia)). pose proof (pow2_pos (ey - c) ltac:(lia)).
    set (n := mx * 2 ^ (ex - c) + my * 2 ^ (ey - c)) in *.
    assert (0 < n) as Hn by (unfold n; nia).
    rewrite (proj2 (Z.eqb_neq n 0)), (proj2 (Z.ltb_ge n 0)), Z.abs_eq in Hsum by lia.
    assert ((mx * 2 ^ (ex + 149) + my * 2 ^ (ey + 149)) * 2 ^ 149 = n * 2 ^ (c + 298))
      as ->; [|apply b32_round_one; [done|lia|done]].
    assert (∀ e, -149 ≤ e → c ≤ e →
              2 ^ (e + 149) * 2 ^ 149 = 2 ^ (e - c) * 2 ^ (c + 298)) as Hsplit.
    { intros e He Hce. change (2 ^ 149) with (2 ^ (0 + 149)) at 1.
      rewrite <-!pow2_split by lia. f_equal. lia. }
    pose proof (Hsplit ex ltac:(lia) ltac:(lia)).
    pose proof (Hsplit ey ltac:(lia) ltac:(lia)).
    unfold n. rewrite !Z.mul_add_distr_r, <-!Z.mul_assoc. congruence.
Qed.

(** ** The values as real numbers *)

(** The value of a finite [x] as a real number. *)
Definition b32_real (x : binary32) : R := (IZR (b32_units x) / 2 ^ 149)%R.

Lemma b32_probability_units x : b32_probability x = true → 0 ≤ b32_units x ≤ 2 ^ 149.
Proof.
  destruct x as [| |s|s m e]; try done.
  intros (-> & Hwf%b32_wf_finite & Hle)%b32_probability_finite.
  cbn [b32_units signed]. split; [|done].
  pose proof (pow2_pos (e + 149) ltac:(lia)). nia.
Qed.

Lemma IZR_pow2_149 : IZR (2 ^ 149) = (2 ^ 149)%R.
Proof. rewrite pow_IZR. f_equal. Qed.

Lemma b32_probability_real x :
  b32_probability x = true → (0 <= b32_real x <= 1)%R.
Proof.
  intros [H0 H1]%b32_probability_units. apply IZR_le in H0, H1.
  rewrite IZR_pow2_149 in H1. unfold b32_real.
  split.
  - apply Rmult_le_pos; [done|]. apply Rlt_le, Rinv_0_lt_compat. lra.
  - apply (Rmult_le_reg_r (2 ^ 149)); [lra|]. unfold Rdiv.
    rewrite Rmult_assoc, Rinv_l by lra. lra.
Qed.

Lemma rounding_real (Y X : Z) :
  2 ^ 24 * Z.abs (Y - X) ≤ X + 2 ^ 172 →
  (IZR X / 2 ^ 298 * (1 - / 2 ^ 24) - / 2 ^ 150 <= IZR Y / 2 ^ 298
   <= IZR X / 2 ^ 298 * (1 + / 2 ^ 24) + / 2 ^ 150)%R.
Proof.
  intros H.
  assert (2 ^ 24 * (Y - X) ≤ X + 2 ^ 172) as H1 by lia.
  assert (2 ^ 24 * (X - Y) ≤ X + 2 ^ 172) as H2 by lia.
  apply IZR_le in H1, H2.
  change (2 ^ 24) with (2 ^ Z.of_nat 24) in H1, H2.
  change (2 ^ 172) with (2 ^ Z.of_nat 172) in H1, H2.
  rewrite plus_IZR, mult_IZR, minus_IZR, <-!pow_IZR in H1, H2.
  lra.
Qed.

Lemma b32_mul_real x y :
  b32_probability x = true → b32_probability y = true →
  b32_probability (b32_mul x y) = true
  ∧ (b32_real x * b32_real y * (1 - / 2 ^ 24) - / 2 ^ 150 <= b32_real (b32_mul x y)
     <= b32_real x * b32_real y * (1 + / 2 ^ 24) + / 2 ^ 150)%R.
Proof.
  intros Hx Hy. destruct (b32_mul_probability x y Hx Hy) as [Hxy Herr].
  split; [done|]. apply rounding_real in Herr.
  rewrite !mult_IZR, IZR_pow2_149 in Herr. unfold b32_real. lra.
Qed.

Lemma b32_distribution_real p :
  b32_distribution p = true →
  b32_probability p.1 = true ∧ b32_probability p.2 = true
  ∧ (1 - 2 / 2 ^ 24 <= b32_real p.1 + b32_real p.2 <= 1 + 2 / 2 ^ 24)%R.
Proof.
  intros (H1 & H2 & Herr)%b32_distribution_units.
  split; [done|]. split; [done|]. apply rounding_real in Herr.
  change (2 ^ 298) with (2 ^ Z.of_nat 298) in Herr.
  rewrite mult_IZR, plus_IZR, IZR_pow2_149, <-pow_IZR in Herr. unfold b32_real. lra.
Qed.

(** ** The mass that reaches the leaves *)

(** The sum of the values, in units of [2^-149], of the scores of the
    leaves of [S], when the mass [m] has reached the root of [S]: each
    internal node passes to a child the product of its share with the
    mass, rounded. *)
Fixpoint leaf_mass (prob : Z → binary32 * binary32) (S : btree) (m : binary32) : Z :=
  match S with
  | Leaf _ => b32_units m
  | Node n l r =>
      leaf_mass prob l (b32_mul (prob n).1 m) + leaf_mass prob r (b32_mul (prob n).2 m)
  end.

(** The number of edges of a term. *)
Fixpoint edges (S : btree) : Z :=
  match S with
  | Leaf _ => 0
  | Node _ l r => edges l + edges r + 2
  end.

Lemma edges_nonneg S : 0 ≤ edges S.
Proof. induction S; simpl; lia. Qed.

Lemma edges_ids S : Z.of_nat (length (ids S)) = edges S + 1.
Proof. induction S; simpl; [done|]. rewrite length_app. lia. Qed.

(** What one level of the tree multiplies the sum with, at most and at
    least: the rounding of the sum of the pair and that of a product. *)
Definition growth : R := ((1 + / 2 ^ 24) * (1 + 2 / 2 ^ 24))%R.
Definition shrink : R := ((1 - / 2 ^ 24) * (1 - 2 / 2 ^ 24))%R.

Lemma growth_pow (h : nat) : (1 <= growth ^ h)%R.
Proof. apply pow_R1_Rle. unfold growth. lra. Qed.

Lemma shrink_pow (h : nat) : (0 <= shrink ^ h <= 1)%R.
Proof.
  induction h as [|h IH]; simpl; [lra|].
  assert (0 <= shrink <= 1)%R as Hs by (unfold shrink; lra).
  split; [apply Rmult_le_pos; lra|].
  rewrite <-(Rmult_1_l 1). apply Rmult_le_compat; lra.
Qed.

Lemma leaf_mass_bounds prob k S : ∀ (h : nat) m,
  height S ≤ Z.of_nat h → ordered k S →
  (∀ c, c ∈ ids S → k ≤ c → b32_distribution (prob c) = true) →
  b32_probability m = true →
  (b32_real m * shrink ^ h - IZR (edges S) / 2 ^ 150
   <= IZR (leaf_mass prob S m) / 2 ^ 149
   <= (b32_real m + IZR (edges S) / 2 ^ 150) * growth ^ h)%R.
Proof.
  induction S as [i|n l IHl r IHr]; intros h m Hh Hord Hprob Hm.
  - cbn [leaf_mass edges]. fold (b32_real m).
    pose proof (b32_probability_real m Hm) as Hv.
    pose proof (growth_pow h) as HA. pose proof (shrink_pow h) as HB.
    set (v := b32_real m) in *. set (A := (growth ^ h)%R) in *.
    set (B := (shrink ^ h)%R) in *.
    assert (v * B <= v * 1)%R by (apply Rmult_le_compat_l; lra).
    assert (v * 1 <= v * A)%R by (apply Rmult_le_compat_l; lra).
    lra.
  - cbn [height] in Hh. pose proof (height_nonneg l). pose proof (height_nonneg r).
    destruct h as [|h]; [lia|].
    destruct Hord as (Hn & _ & _ & Hordl & Hordr).
    destruct (b32_distribution_real (prob n)) as (Ha & Hb & Hab).
    { apply Hprob; [apply elem_of_cons; by left|done]. }
    destruct (b32_mul_real (prob n).1 m Ha Hm) as [Hml Hcl].
    destruct (b32_mul_real (prob n).2 m Hb Hm) as [Hmr Hcr].
    assert (∀ c, c ∈ ids l → k ≤ c → b32_distribution (prob c) = true) as Hprobl.
    { intros c Hc. apply Hprob. simpl. rewrite elem_of_cons, elem_of_app. tauto. }
    assert (∀ c, c ∈ ids r → k ≤ c → b32_distribution (prob c) = true) as Hprobr.
    { intros c Hc. apply Hprob. simpl. rewrite elem_of_cons, elem_of_app. tauto. }
    specialize (IHl h _ ltac:(lia) Hordl Hprobl Hml).
    specialize (IHr h _ ltac:(lia) Hordr Hprobr Hmr).
    cbn [leaf_mass edges]. rewrite !plus_IZR.
    pose proof (b32_probability_real _ Ha) as Ha01.
    pose proof (b32_probability_real _ Hb) as Hb01.
    pose proof (b32_probability_real _ Hm) as Hv01.
    pose proof (b32_probability_real _ Hml) as Hcl01.
    pose proof (b32_probability_real _ Hmr) as Hcr01.
    pose proof (IZR_le _ _ (edges_nonneg l)) as Hel.
    pose proof (IZR_le _ _ (edges_nonneg r)) as Her.
    pose proof (growth_pow h) as HA. pose proof (shrink_pow h) as HB.
    change (growth ^ S h)%R with (growth * growth ^ h)%R.
    change (shrink ^ S h)%R with (shrink * shrink ^ h)%R.
    set (a := b32_real (prob n).1) in *. set (b := b32_real (prob n).2) in *.
    set (v := b32_real m) in *.
    set (cl := b32_real (b32_mul (prob n).1 m)) in *.
    set (cr := b32_real (b32_mul (prob n).2 m)) in *.
    set (Fl := (IZR (leaf_mass prob l _) / 2 ^ 149)%R) in *.
    set (Fr := (IZR (leaf_mass prob r _) / 2 ^ 149)%R) in *.
    set (el := IZR (edges l)) in *. set (er := IZR (edges r)) in *.
    set (A := (growth ^ h)%R) in *. set (B := (shrink ^ h)%R) in *.
    replace ((IZR (leaf_mass prob l (b32_mul (prob n).1 m))
              + IZR (leaf_mass prob r (b32_mul (prob n).2 m))) / 2 ^ 149)%R
      with (Fl + Fr)%R by (subst Fl Fr; lra).
    assert (a * v + b * v <= (1 + 2 / 2 ^ 24) * v)%R as Hup.
    { rewrite <-Rmult_plus_distr_r. apply Rmult_le_compat_r; lra. }
    assert ((1 - 2 / 2 ^ 24) * v <= a * v + b * v)%R as Hlow.
    { rewrite <-Rmult_plus_distr_r. apply Rmult_le_compat_r; lra. }
    assert (0 <= el * A)%R by (apply Rmult_le_pos; lra).
    assert (0 <= er * A)%R by (apply Rmult_le_pos; lra).
    unfold growth, shrink. split.
    + assert ((shrink * v - 2 / 2 ^ 150) * B <= (cl + cr) * B)%R as Hstep.
      { apply Rmult_le_compat_r; [lra|]. unfold shrink. lra. }
      assert (v * B <= v * 1)%R by (apply Rmult_le_compat_l; lra).
      unfold shrink in Hstep. lra.
    + assert ((cl + cr) * A <= (growth * v + 2 / 2 ^ 150) * A)%R as Hstep.
      { apply Rmult_le_compat_r; [lra|]. unfold growth. lra. }
      unfold growth in Hstep. lra.
Qed.

(** ** The sum of the scores *)

Lemma sum_units_app v v' : sum_units (v ++ v') = sum_units v + sum_units v'.
Proof. induction v as [|x v IH]; simpl; lia. Qed.

Lemma sum_units_Permutation v v' : v ≡ₚ v' → sum_units v = sum_units v'.
Proof. induction 1; simpl; lia. Qed.

(** The scores of the leaves of a term add up to the mass that the
    products of the term's root pass down. *)
Lemma leaf_paths_mass prob S : ∀ bs,
  bs ≠ [] →
  sum_units ((λ cp, path_product b32_mul b32_one prob cp.2) <$> leaf_paths S bs)
  = leaf_mass prob S (path_product b32_mul b32_one prob bs).
Proof.
  induction S as [i|n l IHl r IHr]; intros bs Hbs; simpl; [lia|].
  rewrite fmap_app, sum_units_app, IHl, IHr by by destruct bs.
  rewrite !path_product_snoc. by destruct bs.
Qed.

Lemma leaf_paths_probability prob k S : ∀ bs,
  bs ≠ [] → ordered k S →
  (∀ c, c ∈ ids S → k ≤ c → b32_distribution (prob c) = true) →
  b32_probability (path_product b32_mul b32_one prob bs) = true →
  Forall (λ cp, b32_probability (path_product b32_mul b32_one prob cp.2) = true)
         (leaf_paths S bs).
Proof.
  induction S as [i|n l IHl r IHr]; intros bs Hbs Hord Hprob Hm; simpl.
  - by apply Forall_singleton.
  - destruct Hord as (Hn & _ & _ & Hordl & Hordr).
    destruct (b32_distribution_units (prob n)) as (Ha & Hb & _).
    { apply Hprob; [apply elem_of_cons; by left|done]. }
    apply Forall_app. split.
    + apply IHl; [by destruct bs|done|..].
      * intros c Hc. apply Hprob. simpl. rewrite elem_of_cons, elem_of_app. tauto.
      * rewrite path_product_snoc. destruct bs; [done|].
        by apply b32_mul_probability.
    + apply IHr; [by destruct bs|done|..].
      * intros c Hc. apply Hprob. simpl. rewrite elem_of_cons, elem_of_app. tauto.
      * rewrite path_product_snoc. destruct bs; [done|].
        by apply b32_mul_probability.
Qed.

(** The sum of the scores of a tree of at most 31 levels. *)
Lemma leaf_mass_total prob k n l r :
  height (Node n l r) ≤ 31 → ordered k (Node n l r) →
  edges (Node n l r) ≤ 2 ^ 32 →
  (∀ c, c ∈ ids (Node n l r) → k ≤ c → b32_distribution (prob c) = true) →
  Z.abs (leaf_mass prob l (prob n).1 + leaf_mass prob r (prob n).2 - 2 ^ 149) ≤ 2 ^ 132.
Proof.
  intros Hh Hord He Hprob. cbn [height edges] in Hh, He.
  destruct Hord as (Hn & _ & _ & Hordl & Hordr).
  destruct (b32_distribution_real (prob n)) as (Ha & Hb & Hab).
  { apply Hprob; [apply elem_of_cons; by left|done]. }
  assert (∀ c, c ∈ ids l → k ≤ c → b32_distribution (prob c) = true) as Hprobl.
  { intros c Hc. apply Hprob. simpl. rewrite elem_of_cons, elem_of_app. tauto. }
  assert (∀ c, c ∈ ids r → k ≤ c → b32_distribution (prob c) = true) as Hprobr.
  { intros c Hc. apply Hprob. simpl. rewrite elem_of_cons, elem_of_app. tauto. }
  pose proof (leaf_mass_bounds prob k l 30 _ ltac:(lia) Hordl Hprobl Ha) as Hl.
  pose proof (leaf_mass_bounds prob k r 30 _ ltac:(lia) Hordr Hprobr Hb) as Hr.
  pose proof (b32_probability_real _ Ha) as Ha01.
  pose proof (b32_probability_real _ Hb) as Hb01.
  pose proof (IZR_le _ _ (edges_nonneg l)) as Hel.
  pose proof (IZR_le _ _ (edges_nonneg r)) as Her.
  assert (IZR (edges l) + IZR (edges r) <= 2 ^ 32)%R as Hedges.
  { rewrite <-plus_IZR. change (2 ^ 32)%R with (IZR 2 ^ 32)%R. rewrite pow_IZR.
    apply IZR_le. change (2 ^ Z.of_nat 32) with (2 ^ 32). lia. }
  set (a := b32_real (prob n).1) in *. set (b := b32_real (prob n).2) in *.
  set (Ml := leaf_mass prob l (prob n).1) in *.
  set (Mr := leaf_mass prob r (prob n).2) in *.
  set (el := IZR (edges l)) in *. set (er := IZR (edges r)) in *.
  unfold growth, shrink in Hl, Hr.
  assert (IZR (Ml + Mr) <= IZR (2 ^ Z.of_nat 149 + 2 ^ Z.of_nat 132))%R as Hup.
  { rewrite !plus_IZR, <-!pow_IZR. lra. }
  assert (IZR (2 ^ Z.of_nat 149 - 2 ^ Z.of_nat 132) <= IZR (Ml + Mr))%R as Hlow.
  { rewrite minus_IZR, plus_IZR, <-!pow_IZR. lra. }
  apply le_IZR in Hup, Hlow.
  change (2 ^ Z.of_nat 149) with (2 ^ 149) in *.
  change (2 ^ Z.of_nat 132) with (2 ^ 132) in *. lia.
Qed.

Section float_total.
Context {World : Type} (base_predict : World → Z → World * (binary32 * binary32)).

(** C3, amended. For every leaf count [k] from 1 to [2^31] and every
    scorer that returns, at every call of the run, a pair of
    probabilities whose sum in [float] compares equal to [1.0f],
    [predict] returns a vector of scores that are probabilities and
    whose exact sum differs from 1 by at most [2^-17]. The scores are
    the rounded products of C1 as they are: [predict] neither normalises
    nor clamps them. *)
Theorem predict_total k tls w :
  1 ≤ k ≤ 2 ^ 31 →
  (∀ idx, 0 ≤ idx < k - 1 → b32_distribution (answer base_predict w idx) = true) →
  ∃ s, predict b32_mul b32_zero b32_one base_predict (mk_offset_tree (build k)) tls w
       = Normal s
       ∧ (∀ i, 0 ≤ i < k →
            ∃ bs, path (nodes (build k)) (root_idx (build k)) bs i
                  ∧ scores (statics s) !! Z.to_nat i
                    = Some (path_product b32_mul b32_one
                              (node_answer base_predict k w) bs))
       ∧ Forall (λ x, b32_probability x = true) (scores (statics s))
       ∧ Z.abs (sum_units (scores (statics s)) - 2 ^ 149) ≤ 2 ^ 132.
Proof.
  intros Hk Hscorer. destruct (decide (k = 1)) as [->|Hk1].
  - destruct (predict_one b32_mul b32_zero b32_one base_predict tls w)
      as (s & -> & Hs & _).
    exists s. split; [done|]. rewrite Hs. split; [|split; [by apply Forall_singleton|done]].
    intros i Hi. assert (i = 0) as -> by lia.
    replace (build 1) with (mk_tree [mk_node 0 0 0 true] 0 1 true) by by vm_compute.
    exists []. split; [apply path_nil|done].
  - destruct (build_shape k ltac:(lia)) as [T Hsh].
    destruct (predict_spec b32_mul b32_zero b32_one base_predict k T tls w
                ltac:(lia) Hsh) as (s & -> & Hinv & _).
    exists s. split; [done|].
    set (prob := node_answer base_predict k w) in *.
    pose proof (shape_ordered _ _ _ Hsh) as Hord.
    pose proof (shape_height _ _ _ Hsh) as Hheight.
    assert (∀ c, c ∈ ids T → k ≤ c → b32_distribution (prob c) = true) as Hprob.
    { intros c Hc Hkc. rewrite (shape_ids _ _ _ Hsh), elem_of_seqZ in Hc.
      apply Hscorer. lia. }
    pose proof (Z.log2_up_pos k ltac:(lia)) as Hpos.
    assert (Z.log2_up k ≤ 31) as Hlog by (apply Z.log2_up_le_pow2; lia).
    destruct T as [i|n l r]; [simpl in Hheight; lia|].
    assert (Forall (λ cp, b32_probability (path_product b32_mul b32_one prob cp.2) = true)
              (leaf_paths (Node n l r) [])) as Hall.
    { destruct (b32_distribution_units (prob n)) as (Ha & Hb & _).
      { apply Hprob; [apply elem_of_cons; by left|]. by destruct Hord. }
      destruct Hord as (_ & _ & _ & Hordl & Hordr).
      simpl. apply Forall_app. split.
      - apply (leaf_paths_probability prob k); [done|done| |done].
        intros c Hc. apply Hprob. simpl. rewrite elem_of_cons, elem_of_app. tauto.
      - apply (leaf_paths_probability prob k); [done|done| |done].
        intros c Hc. apply Hprob. simpl. rewrite elem_of_cons, elem_of_app. tauto. }
    assert (∀ c p, (c, p) ∈ leaf_paths (Node n l r) [] →
              scores (statics s) !! Z.to_nat c
              = Some (path_product b32_mul b32_one prob p)) as Hscore.
    { intros c p Hin.
      apply (leaf_paths_subtree (Node n l r) (Node n l r) [] c p eq_refl) in Hin.
      by apply (inv_end b32_mul b32_one k (build k) (Node n l r) ltac:(lia) Hsh
                  prob s p c Hinv). }
    split; [|split].
    + intros i Hi.
      destruct (predict_scores_lookup b32_mul b32_one base_predict k _ w s i
                  ltac:(lia) Hsh Hinv Hi) as (_ & bs & Hpath & _ & Hs).
      by exists bs.
    + apply Forall_lookup. intros i x Hx.
      pose proof (lookup_lt_Some _ _ _ Hx) as Hi.
      rewrite (inv_scores _ _ _ _ _ _ _ Hinv) in Hi.
      destruct (leaf_path k (build k) _ Hsh (Z.of_nat i) ltac:(lia)) as (bs & HS & _).
      apply leaf_paths_cover in HS.
      pose proof (Hscore _ _ HS) as Hx'. rewrite Nat2Z.id, Hx in Hx'.
      injection Hx' as ->.
      rewrite list.Forall_forall in Hall. exact (Hall _ HS).
    + rewrite (vector_as_map b32_zero (scores (statics s))).
      rewrite (inv_scores _ _ _ _ _ _ _ Hinv), Z2Nat.id by lia.
      assert ((leaf_paths (Node n l r) []).*1 ≡ₚ seqZ 0 k) as Hperm.
      { apply list.NoDup_Permutation.
        - eapply sublist_NoDup; [|apply leaf_paths_ids].
          by eapply shape_NoDup.
        - apply NoDup_seqZ.
        - intros c. rewrite elem_of_seqZ, list_elem_of_fmap. split.
          + intros ([c' p] & -> & Hin). simpl.
            apply (leaf_paths_subtree (Node n l r) (Node n l r) [] c' p eq_refl) in Hin.
            pose proof (subtree_at_ordered _ _ _ _ (shape_ordered _ _ _ Hsh) Hin) as Hc.
            simpl in Hc. lia.
          + intros Hc.
            destruct (leaf_path k (build k) _ Hsh c ltac:(lia)) as (bs & HS & _).
            exists (c, bs). split; [done|]. by apply leaf_paths_cover. }
      erewrite sum_units_Permutation; [|by rewrite <-Hperm].
      rewrite <-list_fmap_compose.
      erewrite (list_fmap_ext _ (λ cp, path_product b32_mul b32_one prob cp.2)).
      2:{ intros i [c p] Hin%list_elem_of_lookup_2. simpl. by rewrite (Hscore c p Hin). }
      cbn [leaf_paths app]. rewrite fmap_app, sum_units_app.
      rewrite !(leaf_paths_mass prob) by done.
      apply (leaf_mass_total prob k n l r); [lia|done| |done].
      pose proof (edges_ids (Node n l r)) as He.
      rewrite (shape_ids _ _ _ Hsh), length_seqZ in He. lia.
Qed.

End float_total.

Lemma predict_total_witness :
  ∃ s, predict b32_mul b32_zero b32_one biased_scorer (mk_offset_tree (build 3)) None tt
       = Normal s
       ∧ (∀ i, 0 ≤ i < 3 →
            ∃ bs, path (nodes (build 3)) (root_idx (build 3)) bs i
                  ∧ scores (statics s) !! Z.to_nat i
                    = Some (path_product b32_mul b32_one
                              (node_answer biased_scorer 3 tt) bs))
       ∧ Forall (λ x, b32_probability x = true) (scores (statics s))
       ∧ Z.abs (sum_units (scores (statics s)) - 2 ^ 149) ≤ 2 ^ 132.
Proof.
  apply (predict_total biased_scorer 3 None tt); [lia|]. intros idx _. reflexivity.
Defined.

(** C3, as the claim states it, fails at [k = 4] for the scorer that
    answers [(16777216.0f, -16777215.0f)]: the pair adds up to one, in
    [float] as it does exactly, and nothing clamps it; the four scores
    are [2^48], twice [2^24 - 2^48], and [2^48 - 2^25], which is the
    product [(2^24 - 1)^2] rounded; they add up to zero, exactly as
    well as in [float] from the left and from the right. With
    probabilities the sum is still not [1.0f]: for [(0.9f, 0.1f)] at
    [k = 3] it is [1 - 2^-24], again exactly and in [float]. And the
    claim fails at [k = 2^31 + 1], where the first call of [predict] on
    a thread returns no vector. *)
Lemma predict_total_beyond :
  (b32_eqb (b32_add f_2_24 f_1_minus_2_24) b32_one = true
   ∧ b32_units f_2_24 + b32_units f_1_minus_2_24 = b32_units b32_one
   ∧ ∃ s, predict b32_mul b32_zero b32_one unbounded_scorer
            (mk_offset_tree (build 4)) None tt = Normal s
          ∧ scores (statics s)
            = [B32_finite false (2 ^ 23) 25; B32_finite true (2 ^ 24 - 1) 24;
               B32_finite true (2 ^ 24 - 1) 24; B32_finite false (2 ^ 24 - 2) 24]
          ∧ sum_units (scores (statics s)) = 0
          ∧ foldl b32_add b32_zero (scores (statics s)) = b32_zero
          ∧ foldr b32_add b32_zero (scores (statics s)) = b32_zero)
  ∧ (b32_distribution (f_0_9, f_0_1) = true
     ∧ ∃ s, predict b32_mul b32_zero b32_one biased_scorer
              (mk_offset_tree (build 3)) None tt = Normal s
            ∧ sum_units (scores (statics s)) = b32_units b32_one - 2 ^ 125
            ∧ foldl b32_add b32_zero (scores (statics s))
              = B32_finite false (2 ^ 24 - 1) (-24)
            ∧ foldr b32_add b32_zero (scores (statics s))
              = B32_finite false (2 ^ 24 - 1) (-24))
  ∧ ¬ ∃ s, predict b32_mul b32_zero b32_one biased_scorer
             (mk_offset_tree (build (2 ^ 31 + 1))) None tt = Normal s.
Proof.
  split; [|split].
  - split; [by vm_compute|]. split; [by vm_compute|].
    eexists. split; [by vm_compute|]. by vm_compute.
  - split; [by vm_compute|]. eexists. split; [by vm_compute|]. by vm_compute.
  - intros [s Hs]. by rewrite predict_overflow in Hs by lia.
Qed.

(** * [build_tree] with the capacity of its vectors

    The model of [build_tree] above asks the allocator once for each
    [reserve]. That is what the source does on a new tree of up to
    [2^31] leaves, and whenever no request fails. In general a
    [std::vector] asks for memory when it has to grow and only then: a
    [reserve] within the capacity asks for nothing, and an
    [emplace_back] on a full vector does ask and can fail. The model
    below keeps the capacity of each vector, so that it is the source
    for every state of the tree, every leaf count and every behaviour
    of the allocator. *)

(** A [std::vector]: its elements and [capacity()]. *)
Record vector (A : Type) : Type := mk_vector {
  data : list A;
  capacity : Z
}.
Arguments mk_vector {A} data capacity.
Arguments data {A} v.
Arguments capacity {A} v.

(** The next step of a call, unless the one before has ended it. *)
Definition and_then {S : Type} (r : S * outcome ()) (next : S → S * outcome ())
  : S * outcome () :=
  match r with
  | (s, Normal _) => next s
  | (s, o) => (s, o)
  end.

(** A step that starts with a read: an outcome that is not normal ends
    the call. *)
Definition reading {S A : Type} (o : outcome A) (s : S) (next : A → S * outcome ())
  : S * outcome () :=
  match o with
  | Normal a => next a
  | Throw e => (s, Throw e)
  | Undefined => (s, Undefined)
  end.

(** A counted loop over a state that an exception leaves as it is. *)
Fixpoint for_each_state {S : Type} (body : Z → S → S * outcome ())
    (range : list Z) (s : S) : S * outcome () :=
  match range with
  | [] => (s, Normal ())
  | i :: range => and_then (body i s) (for_each_state body range)
  end.

Section storage.
(** The capacity a full vector of the given size grows to: the choice
    of the implementation of [std::vector]. *)
Context (grow : Z → Z).

(** [v.reserve(n)], for [n] below [max_size()]: a request when [n]
    exceeds the capacity, which becomes [n]; nothing otherwise. A failed
    request leaves the vector as it was. *)
Definition reserve {A : Type} (n : Z) (s : vector A * heap)
  : (vector A * heap) * outcome () :=
  let '(v, mem) := s in
  if bool_decide (n ≤ capacity v) then (v, mem, Normal ())
  else
    match allocate mem with
    | (true, mem) => (mk_vector (data v) n, mem, Normal ())
    | (false, mem) => (v, mem, Throw bad_alloc)
    end.

(** [v.emplace_back(a)]: within the capacity no request; on a full
    vector a request for the storage it grows into. A failed request
    leaves the vector as it was. *)
Definition emplace_back {A : Type} (a : A) (s : vector A * heap)
  : (vector A * heap) * outcome () :=
  let '(v, mem) := s in
  if bool_decide (Z.of_nat (length (data v)) < capacity v) then
    (mk_vector (data v ++ [a]) (capacity v), mem, Normal ())
  else
    match allocate mem with
    | (true, mem) =>
        (mk_vector (data v ++ [a]) (grow (Z.of_nat (length (data v)))), mem, Normal ())
    | (false, mem) => (v, mem, Throw bad_alloc)
    end.

(** The state of the [try] block: the node vector of the tree, the
    local vector at hand, and the allocator. *)
Definition build_state : Type := vector tree_node * vector Z * heap.

Definition on_nodes (f : vector tree_node * heap → (vector tree_node * heap) * outcome ())
    (s : build_state) : build_state * outcome () :=
  let '(ns, ts, mem) := s in
  let '(ns, mem, o) := f (ns, mem) in (ns, ts, mem, o).

Definition on_tournaments (f : vector Z * heap → (vector Z * heap) * outcome ())
    (s : build_state) : build_state * outcome () :=
  let '(ns, ts, mem) := s in
  let '(ts, mem, o) := f (ts, mem) in (ns, ts, mem, o).

(** The body of the first loop: [nodes.emplace_back(i, 0, 0, true)] and
    [tournaments.emplace_back(i)]. *)
Definition add_leaf (i : Z) (s : build_state) : build_state * outcome () :=
  and_then (on_nodes (emplace_back (new_tree_node i 0 0 true)) s)
           (on_tournaments (emplace_back (uint32_t i))).

(** The body of the inner [for], with the counter [id] next to the
    state: the local vector of the state is [new_tournaments]. The
    argument [id++] is evaluated before [nodes.emplace_back] runs. *)
Definition play_mem (tournaments : list Z) (j : Z) (s : build_state * Z)
  : (build_state * Z) * outcome () :=
  let '(b, id) := s in
  reading (at_index tournaments (2 * j)) s (λ l,
  reading (at_index tournaments (2 * j + 1)) s (λ r,
    match on_tournaments (emplace_back (uint32_t id)) b with
    | (b, Normal _) =>
        let '(b, o) := on_nodes (emplace_back (new_tree_node id l r false)) b in
        (b, id + 1, o)
    | (b, o) => (b, id, o)
    end)).

(** One round: [new_tournaments.reserve], the inner [for], and the
    candidate left over. The local vector of the result is
    [new_tournaments]. *)
Definition round_mem (tournaments : list Z) (s : vector tree_node * heap)
  : build_state * outcome () :=
  let num_tournaments := Z.of_nat (length tournaments) in
  let '(ns, mem) := s in
  let id := Z.of_nat (length (data ns)) in
  and_then (on_tournaments (reserve (num_tournaments / 2 + 1)) (ns, mk_vector [] 0, mem))
    (λ b,
  let '(b, _, o) :=
    for_each_state (play_mem tournaments) (seqZ 0 (num_tournaments / 2)) (b, id) in
  and_then (b, o) (λ b,
  if num_tournaments mod 2 =? 1 then
    reading (back tournaments) b (λ last, on_tournaments (emplace_back last) b)
  else (b, Normal ()))).

(** What a vector operation does to the elements. *)
Lemma reserve_data {A : Type} n (s : vector A * heap) :
  let r := reserve n s in
  data r.1.1 = data s.1 ∧ (r.2 = Normal () ∨ r.2 = Throw bad_alloc ∧ r.1.1 = s.1).
Proof.
  destruct s as [v mem]. unfold reserve. case_bool_decide; [by auto|].
  destruct (allocate mem) as [[] mem']; simpl; auto.
Qed.

Lemma emplace_back_data {A : Type} (a : A) (s : vector A * heap) :
  let r := emplace_back a s in
  r.2 = Normal () ∧ data r.1.1 = data s.1 ++ [a]
  ∨ r.2 = Throw bad_alloc ∧ r.1.1 = s.1.
Proof.
  destruct s as [v mem]. unfold emplace_back. case_bool_decide; [by auto|].
  destruct (allocate mem) as [[] mem']; simpl; auto.
Qed.

(** The nodes and the local vector of a state. *)
Definition nodes_of (b : build_state) : list tree_node := data b.1.1.
Definition local_of (b : build_state) : list Z := data b.1.2.

Lemma on_nodes_emplace_back a (b : build_state) :
  let r := on_nodes (emplace_back a) b in
  local_of r.1 = local_of b
  ∧ (r.2 = Normal () ∧ nodes_of r.1 = nodes_of b ++ [a]
     ∨ r.2 = Throw bad_alloc ∧ nodes_of r.1 = nodes_of b).
Proof.
  destruct b as [[ns ts] mem]. unfold on_nodes, nodes_of, local_of.
  pose proof (emplace_back_data a (ns, mem)) as H.
  destruct (emplace_back a (ns, mem)) as [[ns' mem'] o]. simpl in *.
  split; [done|]. destruct H as [[-> ->]|[-> ->]]; auto.
Qed.

Lemma on_tournaments_emplace_back a (b : build_state) :
  let r := on_tournaments (emplace_back a) b in
  nodes_of r.1 = nodes_of b
  ∧ (r.2 = Normal () ∧ local_of r.1 = local_of b ++ [a]
     ∨ r.2 = Throw bad_alloc ∧ local_of r.1 = local_of b).
Proof.
  destruct b as [[ns ts] mem]. unfold on_tournaments, nodes_of, local_of.
  pose proof (emplace_back_data a (ts, mem)) as H.
  destruct (emplace_back a (ts, mem)) as [[ts' mem'] o]. simpl in *.
  split; [done|]. destruct H as [[-> ->]|[-> ->]]; auto.
Qed.

Lemma at_index_in_range {A : Type} (v : list A) i :
  0 ≤ i < Z.of_nat (length v) → ∃ a, at_index v i = Normal a.
Proof.
  intros Hi. unfold at_index. rewrite bool_decide_eq_true_2 by done.
  destruct (lookup_lt_is_Some_2 v (Z.to_nat i)) as [a ->]; [lia|]. by exists a.
Qed.

(** One run of the body of the inner [for]. *)
Lemma play_mem_cases tournaments j (b : build_state) id :
  let r := play_mem tournaments j (b, id) in
  nodes_of b `prefix_of` nodes_of r.1.1
  ∧ (r.2 = Normal () →
       length (local_of r.1.1) = S (length (local_of b))
       ∧ length (nodes_of r.1.1) = S (length (nodes_of b)))
  ∧ (0 ≤ j ∧ 2 * j + 1 < Z.of_nat (length tournaments) →
       r.2 = Normal () ∨ r.2 = Throw bad_alloc).
Proof.
  cbv zeta. unfold play_mem, reading.
  destruct (at_index tournaments (2 * j)) as [l| |] eqn:El.
  2,3: split; [done|]; split; [done|]; intros Hj;
       destruct (at_index_in_range tournaments (2 * j)) as [? Hl]; [lia|]; congruence.
  destruct (at_index tournaments (2 * j + 1)) as [r| |] eqn:Er.
  2,3: split; [done|]; split; [done|]; intros Hj;
       destruct (at_index_in_range tournaments (2 * j + 1)) as [? Hr]; [lia|]; congruence.
  pose proof (on_tournaments_emplace_back (uint32_t id) b) as [Hn1 Ht1].
  destruct (on_tournaments (emplace_back (uint32_t id)) b) as [b1 o1].
  cbn [fst snd] in Hn1, Ht1.
  destruct Ht1 as [[-> Ht1]|[-> Ht1]]; cbn [fst snd].
  2:{ rewrite Hn1. split; [done|]. split; [done|]. auto. }
  pose proof (on_nodes_emplace_back (new_tree_node id l r false) b1) as [Ht2 Hn2].
  destruct (on_nodes (emplace_back (new_tree_node id l r false)) b1) as [b2 o2].
  cbn [fst snd] in Ht2, Hn2 |- *.
  destruct Hn2 as [[-> Hn2]|[-> Hn2]]; rewrite Hn2, Hn1, Ht2, Ht1.
  - split; [by apply prefix_app_r|]. split; [|auto].
    intros _. rewrite !length_app. simpl. lia.
  - split; [done|]. split; [done|]. auto.
Qed.

(** How the inner [for] can end, when it reads within the candidates:
    normally, with one node and one candidate added for each pair, or
    with [std::bad_alloc]; the nodes only grow. *)
Lemma for_each_play_mem tournaments range : ∀ (b : build_state) id,
  let r := for_each_state (play_mem tournaments) range (b, id) in
  (r.2 = Normal () →
     length (local_of r.1.1) = (length (local_of b) + length range)%nat
     ∧ length (nodes_of r.1.1) = (length (nodes_of b) + length range)%nat)
  ∧ (Forall (λ j, 0 ≤ j ∧ 2 * j + 1 < Z.of_nat (length tournaments)) range →
     nodes_of b `prefix_of` nodes_of r.1.1
     ∧ (r.2 = Normal () ∨ r.2 = Throw bad_alloc)).
Proof.
  induction range as [|j range IH]; intros b id; cbv zeta; cbn [for_each_state].
  { simpl. split; [intros _; lia|]. intros _. split; [done|by left]. }
  pose proof (play_mem_cases tournaments j b id) as (Hpre & Hlen & Hout).
  destruct (play_mem tournaments j (b, id)) as [[b1 id1] o1].
  cbn [fst snd] in Hpre, Hlen, Hout.
  destruct o1 as [[]|e|]; cbn [and_then fst snd].
  - specialize (IH b1 id1). cbv zeta in IH. destruct IH as [IH1 IH2].
    destruct (Hlen eq_refl) as [Hl1 Hl2]. split.
    + intros Hret. destruct (IH1 Hret) as [-> ->]. rewrite Hl1, Hl2. simpl. lia.
    + intros [_ Hrange]%Forall_cons_1. destruct (IH2 Hrange) as [Hpre' Hout'].
      split; [by etrans|done].
  - split; [done|]. intros [Hj _]%Forall_cons_1. split; [done|]. apply Hout, Hj.
  - split; [done|]. intros [Hj _]%Forall_cons_1. split; [done|]. apply Hout, Hj.
Qed.

(** How a round can end: normally, with a node for each pair and the
    candidates of the next round, or with [std::bad_alloc]. *)
Lemma round_mem_cases tournaments (s : vector tree_node * heap) :
  let n := Z.of_nat (length tournaments) in
  let r := round_mem tournaments s in
  data s.1 `prefix_of` nodes_of r.1
  ∧ (r.2 = Normal () →
       Z.of_nat (length (local_of r.1)) = n / 2 + n mod 2
       ∧ Z.of_nat (length (nodes_of r.1)) = Z.of_nat (length (data s.1)) + n / 2)
  ∧ (r.2 = Normal () ∨ r.2 = Throw bad_alloc).
Proof.
  destruct s as [ns mem]. cbv zeta.
  destruct (round_mem tournaments (ns, mem)) as [b o] eqn:E. cbn [fst snd].
  unfold round_mem in E. revert E.
  set (n := Z.of_nat (length tournaments)).
  assert (0 ≤ n / 2) as Hhalf by (apply Z.div_pos; lia).
  pose proof (Z.div_mod n 2 ltac:(lia)) as Hdm.
  pose proof (Z.mod_pos_bound n 2 eq_refl) as Hmod.
  unfold on_tournaments at 1.
  pose proof (reserve_data (n / 2 + 1) (mk_vector ([] : list Z) 0, mem)) as [Hd Hr].
  destruct (reserve (n / 2 + 1) (mk_vector [] 0, mem)) as [[ts0 mem0] o0].
  cbn [fst snd data] in Hd, Hr.
  destruct Hr as [->|[-> _]]; cbn [and_then fst snd];
    [|intros [= <- <-]; unfold nodes_of; cbn [fst snd];
      split; [done|split; [done|auto]]].
  pose proof (for_each_play_mem tournaments (seqZ 0 (n / 2)) (ns, ts0, mem0)
                (Z.of_nat (length (data ns)))) as [Hlen Hout].
  destruct (for_each_state _ _ _) as [[b1 id1] o1]. cbn [fst snd] in Hlen, Hout.
  destruct Hout as [Hpre Hout].
  { apply list.Forall_forall. intros j Hj%elem_of_seqZ. subst n. lia. }
  rewrite length_seqZ in Hlen. unfold nodes_of, local_of in Hlen, Hpre.
  cbn [fst snd] in Hlen, Hpre. rewrite Hd in Hlen. cbn [length] in Hlen.
  destruct Hout as [-> | ->]; cbn [and_then fst snd];
    [|intros [= <- <-]; unfold nodes_of; cbn [fst snd];
      split; [done|split; [done|auto]]].
  destruct (Hlen eq_refl) as [Hl1 Hl2].
  destruct (Z.eqb_spec (n mod 2) 1) as [Hodd|Heven].
  - destruct (at_index_in_range tournaments (Z.of_nat (length tournaments) - 1))
      as [last Hlast]; [subst n; lia|].
    unfold back. rewrite Hlast. cbn [reading].
    pose proof (on_tournaments_emplace_back last b1) as [Hn Ht].
    destruct (on_tournaments (emplace_back last) b1) as [b2 o2].
    cbn [fst snd] in Hn, Ht. intros [= <- <-]. rewrite Hn.
    unfold nodes_of, local_of in *.
    split; [done|]. destruct Ht as [[-> Ht]|[-> Ht]]; [|split; [done|auto]].
    split; [|auto]. intros _. rewrite Ht, length_app. simpl. lia.
  - intros [= <- <-]. unfold nodes_of, local_of. split; [done|]. split; [|auto].
    intros _. lia.
Qed.

(** The [while] loop over the candidates, from the node vector and the
    allocator as they are; the candidates are only read. *)
Equations? rounds_mem (tournaments : list Z) (s : vector tree_node * heap)
  : (vector tree_node * heap) * outcome (list Z) by wf (length tournaments) lt :=
rounds_mem tournaments s with decide (1 < length tournaments)%nat := {
  | right _ => (s, Normal tournaments);
  | left _ with inspect (round_mem tournaments s) := {
    | exist _ (ns, new_tournaments, mem, Normal _) E =>
        rounds_mem (data new_tournaments) (ns, mem);
    | exist _ (ns, _, mem, Throw e) _ => (ns, mem, Throw e);
    | exist _ (ns, _, mem, Undefined) _ => (ns, mem, Undefined) } }.
Proof.
  pose proof (round_mem_cases tournaments s) as (_ & Hlen & _).
  cbv zeta in Hlen. rewrite E in Hlen. destruct a.
  destruct (Hlen eq_refl) as [Hl _].
  unfold local_of in Hl. cbn [fst snd] in Hl.
  pose proof (Z.div_mod (Z.of_nat (length tournaments)) 2 ltac:(lia)).
  pose proof (Z.mod_pos_bound (Z.of_nat (length tournaments)) 2 eq_refl).
  lia.
Qed.

(** The [try] block on the tree [t], whose node vector has the capacity
    [cap]: the tree and the capacity after it, and how it ended. *)
Definition try_block_mem (mem : heap) (cap : Z) (t : min_depth_binary_tree)
  : (min_depth_binary_tree * Z) * outcome () :=
  let k := _num_leaf_nodes t in
  let store (ns : vector tree_node) :=
    (mk_tree (data ns) (root_idx t) k (_initialized t), capacity ns) in
  let '(ns, tournaments, mem, o) :=
    and_then
      (on_nodes (reserve (uint32_t (2 * k - 1)))
                (mk_vector (nodes t) cap, mk_vector [] 0, mem))
      (λ b, and_then (on_tournaments (reserve k) b)
                     (for_each_state add_leaf (seqZ 0 k))) in
  match o with
  | Normal _ =>
    let '(ns, _, o) := rounds_mem (data tournaments) (ns, mem) in
    match o with
    | Normal tournaments =>
      match at_index tournaments 0 with
      | Normal root =>
          (mk_tree (data ns) root k (_initialized t), capacity ns, Normal ())
      | Throw e => (store ns, Throw e)
      | Undefined => (store ns, Undefined)
      end
    | Throw e => (store ns, Throw e)
    | Undefined => (store ns, Undefined)
    end
  | Throw e => (store ns, Throw e)
  | Undefined => (store ns, Undefined)
  end.

(** [build_tree] on the tree [t], whose node vector has the capacity
    [cap]. *)
Definition build_tree_mem (num_nodes : Z) (mem : heap) (cap : Z)
    (t : min_depth_binary_tree) : (min_depth_binary_tree * Z) * outcome () :=
  if _initialized t then
    if bool_decide (num_nodes ≠ _num_leaf_nodes t) then
      (t, cap, Throw (vw (ConfigurationConflict num_nodes (_num_leaf_nodes t))))
    else (t, cap, Normal ())
  else
    let t := mk_tree (nodes t) (root_idx t) num_nodes (_initialized t) in
    if bool_decide (_num_leaf_nodes t = 0) then
      (mk_tree (nodes t) (root_idx t) (_num_leaf_nodes t) true, cap, Normal ())
    else
      let '(t, cap, o) := try_block_mem mem cap t in
      match o with
      | Normal _ =>
          (mk_tree (nodes t) (root_idx t) (_num_leaf_nodes t) true, cap, Normal ())
      | Throw bad_alloc => (t, cap, Throw (vw (OutOfMemory (_num_leaf_nodes t))))
      | Throw e => (t, cap, Throw e)
      | Undefined => (t, cap, Undefined)
      end.

End storage.

(** ** How [build_tree] can end, whatever the tree and the allocator *)

(** The [while] loop, unfolded once. *)
Lemma rounds_mem_step grow tournaments s :
  rounds_mem grow tournaments s =
    if decide (1 < length tournaments)%nat then
      match round_mem grow tournaments s with
      | (ns, new_tournaments, mem, Normal _) =>
          rounds_mem grow (data new_tournaments) (ns, mem)
      | (ns, _, mem, Throw e) => (ns, mem, Throw e)
      | (ns, _, mem, Undefined) => (ns, mem, Undefined)
      end
    else (s, Normal tournaments).
Proof.
  rewrite rounds_mem_equation_1. unfold rounds_mem_unfold_clause_1.
  destruct (decide _); [|done].
  unfold rounds_mem_unfold_clause_1_clause_2, inspect.
  generalize (@eq_refl _ (round_mem grow tournaments s)).
  generalize (round_mem grow tournaments s) at 2 3 14 as o.
  by intros [[[ns new] mem] [[]| |]] E.
Qed.

(** The loop ends with a single candidate or with [std::bad_alloc]; it
    never reads outside the candidates, and the nodes only grow. *)
Lemma rounds_mem_outcome grow tournaments : ∀ s,
  tournaments ≠ [] →
  let r := rounds_mem grow tournaments s in
  data s.1 `prefix_of` data r.1.1
  ∧ match r.2 with
    | Normal tournaments' => length tournaments' = 1%nat
    | Throw e => e = bad_alloc
    | Undefined => False
    end.
Proof.
  remember (length tournaments) as n eqn:Hn. revert tournaments Hn.
  induction n as [n IH] using lt_wf_ind; intros tournaments -> s Hne. cbv zeta.
  rewrite rounds_mem_step. destruct (decide _) as [Hlen|Hlen].
  2:{ simpl. split; [done|]. destruct tournaments; simpl in *; [done|lia]. }
  pose proof (round_mem_cases grow tournaments s) as (Hpre & Hl & Hout).
  destruct (round_mem grow tournaments s) as [[[ns new] mem] o].
  unfold nodes_of, local_of in Hpre, Hl. cbn [fst snd] in Hpre, Hl, Hout.
  destruct Hout as [-> | ->]; [|done].
  destruct (Hl eq_refl) as [Hnew _].
  pose proof (Z.div_mod (Z.of_nat (length tournaments)) 2 ltac:(lia)).
  pose proof (Z.mod_pos_bound (Z.of_nat (length tournaments)) 2 eq_refl).
  destruct (IH (length (data new)) ltac:(lia) (data new) eq_refl (ns, mem))
    as [Hpre' Hout'].
  { intros Hnil. rewrite Hnil in Hnew. simpl in Hnew. lia. }
  split; [|done]. by etrans.
Qed.

(** The first loop: the leaves and the candidates it appends when it
    completes; it ends otherwise with [std::bad_alloc], the nodes
    appended so far in the vector. *)
Lemma for_each_add_leaf grow range : ∀ (b : build_state),
  let r := for_each_state (add_leaf grow) range b in
  nodes_of b `prefix_of` nodes_of r.1
  ∧ (r.2 = Normal () →
       nodes_of r.1 = nodes_of b ++ ((λ i, new_tree_node i 0 0 true) <$> range)
       ∧ local_of r.1 = local_of b ++ (uint32_t <$> range))
  ∧ (r.2 = Normal () ∨ r.2 = Throw bad_alloc).
Proof.
  induction range as [|i range IH]; intros b; cbv zeta.
  { simpl. rewrite !app_nil_r. auto. }
  destruct (for_each_state (add_leaf grow) (i :: range) b) as [b' o] eqn:E.
  cbn [fst snd]. revert E. cbn [for_each_state]. unfold add_leaf at 1.
  pose proof (on_nodes_emplace_back grow (new_tree_node i 0 0 true) b) as [Ht1 Hn1].
  destruct (on_nodes (emplace_back grow (new_tree_node i 0 0 true)) b) as [b1 o1].
  cbn [fst snd] in Ht1, Hn1.
  destruct Hn1 as [[-> Hn1]|[-> Hn1]]; cbn [and_then fst snd];
    [|intros [= <- <-]; rewrite Hn1; split; [done|split; [done|auto]]].
  pose proof (on_tournaments_emplace_back grow (uint32_t i) b1) as [Hn2 Ht2].
  destruct (on_tournaments (emplace_back grow (uint32_t i)) b1) as [b2 o2].
  cbn [fst snd] in Hn2, Ht2.
  destruct Ht2 as [[-> Ht2]|[-> Ht2]]; cbn [and_then fst snd].
  - intros E. destruct (IH b2) as (Hpre & Hret & Hout).
    rewrite E in Hpre, Hret, Hout. cbn [fst snd] in Hpre, Hret, Hout.
    split; [|split; [|done]].
    + etrans; [|exact Hpre]. rewrite Hn2, Hn1. by apply prefix_app_r.
    + intros [-> ->]%Hret. rewrite Hn2, Hn1, Ht2, Ht1, <-!app_assoc. done.
  - intros [= <- <-]. rewrite Hn2, Hn1.
    split; [by apply prefix_app_r|]. split; [done|auto].
Qed.

(** The [try] block ends normally or with [std::bad_alloc]; it leaves
    the flag and the leaf count and, unless it ends normally, the root
    alone, and only appends to the node vector. *)
Lemma try_block_mem_outcome grow mem cap t :
  0 < _num_leaf_nodes t →
  let r := try_block_mem grow mem cap t in
  nodes t `prefix_of` nodes r.1.1
  ∧ _num_leaf_nodes r.1.1 = _num_leaf_nodes t
  ∧ _initialized r.1.1 = _initialized t
  ∧ match r.2 with
    | Normal _ => True
    | Throw e => e = bad_alloc ∧ root_idx r.1.1 = root_idx t
    | Undefined => False
    end.
Proof.
  intros Hk. cbv zeta.
  destruct (try_block_mem grow mem cap t) as [[t' cap'] o] eqn:E.
  cbn [fst snd]. revert E. unfold try_block_mem.
  set (k := _num_leaf_nodes t) in *.
  unfold on_nodes at 1.
  pose proof (reserve_data (uint32_t (2 * k - 1)) (mk_vector (nodes t) cap, mem))
    as [Hd0 Hr0].
  destruct (reserve _ (mk_vector (nodes t) cap, mem)) as [[ns0 mem0] o0].
  cbn [fst snd data] in Hd0, Hr0.
  destruct Hr0 as [-> | [-> _]]; cbn [and_then];
    [|intros [= <- <- <-]; simpl; by rewrite Hd0].
  unfold on_tournaments at 1.
  pose proof (reserve_data k (mk_vector ([] : list Z) 0, mem0)) as [Hd1 Hr1].
  destruct (reserve k (mk_vector [] 0, mem0)) as [[ts1 mem1] o1].
  cbn [fst snd data] in Hd1, Hr1.
  destruct Hr1 as [-> | [-> _]]; cbn [and_then];
    [|intros [= <- <- <-]; simpl; by rewrite Hd0].
  pose proof (for_each_add_leaf grow (seqZ 0 k) (ns0, ts1, mem1))
    as (Hpre & Hret & Hout).
  destruct (for_each_state _ _ _) as [[[ns2 ts2] mem2] o2].
  unfold nodes_of, local_of in Hpre, Hret. cbn [fst snd] in Hpre, Hret, Hout.
  rewrite Hd0 in Hpre.
  destruct Hout as [-> | ->]; [|intros [= <- <- <-]; simpl; done].
  destruct (Hret eq_refl) as [_ Hts]. rewrite Hd1 in Hts. cbn [app] in Hts.
  pose proof (rounds_mem_outcome grow (data ts2) (ns2, mem2)) as [Hpre' Hout'].
  { rewrite Hts. by apply seqZ_uint32_nonempty. }
  destruct (rounds_mem grow _ _) as [[ns3 mem3] o3]. cbn [fst snd] in Hpre', Hout'.
  assert (nodes t `prefix_of` data ns3) as Hpre3 by by etrans.
  destruct o3 as [ts'|e|]; [|intros [= <- <- <-]; simpl; done|done].
  destruct ts' as [|root [|]]; try done. rewrite at_index_0.
  intros [= <- <- <-]. simpl. done.
Qed.

(** [build_tree] ends normally, with the tree initialised for [k]
    leaves; or with the conflict error, the tree untouched; or with the
    memory error, the tree still not initialised but holding the new
    leaf count and the nodes appended so far. There is no other way. *)
Lemma build_tree_mem_outcome grow k mem cap t :
  0 ≤ k →
  let r := build_tree_mem grow k mem cap t in
  match r.2 with
  | Normal _ =>
      _initialized r.1.1 = true ∧ _num_leaf_nodes r.1.1 = k
      ∧ (_initialized t = true → r.1 = (t, cap))
  | Throw (vw (ConfigurationConflict a b)) =>
      _initialized t = true ∧ k ≠ _num_leaf_nodes t
      ∧ a = k ∧ b = _num_leaf_nodes t ∧ r.1 = (t, cap)
  | Throw (vw (OutOfMemory n)) =>
      _initialized t = false ∧ k ≠ 0 ∧ n = k
      ∧ _initialized r.1.1 = false ∧ _num_leaf_nodes r.1.1 = k
      ∧ root_idx r.1.1 = root_idx t ∧ nodes t `prefix_of` nodes r.1.1
  | _ => False
  end.
Proof.
  intros Hk. unfold build_tree_mem.
  destruct (_initialized t) eqn:Hinit.
  { case_bool_decide as Hne; simpl; done. }
  cbn [_num_leaf_nodes nodes root_idx _initialized].
  case_bool_decide as Hz; [done|].
  pose proof (try_block_mem_outcome grow mem cap
                (mk_tree (nodes t) (root_idx t) k false)) as H.
  cbn [_num_leaf_nodes nodes root_idx _initialized] in H.
  destruct H as (Hpre & Hnum & Hflag & Hout); [lia|].
  destruct (try_block_mem _ _ _ _) as [[t' cap'] o]. simpl in *.
  destruct o as [[]|e|]; simpl; [done| |done].
  destruct Hout as [-> Hroot]. done.
Qed.

(** ** Where the two models agree

    The model that asks the allocator once for each [reserve] is this
    one whenever no request fails, and for every allocator on a tree
    without nodes whose capacity is below the [2k - 1] nodes of up to
    [2^31] leaves: there every [emplace_back] finds the room that a
    [reserve] has made. *)






Section agreement.
Context (grow : Z → Z).









End agreement.

(** ** A build that fails, in any state *)

(** A growth policy for the examples: a full vector doubles. *)
Definition doubling (size : Z) : Z := Z.max 1 (2 * size).

(** On the tree that a failed [build_tree 2] left, with two leaves and
    room for three nodes, the two models differ: [nodes.reserve(3)]
    asks nothing, so the first answer goes to [tournaments.reserve] and
    the second to the [emplace_back] of the second leaf, which fails
    with three nodes in the vector. *)
Example build_tree_mem_retry :
  let t := (build_tree 2 [true; true; false] new_tree).1 in
  build_tree_mem doubling 2 [true; false] 3 t
  = (mk_tree [mk_node 0 0 0 true; mk_node 1 0 0 true; mk_node 0 0 0 true] 0 2 false,
     3, Throw (vw (OutOfMemory 2)))
  ∧ (build_tree 2 [true; false] t).1 = t.
Proof. by vm_compute. Qed.



(** X2. Whatever the tree holds, whatever the capacity of its node
    vector and whatever the allocator answers, [build_tree] returns or
    throws one of its two errors: it never runs into undefined
    behaviour and lets no other exception out. The conflict error is
    thrown exactly on an initialised tree with another leaf count, and
    an initialised tree is never changed. *)
Theorem build_tree_ends grow k mem cap t :
  0 ≤ k < 2 ^ 32 →
  let r := build_tree_mem grow k mem cap t in
  (r.2 = Normal ()
   ∨ r.2 = Throw (vw (ConfigurationConflict k (_num_leaf_nodes t)))
   ∨ r.2 = Throw (vw (OutOfMemory k)))
  ∧ (r.2 = Throw (vw (ConfigurationConflict k (_num_leaf_nodes t)))
     ↔ _initialized t = true ∧ k ≠ _num_leaf_nodes t)
  ∧ (_initialized t = true → r.1 = (t, cap)).
Proof.
  intros [Hk _] r. pose proof (build_tree_mem_outcome grow k mem cap t Hk) as H.
  cbv zeta in H. fold r in H. destruct r as [[t' cap'] o]. cbn [fst snd] in *.
  destruct o as [[]|[[a b|n|]| |]|]; try done.
  - destruct H as (Hi & Hn & Ht). split; [by left|]. split; [|done].
    split; [done|]. intros [Hinit Hne]. specialize (Ht Hinit). by simplify_eq.
  - destruct H as (Hi & Hne & -> & -> & ->). split; [by right; left|]. done.
  - destruct H as (Hi & Hne & -> & _). split; [by right; right|].
    split; [|congruence]. split; [done|]. intros [? _]. congruence.
Qed.

Lemma build_tree_ends_witness :
  let t := mk_tree [mk_node 0 0 0 true; mk_node 1 0 0 true] 0 2 false in
  let r := build_tree_mem doubling 3 [true; true; true; false] 3 t in
  (r.2 = Normal ()
   ∨ r.2 = Throw (vw (ConfigurationConflict 3 (_num_leaf_nodes t)))
   ∨ r.2 = Throw (vw (OutOfMemory 3)))
  ∧ (r.2 = Throw (vw (ConfigurationConflict 3 (_num_leaf_nodes t)))
     ↔ _initialized t = true ∧ 3 ≠ _num_leaf_nodes t)
  ∧ (_initialized t = true → r.1 = (t, 3)).
Proof.
  apply (build_tree_ends doubling 3 [true; true; true; false] 3
           (mk_tree [mk_node 0 0 0 true; mk_node 1 0 0 true] 0 2 false)).
  lia.
Defined.

(** ** The tree does not depend on the allocator *)













(** * Further properties of the code *)

(** ** Comparing the nodes of a tree *)

(** [tree_node::operator!=]: the negation of [operator==]. *)
Definition tree_node_neqb (a b : tree_node) : bool := negb (tree_node_eqb a b).

(** X1. No two nodes of a tree compare equal: for every leaf count a
    [uint32_t] holds, [operator==] is [false] and [operator!=] is [true]
    of the nodes at two positions of the vector that [build_tree]
    leaves on a new tree. This holds also beyond [2^31] leaves, where an
    internal node carries the identifier of a leaf. *)
Theorem build_tree_nodes_distinct k (i j : nat) a b :
  1 ≤ k < 2 ^ 32 →
  nodes (build k) !! i = Some a → nodes (build k) !! j = Some b → i ≠ j →
  tree_node_eqb a b = false ∧ tree_node_neqb a b = true.
Proof.
  intros Hk Ha Hb Hij. destruct (build_numbered k ltac:(lia)) as (Hlen & Hnum & _).
  pose proof (lookup_lt_Some _ _ _ Ha) as Hi.
  pose proof (lookup_lt_Some _ _ _ Hb) as Hj.
  destruct (Hnum i a Ha) as (Hida & Hleafa & _).
  destruct (Hnum j b Hb) as (Hidb & Hleafb & _).
  assert (tree_node_eqb a b = false) as Hne.
  { apply not_true_iff_false. intros ->%tree_node_eqb_eq.
    rewrite Hida in Hidb. rewrite Hleafa in Hleafb. unfold uint32_t in Hidb.
    pose proof (Z.div_mod (Z.of_nat i) (2 ^ 32) ltac:(lia)) as Hdi.
    pose proof (Z.div_mod (Z.of_nat j) (2 ^ 32) ltac:(lia)) as Hdj.
    rewrite Hidb in Hdi.
    do 2 case_bool_decide; try done; lia. }
  split; [done|]. unfold tree_node_neqb. by rewrite Hne.
Qed.

Lemma build_tree_nodes_distinct_witness :
  tree_node_eqb (mk_node 0 0 0 true) (mk_node 3 0 1 false) = false
  ∧ tree_node_neqb (mk_node 0 0 0 true) (mk_node 3 0 1 false) = true.
Proof.
  apply (build_tree_nodes_distinct 3 0 3); [lia|reflexivity|reflexivity|lia].
Defined.

(** ** The allocation requests of [build_tree] *)

(** A request and the [n] that follow succeed exactly when this one
    does and the [n] that follow do. *)
Lemma allocate_requests mem b mem' n :
  allocate mem = (b, mem') → 0 ≤ n →
  (b = true ∧ ∀ i : nat, Z.of_nat i < n → mem' !! i ≠ Some false)
  ↔ ∀ i : nat, Z.of_nat i < n + 1 → mem !! i ≠ Some false.
Proof.
  intros Hmem Hn. destruct mem as [|b0 mem0]; simplify_eq/=.
  - split; [by intros _ i _|]. intros _. split; [done|]. by intros i _.
  - split.
    + intros [-> H] [|i] Hi; [done|]. apply H. lia.
    + intros H. split.
      * specialize (H 0%nat ltac:(lia)). simpl in H. by destruct b.
      * intros i Hi. apply (H (S i)). lia.
Qed.

(** The loop makes one request for each round, and [n] candidates take
    [ceil(log2 n)] rounds: it is left normally exactly when none of
    these requests fails. *)
Lemma rounds_requests mem ns ts :
  ts ≠ [] →
  (∃ ts', (rounds mem ns ts).2 = Normal ts')
  ↔ ∀ i : nat, Z.of_nat i < Z.log2_up (Z.of_nat (length ts)) → mem !! i ≠ Some false.
Proof.
  apply (rounds_induction (λ mem ns ts r,
    ts ≠ [] →
    (∃ ts', r.2 = Normal ts')
    ↔ ∀ i : nat, Z.of_nat i < Z.log2_up (Z.of_nat (length ts)) → mem !! i ≠ Some false));
    clear.
  - intros mem ns ts Hlen Hne. split; [|by eexists].
    intros _ i Hi. destruct ts as [|a [|]]; [done| |simpl in Hlen; lia].
    change (Z.log2_up (Z.of_nat (length [a]))) with 0 in Hi. lia.
  - intros mem mem' ns ts Hlen Hmem _. split; [by intros [? ?]|].
    pose proof (Z.log2_up_pos (Z.of_nat (length ts)) ltac:(lia)) as Hpos.
    intros H. exfalso.
    destruct (proj2 (allocate_requests _ _ _
                       (Z.log2_up (Z.of_nat (length ts)) - 1) Hmem ltac:(lia)))
      as [[=] _].
    intros i Hi. apply H. lia.
  - intros mem mem' ns ts Hlen Hmem ns' ts' IH _.
    pose proof (pair_up_length (Z.of_nat (length ns)) ts) as H1.
    pose proof (carry_length ts) as H2.
    pose proof (Z.div_mod (Z.of_nat (length ts)) 2 ltac:(lia)) as Hdm.
    pose proof (Z.mod_pos_bound (Z.of_nat (length ts)) 2 eq_refl) as Hm.
    assert (Z.of_nat (length ts')
            = Z.of_nat (length ts) / 2 + Z.of_nat (length ts) mod 2) as Hlen'.
    { subst ts'. rewrite length_app, length_fmap. lia. }
    assert (ts' ≠ []) as Hne.
    { intros Hnil. rewrite Hnil in Hlen'. simpl in Hlen'. lia. }
    rewrite (IH Hne), Hlen'.
    rewrite <-(log2_up_half (Z.of_nat (length ts))) by lia.
    rewrite <-(allocate_requests _ _ _ _ Hmem) by apply Z.log2_up_nonneg.
    naive_solver.
Qed.

(** The candidate the loop leaves is there to be read. *)
Lemma rounds_root mem ns ts ts' :
  ts ≠ [] → (rounds mem ns ts).2 = Normal ts' → ∃ root, ts' = [root].
Proof.
  intros Hne Hret. pose proof (rounds_outcome mem ns ts) as [_ Hout].
  rewrite Hret in Hout. destruct (Hout Hne) as [Hlen _].
  destruct ts' as [|root [|]]; try done. by exists root.
Qed.

Lemma try_block_requests mem t :
  0 < _num_leaf_nodes t →
  (try_block mem t).2 = Normal ()
  ↔ ∀ i : nat, Z.of_nat i < 2 + Z.log2_up (_num_leaf_nodes t) → mem !! i ≠ Some false.
Proof.
  intros Hk. unfold try_block.
  pose proof (Z.log2_up_nonneg (_num_leaf_nodes t)) as Hlog.
  destruct (allocate mem) as [b1 mem1] eqn:E1.
  destruct (allocate mem1) as [b2 mem2] eqn:E2.
  replace (2 + Z.log2_up (_num_leaf_nodes t))
    with (Z.log2_up (_num_leaf_nodes t) + 1 + 1) by lia.
  rewrite <-(allocate_requests _ _ _ _ E1) by lia.
  rewrite <-(allocate_requests _ _ _ _ E2) by lia.
  destruct b1; [|naive_solver]. destruct b2; [|naive_solver].
  rewrite add_leaves_spec.
  pose proof (rounds_requests mem2 (nodes t ++ leaf_nodes (_num_leaf_nodes t))
                (uint32_t <$> seqZ 0 (_num_leaf_nodes t))
                (seqZ_uint32_nonempty _ Hk)) as Hreq.
  rewrite length_fmap, length_seqZ, Z2Nat.id in Hreq by lia.
  pose proof (rounds_root mem2 (nodes t ++ leaf_nodes (_num_leaf_nodes t))
                (uint32_t <$> seqZ 0 (_num_leaf_nodes t))) as Hroot.
  destruct (rounds _ _ _) as [ns o]; simpl in Hreq, Hroot.
  rewrite <-Hreq. destruct o as [ts'|e|]; [|naive_solver..].
  destruct (Hroot ts' (seqZ_uint32_nonempty _ Hk) eq_refl) as [root ->].
  rewrite at_index_0. simpl. naive_solver.
Qed.

Lemma build_tree_returns_iff k mem t :
  1 ≤ k → _initialized t = false →
  (build_tree k mem t).2 = Normal ()
  ↔ ∀ i : nat, Z.of_nat i < 2 + Z.log2_up k → mem !! i ≠ Some false.
Proof.
  intros Hk Hinit. unfold build_tree. rewrite Hinit.
  cbn [_num_leaf_nodes nodes root_idx _initialized].
  rewrite bool_decide_eq_false_2 by lia.
  rewrite <-(try_block_requests mem (mk_tree (nodes t) (root_idx t) k false))
    by (simpl; lia).
  destruct (try_block _ _) as [t' o]. simpl.
  by destruct o as [[]|[[]| |]|].
Qed.

(** X3. On a new tree, [build_tree k] for [k] from 1 to [2^31] asks the
    allocator [2 + ceil(log2 k)] times: for the node vector, for the
    candidates, and once for each round of the tournament. It returns
    exactly when none of these requests fails. *)
Theorem build_tree_requests k mem :
  1 ≤ k ≤ 2 ^ 31 →
  (build_tree k mem new_tree).2 = Normal ()
  ↔ ∀ i : nat, Z.of_nat i < 2 + Z.log2_up k → mem !! i ≠ Some false.
Proof. intros Hk. apply build_tree_returns_iff; [lia|done]. Qed.

Lemma build_tree_requests_witness :
  (build_tree 5 [true; true; true; true; false] new_tree).2 = Normal ()
  ↔ ∀ i : nat, Z.of_nat i < 2 + Z.log2_up 5 →
      [true; true; true; true; false] !! i ≠ Some false.
Proof. apply (build_tree_requests 5). lia. Defined.

(** ** Building on what a failed call left *)

(** X5. [build_tree] never empties the node vector: on a tree that is
    not initialised, when no allocation fails, it returns having
    appended to whatever the vector held, as a failed call may have
    left it, first the [k] leaves and then [k - 1] internal nodes, each
    of which carries its position in the vector as its identifier. *)
Theorem build_tree_appends k t :
  1 ≤ k < 2 ^ 32 → _initialized t = false →
  let t' := (build_tree k [] t).1 in
  (build_tree k [] t).2 = Normal ()
  ∧ (∃ internal,
       nodes t' = nodes t ++ leaf_nodes k ++ internal
       ∧ Z.of_nat (length internal) = k - 1
       ∧ ∀ (i : nat) n, internal !! i = Some n →
           is_leaf n = false
           ∧ id n = uint32_t (Z.of_nat (length (nodes t)) + k + Z.of_nat i))
  ∧ _initialized t' = true ∧ leaf_node_count t' = k.
Proof.
  intros Hk Hinit. unfold build_tree. rewrite Hinit.
  cbn [_num_leaf_nodes nodes root_idx _initialized].
  rewrite bool_decide_eq_false_2 by lia.
  unfold try_block. cbn [allocate _num_leaf_nodes nodes root_idx _initialized].
  rewrite add_leaves_spec.
  pose proof (rounds_outcome [] (nodes t ++ leaf_nodes k) (uint32_t <$> seqZ 0 k))
    as [_ Hout].
  destruct (rounds_no_failure (nodes t ++ leaf_nodes k) (uint32_t <$> seqZ 0 k))
    as [ts' Hret].
  destruct (rounds_root [] (nodes t ++ leaf_nodes k) (uint32_t <$> seqZ 0 k) ts'
              (seqZ_uint32_nonempty k ltac:(lia)) Hret) as [root ->].
  pose proof (leaf_nodes_length k ltac:(lia)) as Hleaves.
  pose proof (rounds_invariant
                (λ ns ts, ∃ internal,
                   ns = nodes t ++ leaf_nodes k ++ internal
                   ∧ ∀ (i : nat) n, internal !! i = Some n →
                       is_leaf n = false
                       ∧ id n = uint32_t (Z.of_nat (length (nodes t)) + k + Z.of_nat i))
                [] (nodes t ++ leaf_nodes k) (uint32_t <$> seqZ 0 k) [root])
    as [(internal & Hns & Hinternal) _]; [| |done|].
  { exists []. by rewrite app_nil_r. }
  { intros ns ts _ (internal & -> & Hinternal).
    eexists (internal ++ _). split; [by rewrite <-!app_assoc|].
    intros i n [Hn|[Hi Hn]]%lookup_app_Some; [by apply Hinternal|].
    apply pair_up_lookup in Hn as (-> & -> & _). split; [done|].
    f_equal. rewrite !length_app. lia. }
  destruct (rounds _ _ _) as [ns o]. simpl in Hout, Hret, Hns. subst o.
  destruct (Hout (seqZ_uint32_nonempty k ltac:(lia))) as [_ Hlen].
  rewrite at_index_0. simpl. split; [done|]. split; [|done].
  exists internal. split; [done|]. split; [|done].
  rewrite Hns, !length_app, length_fmap, length_seqZ in Hlen. lia.
Qed.

Lemma build_tree_appends_witness :
  let t := (build_tree 2 [true; true; false] new_tree).1 in
  let t' := (build_tree 2 [] t).1 in
  (build_tree 2 [] t).2 = Normal ()
  ∧ (∃ internal,
       nodes t' = nodes t ++ leaf_nodes 2 ++ internal
       ∧ Z.of_nat (length internal) = 2 - 1
       ∧ ∀ (i : nat) n, internal !! i = Some n →
           is_leaf n = false
           ∧ id n = uint32_t (Z.of_nat (length (nodes t)) + 2 + Z.of_nat i))
  ∧ _initialized t' = true ∧ leaf_node_count t' = 2.
Proof.
  apply (build_tree_appends 2 (build_tree 2 [true; true; false] new_tree).1);
    [lia|reflexivity].
Defined.

(** ** The numbering of the nodes, for every leaf count *)

(** X6. For every leaf count [k >= 1] a [uint32_t] holds, the tree
    [build_tree k] leaves on a new tree has [2k - 1] nodes, the node at
    each position carries the position converted to [uint32_t] as its
    identifier, and the leaves are the nodes at the first [k]
    positions. *)
Theorem build_tree_positions k :
  1 ≤ k < 2 ^ 32 →
  Z.of_nat (length (nodes (build k))) = 2 * k - 1
  ∧ leaf_node_count (build k) = k
  ∧ ∀ (i : nat) n, nodes (build k) !! i = Some n →
      id n = uint32_t (Z.of_nat i) ∧ is_leaf n = bool_decide (Z.of_nat i < k).
Proof.
  intros Hk. destruct (build_numbered k ltac:(lia)) as (Hlen & Hnum & Hcount).
  split; [done|]. split; [done|].
  intros i n Hn. by destruct (Hnum i n Hn) as (? & ? & _).
Qed.

Lemma build_tree_positions_witness :
  Z.of_nat (length (nodes (build (2 ^ 31 + 1)))) = 2 * (2 ^ 31 + 1) - 1
  ∧ leaf_node_count (build (2 ^ 31 + 1)) = 2 ^ 31 + 1
  ∧ ∀ (i : nat) n, nodes (build (2 ^ 31 + 1)) !! i = Some n →
      id n = uint32_t (Z.of_nat i)
      ∧ is_leaf n = bool_decide (Z.of_nat i < 2 ^ 31 + 1).
Proof. apply (build_tree_positions (2 ^ 31 + 1)). lia. Defined.

(** ** The root and the children *)

(** In an ordered term no node lies above the root. *)
Lemma ordered_root_max k T x : ordered k T → x ∈ ids T → x ≤ root_of T.
Proof.
  induction T as [i|n l IHl r IHr]; simpl.
  - by intros _ ->%list_elem_of_singleton.
  - intros (? & ? & ? & Hl & Hr) [->|[Hx|Hx]%elem_of_app]%elem_of_cons; [done|..].
    + specialize (IHl Hl Hx). lia.
    + specialize (IHr Hr Hx). lia.
Qed.

Lemma shape_root_last k t T : 1 ≤ k → shape k t T → root_of T = 2 * k - 2.
Proof.
  intros Hk Hsh.
  assert (root_of T ∈ seqZ 0 (2 * k - 1)) as H1%elem_of_seqZ
    by (rewrite <-(shape_ids _ _ _ Hsh); apply root_in_ids).
  assert (2 * k - 2 ∈ ids T) as H2
    by (rewrite (shape_ids _ _ _ Hsh); apply elem_of_seqZ; lia).
  pose proof (ordered_root_max _ _ _ (shape_ordered _ _ _ Hsh) H2). lia.
Qed.

(** X7. For every leaf count [k] from 1 to [2^31], the root of the tree
    is the node created last, [2k - 2], and no internal node has it as a
    child. *)
Theorem build_tree_root k :
  1 ≤ k ≤ 2 ^ 31 →
  root_idx (build k) = 2 * k - 2
  ∧ ∀ n, n ∈ nodes (build k) → is_leaf n = false →
      left_id n ≠ root_idx (build k) ∧ right_id n ≠ root_idx (build k).
Proof.
  intros Hk. destruct (build_shape k Hk) as [T Hsh].
  assert (root_idx (build k) = 2 * k - 2) as ->.
  { rewrite (shape_root _ _ _ Hsh). by apply (shape_root_last k (build k)); [lia|]. }
  split; [done|]. intros n Hn Hleaf.
  destruct (build_nodes_spec k Hk) as (Hlen & Hnum & Hchild).
  destruct (Hchild n Hn Hleaf) as [Hl Hr].
  apply list_elem_of_lookup in Hn as [i Hi].
  pose proof (lookup_lt_Some _ _ _ Hi). destruct (Hnum i n Hi) as [Hid _]. lia.
Qed.

Lemma build_tree_root_witness :
  root_idx (build 5) = 2 * 5 - 2
  ∧ ∀ n, n ∈ nodes (build 5) → is_leaf n = false →
      left_id n ≠ root_idx (build 5) ∧ right_id n ≠ root_idx (build 5).
Proof. apply (build_tree_root 5). lia. Defined.

(** The child slots of a node vector: [left_id] and [right_id] of each
    internal node, in the order of the vector. *)
Definition child_ids (ns : list tree_node) : list Z :=
  filter (λ n, is_leaf n = false) ns ≫= λ n, [left_id n; right_id n].

(** The records of the internal nodes of a term. *)
Fixpoint inner (T : btree) : list tree_node :=
  match T with
  | Leaf _ => []
  | Node n l r => mk_node n (root_of l) (root_of r) false :: inner l ++ inner r
  end.

Lemma ids_inner T :
  ids T ≡ₚ root_of T :: (inner T ≫= λ n, [left_id n; right_id n]).
Proof.
  induction T as [i|n l IHl r IHr]; [done|].
  cbn [ids inner root_of mbind list_bind left_id right_id app].
  rewrite bind_app, IHl, IHr. constructor. simpl. constructor.
  by rewrite Permutation_middle.
Qed.

Lemma inner_ids T : id <$> inner T `sublist_of` ids T.
Proof.
  induction T as [i|n l IHl r IHr]; simpl; [by constructor|].
  rewrite fmap_app. constructor. by apply sublist_app.
Qed.

Lemma inner_stored ns T n :
  stored ns T → n ∈ inner T → n ∈ ns ∧ is_leaf n = false.
Proof.
  induction T as [i|m l IHl r IHr]; simpl; [by intros _ ?%elem_of_nil|].
  intros (_ & Hm & Hl & Hr) [->|[Hn|Hn]%elem_of_app]%elem_of_cons; auto.
  split; [|done]. by eapply list_elem_of_lookup_2.
Qed.

Lemma inner_subtree T bs c l r :
  subtree_at T bs = Some (Node c l r) → node_of (Node c l r) ∈ inner T.
Proof.
  revert T. induction bs as [|[a s] bs IH]; intros T; simpl.
  - intros [= ->]. simpl. constructor.
  - destruct T as [i|n l' r']; [done|]. case_decide; [|done].
    intros HS%IH. simpl. apply elem_of_cons. right. apply elem_of_app.
    destruct s; auto.
Qed.

(** X8. For every leaf count [k] from 1 to [2^31], every node but the
    root is the child of exactly one internal node, on one side: the
    children listed by the internal nodes are the identifiers
    [0 .. 2k-3], each one once. *)
Theorem build_tree_children k :
  1 ≤ k ≤ 2 ^ 31 → child_ids (nodes (build k)) ≡ₚ seqZ 0 (2 * k - 2).
Proof.
  intros Hk. destruct (build_shape k Hk) as [T Hsh].
  destruct (build_nodes_spec k Hk) as (Hlen & Hnum & _).
  assert (filter (λ n, is_leaf n = false) (nodes (build k)) ≡ₚ inner T) as Hin.
  { apply list.NoDup_Permutation.
    - apply (NoDup_fmap_1 id). rewrite (internal_ids k) by (done || lia).
      apply NoDup_seqZ.
    - apply (NoDup_fmap_1 id). eapply sublist_NoDup; [by eapply shape_NoDup|].
      apply inner_ids.
    - intros n. rewrite list_elem_of_filter. split.
      + intros [Hleaf [i Hi]%list_elem_of_lookup].
        pose proof (lookup_lt_Some _ _ _ Hi) as Hlt.
        destruct (shape_node k (build k) T (Z.of_nat i) Hsh)
          as (bs & S & HS & _ & HSn & _); [lia|].
        rewrite Nat2Z.id, Hi in HSn. injection HSn as ->.
        destruct S as [c|c l r]; [done|]. by eapply inner_subtree.
      + intros Hn.
        destruct (inner_stored _ _ _ (shape_stored _ _ _ Hsh) Hn). done. }
  unfold child_ids. rewrite Hin.
  pose proof (ids_inner T) as Hids.
  rewrite (shape_ids _ _ _ Hsh), (shape_root_last k (build k) T) in Hids by (done || lia).
  replace (2 * k - 1) with ((2 * k - 2) + 1) in Hids by lia.
  rewrite seqZ_app in Hids by lia.
  rewrite (seqZ_cons _ 1), (seqZ_nil _ (Z.pred 1)) in Hids by lia.
  rewrite <-Permutation_cons_append in Hids.
  replace (0 + (2 * k - 2)) with (2 * k - 2) in Hids by lia.
  by apply Permutation_cons_inv in Hids.
Qed.

Lemma build_tree_children_witness :
  child_ids (nodes (build 5)) ≡ₚ seqZ 0 (2 * 5 - 2).
Proof. apply (build_tree_children 5). lia. Defined.

(** ** The first round *)

(** The node a round creates for the [j]-th pair of candidates. *)
Lemma pair_up_pairs ts : ∀ i (j : nat) a b,
  ts !! (2 * j)%nat = Some a → ts !! (2 * j + 1)%nat = Some b →
  pair_up i ts !! j = Some (new_tree_node (i + Z.of_nat j) a b false).
Proof.
  induction ts as [|c|c d ts IH] using list_pair_ind; intros i j a b; try done.
  - by destruct j.
  - destruct j as [|j].
    + cbn [lookup list_lookup Nat.mul Nat.add pair_up]. intros [= ->] [= ->].
      by rewrite Z.add_0_r.
    + replace (2 * S j)%nat with (S (S (2 * j))) by lia.
      replace (S (S (2 * j)) + 1)%nat with (S (S (2 * j + 1))) by lia.
      intros Ha Hb.
      change (pair_up i (c :: d :: ts) !! S j) with (pair_up (i + 1) ts !! j).
      rewrite (IH (i + 1) j a b Ha Hb). do 2 f_equal. lia.
Qed.

(** The node vector of [build k] is the one the rounds leave, started on
    the row of leaves. *)
Lemma build_rounds k :
  1 ≤ k → nodes (build k) = (rounds [] (leaf_nodes k) (uint32_t <$> seqZ 0 k)).1.
Proof.
  intros Hk. unfold build, build_tree, new_tree. simpl.
  rewrite bool_decide_eq_false_2 by lia.
  unfold try_block. simpl. rewrite add_leaves_spec. simpl.
  destruct (rounds_no_failure (leaf_nodes k) (uint32_t <$> seqZ 0 k)) as [ts' Hret].
  destruct (rounds_root [] (leaf_nodes k) (uint32_t <$> seqZ 0 k) ts'
              (seqZ_uint32_nonempty k ltac:(lia)) Hret) as [root ->].
  destruct (rounds _ _ _) as [ns o]. simpl in *. subst o.
  by rewrite at_index_0.
Qed.

(** X9. The first round pairs the leaves in the order of their
    identifiers: for every leaf count [k] from 2 to [2^31], the internal
    node [k + j] has the leaves [2j] and [2j + 1] as its left and right
    child, for every [j] below [k / 2]. *)
Theorem build_tree_first_round k j :
  2 ≤ k ≤ 2 ^ 31 → 0 ≤ j < k / 2 →
  nodes (build k) !! Z.to_nat (k + j)
  = Some (mk_node (k + j) (2 * j) (2 * j + 1) false).
Proof.
  intros Hk Hj. pose proof (Z.mul_div_le k 2 eq_refl) as Hdiv.
  pose proof (leaf_nodes_length k ltac:(lia)) as Hleaves.
  rewrite build_rounds, rounds_step by lia.
  rewrite decide_True by (rewrite length_fmap, length_seqZ; lia).
  cbn [allocate]. rewrite round_spec.
  eapply prefix_lookup_Some; [|apply rounds_outcome].
  rewrite lookup_app_r by lia.
  replace (Z.to_nat (k + j) - length (leaf_nodes k))%nat with (Z.to_nat j) by lia.
  rewrite (pair_up_pairs _ _ _ (2 * j) (2 * j + 1)).
  - rewrite Hleaves, Z2Nat.id by lia. unfold new_tree_node.
    by rewrite !uint32_t_small by lia.
  - rewrite list_lookup_fmap.
    replace (2 * Z.to_nat j)%nat with (Z.to_nat (2 * j)) by lia.
    rewrite lookup_seqZ_lt by lia. simpl.
    by rewrite Z2Nat.id, uint32_t_small by lia.
  - rewrite list_lookup_fmap.
    replace (2 * Z.to_nat j + 1)%nat with (Z.to_nat (2 * j + 1)) by lia.
    rewrite lookup_seqZ_lt by lia. simpl.
    by rewrite Z2Nat.id, uint32_t_small by lia.
Qed.

Lemma build_tree_first_round_witness :
  nodes (build 7) !! Z.to_nat (7 + 2) = Some (mk_node (7 + 2) (2 * 2) (2 * 2 + 1) false).
Proof. apply (build_tree_first_round 7 2); [lia|]. by vm_compute. Defined.

(** ** The counters *)

(** X10. [init(k)] on a new tree, when no allocation fails, leaves the
    tree [build_tree k] leaves, with [k] leaves and [k - 1] internal
    nodes (none for [k = 0]). [learner_count()] is this number as an
    [int32_t]: it is the number of internal nodes up to [2^31] leaves
    and negative above. *)
Theorem init_counts k :
  0 ≤ k < 2 ^ 32 →
  init k [] (mk_offset_tree new_tree) = (mk_offset_tree (build k), Normal ())
  ∧ leaf_node_count (build k) = k
  ∧ internal_node_count (build k) = Z.max 0 (k - 1)
  ∧ learner_count (mk_offset_tree (build k))
    = (if bool_decide (k ≤ 2 ^ 31) then Z.max 0 (k - 1) else k - 1 - 2 ^ 32).
Proof.
  intros Hk. split.
  { unfold init, build. cbn [binary_tree].
    pose proof (build_returns k ltac:(lia)) as Hret.
    destruct (build_tree k [] new_tree) as [t o]. simpl in *. by subst o. }
  destruct (decide (k = 0)) as [->|Hk0]; [done|].
  destruct (build_numbered k ltac:(lia)) as (_ & _ & Hcount).
  pose proof (internal_node_count_build k ltac:(lia)) as Hinner.
  unfold learner_count, leaf_node_count. cbn [binary_tree].
  rewrite Hinner, Hcount. split; [done|]. split; [lia|].
  unfold int32_t. case_bool_decide.
  - rewrite Z.mod_small by lia. lia.
  - rewrite <-(Z.mod_unique_pos (k - 1 + 2 ^ 31) (2 ^ 32) 1 (k - 1 - 2 ^ 31)); lia.
Qed.

Lemma init_counts_witness :
  init (2 ^ 31 + 1) [] (mk_offset_tree new_tree)
  = (mk_offset_tree (build (2 ^ 31 + 1)), Normal ())
  ∧ leaf_node_count (build (2 ^ 31 + 1)) = 2 ^ 31 + 1
  ∧ internal_node_count (build (2 ^ 31 + 1)) = Z.max 0 (2 ^ 31 + 1 - 1)
  ∧ learner_count (mk_offset_tree (build (2 ^ 31 + 1)))
    = (if bool_decide (2 ^ 31 + 1 ≤ 2 ^ 31) then Z.max 0 (2 ^ 31 + 1 - 1)
       else 2 ^ 31 + 1 - 1 - 2 ^ 32).
Proof. apply (init_counts (2 ^ 31 + 1)). lia. Defined.

(** X11. When the first or the second request of [build_tree k] on a
    new tree fails, for the node vector or for the candidates, the call
    throws the memory error and leaves a tree with no node whose leaf
    count is [k]: [internal_node_count()] is then [2^32 - k], and
    [learner_count()] is [- k] up to [2^31] leaves. *)
Theorem build_tree_failed_counts k mem :
  1 ≤ k < 2 ^ 32 →
  mem !! 0%nat = Some false ∨ mem !! 1%nat = Some false →
  let r := build_tree k mem new_tree in
  r.2 = Throw (vw (OutOfMemory k))
  ∧ nodes r.1 = []
  ∧ leaf_node_count r.1 = k
  ∧ internal_node_count r.1 = 2 ^ 32 - k
  ∧ learner_count (mk_offset_tree r.1)
    = (if bool_decide (k ≤ 2 ^ 31) then - k else 2 ^ 32 - k).
Proof.
  intros Hk Hmem.
  assert (build_tree k mem new_tree
          = (mk_tree [] 0 k false, Throw (vw (OutOfMemory k)))) as ->.
  { unfold build_tree, new_tree. simpl. rewrite bool_decide_eq_false_2 by lia.
    unfold try_block. destruct mem as [|[] [|[] mem]]; naive_solver. }
  cbv zeta. cbn [fst snd nodes]. do 3 (split; [done|]).
  assert (internal_node_count (mk_tree [] 0 k false) = 2 ^ 32 - k) as Hcount.
  { unfold internal_node_count, size_t, uint32_t.
    cbn [nodes _num_leaf_nodes length]. change (Z.of_nat 0) with 0.
    rewrite <-(Z.mod_unique_pos (0 - k) (2 ^ 64) (-1) (2 ^ 64 - k)) by lia.
    rewrite <-(Z.mod_unique_pos (2 ^ 64 - k) (2 ^ 32) (2 ^ 32 - 1) (2 ^ 32 - k)); lia. }
  split; [done|]. unfold learner_count. cbn [binary_tree]. rewrite Hcount.
  unfold int32_t. case_bool_decide.
  - rewrite <-(Z.mod_unique_pos (2 ^ 32 - k + 2 ^ 31) (2 ^ 32) 1 (2 ^ 31 - k)); lia.
  - rewrite Z.mod_small by lia. lia.
Qed.

Lemma build_tree_failed_counts_witness :
  let r := build_tree 3 [true; false] new_tree in
  r.2 = Throw (vw (OutOfMemory 3))
  ∧ nodes r.1 = []
  ∧ leaf_node_count r.1 = 3
  ∧ internal_node_count r.1 = 2 ^ 32 - 3
  ∧ learner_count (mk_offset_tree r.1)
    = (if bool_decide (3 ≤ 2 ^ 31) then - 3 else 2 ^ 32 - 3).
Proof. apply (build_tree_failed_counts 3 [true; false]); [lia|by right]. Defined.

(** ** [offset_helper] *)

(** X12. Through an [offset_helper] on a vector, with a [uint32_t]
    offset, the indices from the offset on, as many as the vector has
    elements, are those of the vector; any other index, below the
    offset or past the end, is undefined behaviour, for a read as for a
    write. *)
Theorem offset_helper_range {A : Type} (c : list A) off idx :
  0 ≤ off < 2 ^ 32 → 0 ≤ idx < 2 ^ 64 →
  Z.of_nat (length c) ≤ 2 ^ 64 - 2 ^ 32 →
  if bool_decide (off ≤ idx < off + Z.of_nat (length c)) then
    ∃ a, c !! Z.to_nat (idx - off) = Some a
         ∧ offset_helper_get c off idx = Normal a
         ∧ ∀ b, offset_helper_set c off idx b = Normal (<[Z.to_nat (idx - off) := b]> c)
  else
    offset_helper_get c off idx = Undefined
    ∧ ∀ b, offset_helper_set c off idx b = Undefined.
Proof.
  intros Hoff Hidx Hlen. unfold offset_helper_get, offset_helper_set.
  case_bool_decide as Hin.
  - unfold size_t. rewrite Z.mod_small by lia.
    destruct (lookup_lt_is_Some_2 c (Z.to_nat (idx - off))) as [a Ha]; [lia|].
    exists a. split; [done|]. split.
    + apply at_index_Normal. split; [lia|done].
    + intros b. unfold set_index. by rewrite bool_decide_eq_true_2 by lia.
  - assert (¬ 0 ≤ size_t (idx - off) < Z.of_nat (length c)) as Hout.
    { unfold size_t. destruct (decide (off ≤ idx)).
      - rewrite Z.mod_small by lia. lia.
      - rewrite <-(Z.mod_unique_pos (idx - off) (2 ^ 64) (-1) (idx - off + 2 ^ 64));
          lia. }
    unfold at_index, set_index. by rewrite !bool_decide_eq_false_2 by done.
Qed.

Lemma offset_helper_range_witness :
  if bool_decide (3 ≤ 2 < 3 + Z.of_nat (length [10; 20]))
  then
    ∃ a, [10; 20] !! Z.to_nat (2 - 3) = Some a
         ∧ offset_helper_get [10; 20] 3 2 = Normal a
         ∧ ∀ b, offset_helper_set [10; 20] 3 2 b
                = Normal (<[Z.to_nat (2 - 3) := b]> [10; 20])
  else
    offset_helper_get [10; 20] 3 2 = Undefined
    ∧ ∀ b, offset_helper_set [10; 20] 3 2 b = Undefined.
Proof. apply (offset_helper_range [10; 20] 3 2); [lia|lia|by vm_compute]. Defined.

(** X13. A write through an [offset_helper] at an index in range is
    read back at this index, leaves the length of the vector as it was,
    and is not seen at any other index in range. *)
Theorem offset_helper_round_trip {A : Type} (c : list A) off idx idx' a :
  0 ≤ off →
  off ≤ idx < off + Z.of_nat (length c) →
  off ≤ idx' < off + Z.of_nat (length c) →
  Z.of_nat (length c) ≤ 2 ^ 64 →
  ∃ c', offset_helper_set c off idx a = Normal c'
    ∧ length c' = length c
    ∧ offset_helper_get c' off idx = Normal a
    ∧ (idx' ≠ idx → offset_helper_get c' off idx' = offset_helper_get c off idx').
Proof.
  intros Hoff Hidx Hidx' Hlen. unfold offset_helper_get, offset_helper_set, size_t.
  rewrite !Z.mod_small by lia. unfold set_index.
  rewrite bool_decide_eq_true_2 by lia. eexists. split; [done|].
  split; [by rewrite length_insert|]. split.
  - apply at_index_Normal. split; [lia|]. apply list_lookup_insert_eq. lia.
  - intros Hne. unfold at_index. rewrite length_insert.
    by rewrite list_lookup_insert_ne by lia.
Qed.

Lemma offset_helper_round_trip_witness :
  ∃ c', offset_helper_set [10; 20; 30] 3 4 7 = Normal c'
    ∧ length c' = length [10; 20; 30]
    ∧ offset_helper_get c' 3 4 = Normal 7
    ∧ (5 ≠ 4 → offset_helper_get c' 3 5 = offset_helper_get [10; 20; 30] 3 5).
Proof.
  apply (offset_helper_round_trip [10; 20; 30] 3 4 5 7); [lia|simpl; lia..].
Defined.

(** ** The statics after a call of [predict] *)

Section buffers.
Context {float : Type} (fmul : float → float → float) (f0 f1 : float).
Context {World : Type} (base_predict : World → Z → World * (float * float)).

(** X14. After a call of [predict] on a tree of [k] leaves, from 2 to
    [2^31], [prediction_buffer] has [k - 1] pairs, and the pair of the
    internal node [c] holds, for each of its two children, the product
    of the shares along the path from the root to this child. *)
Theorem predict_buffer k tls w c :
  2 ≤ k ≤ 2 ^ 31 → k ≤ c < 2 * k - 1 →
  ∃ s bs,
    predict fmul f0 f1 base_predict (mk_offset_tree (build k)) tls w = Normal s
    ∧ Z.of_nat (length (prediction_buffer (statics s))) = k - 1
    ∧ path (nodes (build k)) (root_idx (build k)) bs c
    ∧ prediction_buffer (statics s) !! Z.to_nat (c - k)
      = Some (path_product fmul f1 (node_answer base_predict k w) (bs ++ [(c, to_left)]),
              path_product fmul f1 (node_answer base_predict k w) (bs ++ [(c, to_right)])).
Proof.
  intros Hk Hc. destruct (build_shape k ltac:(lia)) as [T Hsh].
  destruct (predict_spec fmul f0 f1 base_predict k T tls w Hk Hsh)
    as (s & Hs & Hinv & _).
  destruct (shape_node k (build k) T c Hsh) as (bs & S & HS & Hroot & _ & Hord);
    [lia|].
  destruct S as [c'|c' l r]; simpl in Hroot, Hord; [lia|]. subst c'.
  exists s, bs. split; [done|]. split; [|split].
  - rewrite (inv_buffer _ _ _ _ _ _ _ Hinv). lia.
  - rewrite (shape_root _ _ _ Hsh).
    apply (path_subtree _ _ _ _ (shape_stored _ _ _ Hsh)). by eexists.
  - apply (inv_ready _ _ _ _ _ _ _ Hinv bs c l r HS).
    destruct bs as [|b bs _] using rev_ind; [by left|]. right.
    destruct b as [a sd]. exists a. split; [apply parent_of_snoc|].
    apply subtree_at_snoc in HS as (l' & r' & HN & _).
    pose proof (subtree_at_ordered _ _ _ _ (shape_ordered _ _ _ Hsh) HN) as Ha.
    simpl in Ha. lia.
Qed.

(** The first loop of [predict] does not get through [2^31] nodes: the
    increment of its [int] index is undefined at [INT_MAX]. *)
Lemma score_nodes_overflow (n : nat) : ∀ idx (s : @run float World),
  0 ≤ idx ≤ INT_MAX → INT_MAX < idx + Z.of_nat n →
  score_nodes base_predict n idx s = Undefined.
Proof.
  induction n as [|n IH]; intros idx s Hidx Hn; [lia|].
  cbn [score_nodes]. case_bool_decide; [|done]. apply IH; lia.
Qed.

(** X15. On a tree of more than [2^31] leaves no call of [predict]
    returns: the first call on a thread throws [std::length_error] when
    it initialises the statics, and a call on a thread that has them
    runs into undefined behaviour, the overflow of the index of the
    first loop. *)
Theorem predict_beyond k tls w :
  2 ^ 31 < k < 2 ^ 32 →
  predict fmul f0 f1 base_predict (mk_offset_tree (build k)) tls w
  = match tls with
    | None => Throw length_error
    | Some _ => Undefined
    end.
Proof.
  intros Hk. destruct tls as [tl|]; [|by apply predict_overflow].
  destruct (build_numbered k ltac:(lia)) as (_ & _ & Hcount).
  unfold predict. cbn [init_statics mbind outcome_bind binary_tree].
  unfold leaf_node_count. rewrite Hcount, internal_node_count_build by lia.
  rewrite !bool_decide_eq_false_2 by lia.
  rewrite score_nodes_overflow; [done|unfold INT_MAX; lia..].
Qed.

(** A call of [predict] on a tree of up to [2^31] leaves returns, with
    one score for each leaf and the world as the scorer left it. *)
Lemma predict_world_spec k tls w :
  0 ≤ k ≤ 2 ^ 31 →
  ∃ s, predict fmul f0 f1 base_predict (mk_offset_tree (build k)) tls w = Normal s
       ∧ Z.of_nat (length (scores (statics s))) = k
       ∧ world s
         = world_before base_predict (Z.to_nat (internal_node_count (build k))) w.
Proof.
  intros Hk.
  destruct (decide (k = 0)) as [->|Hk0]; [|destruct (decide (k = 1)) as [->|Hk1]].
  - destruct tls as [tl|]; eexists; (split; [reflexivity|]); simpl; done.
  - destruct tls as [[b [|x v]]|]; eexists; (split; [reflexivity|]); simpl; done.
  - destruct (build_shape k ltac:(lia)) as [T Hsh].
    destruct (predict_spec fmul f0 f1 base_predict k T tls w ltac:(lia) Hsh)
      as (s & Hs & Hinv & _ & Hw).
    exists s. split; [done|]. split.
    + rewrite (inv_scores _ _ _ _ _ _ _ Hinv). lia.
    + by rewrite internal_node_count_build by lia.
Qed.

(** X16. [predict] changes the world, that is the example and the base
    learner, through the scorer only: for every leaf count [k] up to
    [2^31] the world after the call is the one the scorer's invocations
    for [idx = 0, 1, ...], each one starting in the world the one before
    left, lead to from the world before the call; it is the world
    before the call when [k <= 1]. *)
Theorem predict_world k tls w :
  0 ≤ k ≤ 2 ^ 31 →
  ∃ s, predict fmul f0 f1 base_predict (mk_offset_tree (build k)) tls w = Normal s
       ∧ world s
         = world_before base_predict (Z.to_nat (internal_node_count (build k))) w
       ∧ (k ≤ 1 → world s = w).
Proof.
  intros Hk. destruct (predict_world_spec k tls w Hk) as (s & Hs & _ & Hw).
  exists s. split; [done|]. split; [done|]. intros Hk1. rewrite Hw.
  by assert (k = 0 ∨ k = 1) as [-> | ->] by lia.
Qed.

End buffers.

Lemma predict_buffer_witness :
  ∃ s bs,
    predict Z.mul 0 1 example_scorer (mk_offset_tree (build 3)) None tt = Normal s
    ∧ Z.of_nat (length (prediction_buffer (statics s))) = 3 - 1
    ∧ path (nodes (build 3)) (root_idx (build 3)) bs 3
    ∧ prediction_buffer (statics s) !! Z.to_nat (3 - 3)
      = Some (path_product Z.mul 1 (node_answer example_scorer 3 tt)
                (bs ++ [(3, to_left)]),
              path_product Z.mul 1 (node_answer example_scorer 3 tt)
                (bs ++ [(3, to_right)])).
Proof. apply (predict_buffer Z.mul 0 1 example_scorer 3 None tt 3); lia. Defined.

Lemma predict_world_witness :
  ∃ s, predict Z.mul 0 1 example_scorer (mk_offset_tree (build 3)) None tt = Normal s
       ∧ world s
         = world_before example_scorer (Z.to_nat (internal_node_count (build 3))) tt
       ∧ (3 ≤ 1 → world s = tt).
Proof. apply (predict_world Z.mul 0 1 example_scorer 3 None tt). lia. Defined.

Lemma predict_beyond_witness :
  predict Z.mul 0 1 example_scorer (mk_offset_tree (build (2 ^ 31 + 1)))
    (Some (mk_thread_local [] [])) tt
  = Undefined.
Proof.
  apply (predict_beyond Z.mul 0 1 example_scorer (2 ^ 31 + 1)
           (Some (mk_thread_local [] [])) tt).
  lia.
Defined.

(** ** The reduction's [predict] *)

Section reduction.
Context {float : Type} (fmul : float → float → float) (f0 f1 : float).
Context {World : Type} (base_predict : World → Z → World * (float * float)).

(** The action scores of the example, [ec.pred.a_s], which the world
    holds: the list, [clear()] and [push_back({action, score})]. *)
Context (a_s : World → list (Z * float)).
Context (a_s_clear : World → World).
Context (a_s_push_back : Z * float → World → World).
Hypothesis a_s_clear_spec : ∀ w, a_s (a_s_clear w) = [].
Hypothesis a_s_push_back_spec : ∀ p w, a_s (a_s_push_back p w) = a_s w ++ [p].

(** The body of the loop: [ec.pred.a_s.push_back({idx, scores[idx]})]. *)
Definition push_score (scores : list float) (idx : Z) (w : World) : outcome World :=
  x ← at_index scores idx;
  Normal (a_s_push_back (idx, x) w).

(** [void predict(offset_tree& ot, single_learner& base, example& ec)].
    [scores] is a copy of the vector [ot.predict] returns, of
    [leaf_node_count()] elements, so the [uint32_t] index of the loop
    does not wrap. *)
Definition reduction_predict (ot : offset_tree) (tls : option thread_local)
    (w : World) : outcome (@run float World) :=
  s ← predict fmul f0 f1 base_predict ot tls (a_s_clear w);
  let scores := scores (statics s) in
  w ← for_each (push_score scores) (seqZ 0 (Z.of_nat (length scores))) (world s);
  Normal (mk_run (statics s) w (calls s) (writes s)).

(** The loop appends the scores with their indices. *)
Lemma for_each_push_score (rest : list float) : ∀ pre w,
  ∃ w', for_each (push_score (pre ++ rest))
          (seqZ (Z.of_nat (length pre)) (Z.of_nat (length rest))) w = Normal w'
        ∧ a_s w' = a_s w ++ imap (λ i x, (Z.of_nat (length pre + i), x)) rest.
Proof.
  induction rest as [|x rest IH]; intros pre w.
  - exists w. split; [done|]. cbn [imap]. by rewrite app_nil_r.
  - assert (push_score (pre ++ x :: rest) (Z.of_nat (length pre)) w
            = Normal (a_s_push_back (Z.of_nat (length pre), x) w)) as Hpush.
    { unfold push_score. by rewrite (at_index_app_r pre (x :: rest) _ x). }
    rewrite seqZ_cons by (cbn [length]; lia). cbn [for_each].
    rewrite Hpush. cbn [mbind outcome_bind].
    destruct (IH (pre ++ [x]) (a_s_push_back (Z.of_nat (length pre), x) w))
      as (w' & Hw' & Ha).
    rewrite <-app_assoc in Hw'. cbn [app] in Hw'.
    rewrite length_app in Hw'. cbn [length] in Hw'.
    replace (Z.succ (Z.of_nat (length pre))) with (Z.of_nat (length pre + 1)) by lia.
    replace (Z.pred (Z.of_nat (length (x :: rest)))) with (Z.of_nat (length rest))
      by (cbn [length]; lia).
    exists w'. split; [done|].
    rewrite Ha, a_s_push_back_spec, <-app_assoc. f_equal.
    cbn [imap app]. rewrite Nat.add_0_r. f_equal.
    apply imap_ext. intros i y _. rewrite length_app. cbn [length]. simpl.
    do 2 f_equal. lia.
Qed.

(** X17. For every leaf count [k] up to [2^31] the reduction's [predict]
    returns. It leaves in the example's action scores what the scorer
    left there at its last invocation (nothing when [k <= 1], where the
    scorer is not invoked), followed by the pairs [(i, scores[i])] for
    the leaves [i = 0 .. k-1] in this order, [scores] being the vector
    [offset_tree::predict] returns from the example with its action
    scores cleared. *)
Theorem reduction_predict_scores k tls w :
  0 ≤ k ≤ 2 ^ 31 →
  ∃ s0 s,
    predict fmul f0 f1 base_predict (mk_offset_tree (build k)) tls (a_s_clear w)
    = Normal s0
    ∧ reduction_predict (mk_offset_tree (build k)) tls w = Normal s
    ∧ a_s (world s)
      = a_s (world s0) ++ imap (λ i x, (Z.of_nat i, x)) (scores (statics s0))
    ∧ Z.of_nat (length (a_s (world s))) = Z.of_nat (length (a_s (world s0))) + k
    ∧ world s0
      = world_before base_predict (Z.to_nat (internal_node_count (build k)))
          (a_s_clear w)
    ∧ (k ≤ 1 → a_s (world s0) = [])
    ∧ statics s = statics s0.
Proof.
  intros Hk.
  destruct (predict_world_spec fmul f0 f1 base_predict k tls (a_s_clear w) Hk)
    as (s0 & Hs0 & Hlen & Hw).
  destruct (for_each_push_score (scores (statics s0)) [] (world s0))
    as (w' & Hw' & Ha).
  exists s0, (mk_run (statics s0) w' (calls s0) (writes s0)).
  split; [done|]. split.
  { unfold reduction_predict. rewrite Hs0. cbn [mbind outcome_bind].
    cbn [app length] in Hw'. change (Z.of_nat 0) with 0 in Hw'. by rewrite Hw'. }
  cbn [world statics]. rewrite Ha. cbn [length Nat.add].
  split; [done|]. split.
  { rewrite length_app, length_imap. lia. }
  split; [done|]. split; [|done]. intros Hk1. rewrite Hw.
  assert (k = 0 ∨ k = 1) as [-> | ->] by lia; apply a_s_clear_spec.
Qed.

End reduction.

(** A scorer that leaves its two scores in the example, as actions 0
    and 1: the world is the list of action scores. *)
Definition listing_scorer (w : list (Z * Z)) (idx : Z) : list (Z * Z) * (Z * Z) :=
  ([(0, idx + 1); (1, - idx)], (idx + 1, - idx)).

Lemma reduction_predict_scores_witness :
  ∃ s0 s,
    predict Z.mul 0 1 listing_scorer (mk_offset_tree (build 3)) None [] = Normal s0
    ∧ reduction_predict Z.mul 0 1 listing_scorer (λ _, []) (λ p w, w ++ [p])
        (mk_offset_tree (build 3)) None [(5, 5)] = Normal s
    ∧ world s = world s0 ++ imap (λ i x, (Z.of_nat i, x)) (scores (statics s0))
    ∧ Z.of_nat (length (world s)) = Z.of_nat (length (world s0)) + 3
    ∧ world s0
      = world_before listing_scorer (Z.to_nat (internal_node_count (build 3))) []
    ∧ (3 ≤ 1 → world s0 = [])
    ∧ statics s = statics s0.
Proof.
  apply (reduction_predict_scores Z.mul 0 1 listing_scorer (λ w, w) (λ _, [])
           (λ p w, w ++ [p]) (λ _, eq_refl) (λ _ _, eq_refl) 3 None [(5, 5)]).
  lia.
Defined.

(** With the scorer above and three leaves: the example ends with the
    two scores of the last invocation and then the three pairs. *)
Example reduction_predict_3 :
  ∃ s, reduction_predict Z.mul 0 1 listing_scorer (λ _, []) (λ p w, w ++ [p])
         (mk_offset_tree (build 3)) None [(5, 5)] = Normal s
       ∧ world s = [(0, 2); (1, -1); (0, 2); (1, 0); (2, -1)].
Proof. by eexists. Qed.
